(** * Hungry Monkey: the search problem and its three search strategies

    A shallow embedding of [hungry_monkey_model.py], [hungry_monkey_UCS.py],
    [hungry_monkey_AStar.py] and [hungry_monkey_IDS.py].

    Python values are embedded as follows.
    - [Coordinate] (a named tuple of the [wumpus] package, compared and hashed
      by value) is a pair of integers.
    - An action is a member of the [Eater.Actions] enumeration of the
      [wumpus] package: a name and a movement delta [value].  Problems take
      their action list as an argument, so no particular enumeration is fixed.
    - The remaining bananas of a state are kept by the source in two
      different containers: the root node stores the problem's [set], every
      state built by [successor] stores a [list].  [Collection] keeps the two
      apart, because Python's [==] tells them apart.
    - Numbers are integers; [math.inf] is the extra value [Inf].
    - An exception is an explicit outcome. *)

From Stdlib Require Import ZArith Lia.
From stdpp Require Import base decidable option list sorting gmap strings.

Open Scope Z_scope.

(** ** Coordinates, actions, containers *)

Abbreviation Coordinate := (Z * Z)%type (only parsing).

Definition x (c : Coordinate) : Z := fst c.
Definition y (c : Coordinate) : Z := snd c.

Record Action := mkAction {
  name : string;
  value : Z * Z
}.

Global Instance Action_eq_dec : EqDecision Action.
Proof. solve_decision. Defined.

(** The container behind [remaining_bananas]. *)
Inductive Collection :=
| PySet (s : gset Coordinate)
| PyList (l : list Coordinate).

(** [for banana in c]: the elements in iteration order. *)
Definition iterate (c : Collection) : list Coordinate :=
  match c with
  | PySet s => elements s
  | PyList l => l
  end.

(** [frozenset(c)]. *)
Definition frozenset (c : Collection) : gset Coordinate :=
  match c with
  | PySet s => s
  | PyList l => list_to_set l
  end.

(** [len(c)]. *)
Definition len (c : Collection) : Z :=
  match c with
  | PySet s => Z.of_nat (size s)
  | PyList l => Z.of_nat (length l)
  end.

(** [loc in c]. *)
Definition contains (c : Collection) (loc : Coordinate) : bool :=
  match c with
  | PySet s => bool_decide (loc ∈ s)
  | PyList l => bool_decide (loc ∈ l)
  end.

(** [not c]: Python's truth test of a container. *)
Definition is_empty (c : Collection) : bool :=
  match c with
  | PySet s => bool_decide (s = ∅)
  | PyList l => match l with [] => true | _ => false end
  end.

(** [c1 == c2]: two sets are equal when they have the same members, two
    lists when they have the same elements in the same order; a set never
    equals a list. *)
Definition collection_eq (c1 c2 : Collection) : bool :=
  match c1, c2 with
  | PySet s1, PySet s2 => bool_decide (s1 = s2)
  | PyList l1, PyList l2 => bool_decide (l1 = l2)
  | _, _ => false
  end.

(** ** States, results, nodes *)

Record HungryMonkeyState := mkState {
  current_location : Coordinate;
  remaining_bananas : Collection
}.

Inductive number :=
| Int (z : Z)
| Inf.

(** [a < b] for an integer [a] and a number [b]. *)
Definition lt_number (a : Z) (b : number) : bool :=
  match b with
  | Int z => a <? z
  | Inf => true
  end.

Record HungryMonkeyResult := mkResult {
  sequence_actions : list Action;
  total_reward : number
}.

Inductive HungryMonkeyNode :=
| mkNode (state : HungryMonkeyState) (path_cost : Z)
         (previous_action : option Action) (parent : option HungryMonkeyNode)
         (heuristic_cost : Z).

Definition state (n : HungryMonkeyNode) : HungryMonkeyState :=
  match n with mkNode s _ _ _ _ => s end.
Definition path_cost (n : HungryMonkeyNode) : Z :=
  match n with mkNode _ c _ _ _ => c end.
Definition previous_action (n : HungryMonkeyNode) : option Action :=
  match n with mkNode _ _ a _ _ => a end.
Definition parent (n : HungryMonkeyNode) : option HungryMonkeyNode :=
  match n with mkNode _ _ _ p _ => p end.
Definition heuristic_cost (n : HungryMonkeyNode) : Z :=
  match n with mkNode _ _ _ _ h => h end.

(** [HungryMonkeyNode.__init__]: the location is copied into a fresh
    [Coordinate], the container is stored as it is given. *)
Definition new_node (loc : Coordinate) (bananas : Collection) (cost : Z)
    (action : option Action) (par : option HungryMonkeyNode) (h : Z)
  : HungryMonkeyNode :=
  mkNode (mkState (x loc, y loc) bananas) cost action par h.

(** [HungryMonkeyNode(loc, bananas)] with the default arguments. *)
Definition plain_node (loc : Coordinate) (bananas : Collection) : HungryMonkeyNode :=
  new_node loc bananas 0 None None 0.

(** [HungryMonkeyNode.__hash__] hashes this tuple; equal tuples give equal
    hashes. *)
Definition node_hash (n : HungryMonkeyNode) : Z * Z * gset Coordinate :=
  (x (current_location (state n)), y (current_location (state n)),
   frozenset (remaining_bananas (state n))).

(** [HungryMonkeyNode.__eq__] *)
Definition node_eq (n other : HungryMonkeyNode) : bool :=
  (x (current_location (state n)) =? x (current_location (state other)))
  && (y (current_location (state n)) =? y (current_location (state other)))
  && collection_eq (remaining_bananas (state n)) (remaining_bananas (state other)).

(** [HungryMonkeyNode.__lt__] *)
Definition node_lt (n other : HungryMonkeyNode) : bool :=
  if path_cost n + heuristic_cost n =? path_cost other + heuristic_cost other
  then len (remaining_bananas (state n)) <? len (remaining_bananas (state other))
  else path_cost n + heuristic_cost n <? path_cost other + heuristic_cost other.

(** Membership of a node in a Python [list]: a scan with [==]. *)
Definition in_list (n : HungryMonkeyNode) (l : list HungryMonkeyNode) : bool :=
  existsb (fun e => node_eq e n) l.

(** Membership of a node in a Python [set], or as a key of a [dict]: the
    hashes are compared first, then [==]. *)
Definition same_key (e n : HungryMonkeyNode) : bool :=
  bool_decide (node_hash e = node_hash n) && node_eq e n.

Definition in_set (n : HungryMonkeyNode) (s : list HungryMonkeyNode) : bool :=
  existsb (fun e => same_key e n) s.

(** [s.add(n)] on a set kept as the list of its members. *)
Definition set_add (n : HungryMonkeyNode) (s : list HungryMonkeyNode)
  : list HungryMonkeyNode :=
  if in_set n s then s else s ++ [n].

(** ** The problem *)

Record HungryMonkeyProblem := mkProblem {
  map_size : Coordinate;
  initial_location : Coordinate;
  block_locations : list (Z * Z);
  banana_locations : gset Coordinate;
  step_cost : Z;
  banana_reward : Z;
  possible_actions : list Action;
  heuristic_func : HungryMonkeyNode -> Z
}.

Inductive exn :=
| AttributeError
| KeyError
| UnboundLocalError.

Section Problem.

Variable problem : HungryMonkeyProblem.

Definition is_inside_grid_map (location : Coordinate) : bool :=
  ((0 <=? x location) && (x location <? x (map_size problem)))
  && ((0 <=? y location) && (y location <? y (map_size problem))).

Definition move (loc : Coordinate) (action : Action) : Coordinate :=
  (x loc + fst (value action), y loc + snd (value action)).

Definition available_actions_for (s : HungryMonkeyState) : list Action :=
  filter (fun action =>
            is_inside_grid_map (move (current_location s) action) = true
            ∧ move (current_location s) action ∉ block_locations problem)
         (possible_actions problem).

(** What [successor] returns: a [HungryMonkeyState], or, for an action that
    is not available, a plain tuple of the same two components (which has no
    attribute [current_location]). *)
Inductive successor_value :=
| NamedTuple (s : HungryMonkeyState)
| PlainTuple (loc : Coordinate) (bananas : Collection).

Definition successor (s : HungryMonkeyState) (action : Action) : successor_value :=
  if bool_decide (action ∈ available_actions_for s) then
    let new_location := move (current_location s) action in
    let new_remaining_bananas :=
      filter (fun banana =>
                ¬ (x banana = x new_location ∧ y banana = y new_location))
             (iterate (remaining_bananas s)) in
    NamedTuple (mkState new_location (PyList new_remaining_bananas))
  else PlainTuple (current_location s) (remaining_bananas s).

(** The two components of a successor, read by position. *)
Definition components (v : successor_value) : HungryMonkeyState :=
  match v with
  | NamedTuple s => s
  | PlainTuple loc bananas => mkState loc bananas
  end.

Definition is_goal_state (s : HungryMonkeyState) : bool :=
  is_empty (remaining_bananas s).

(** The inner function [path_cost] of [child_node]. *)
Definition edge_cost (s : HungryMonkeyState) (action : Action)
    (next_state : HungryMonkeyState) : Z :=
  if negb (contains (remaining_bananas s) (current_location next_state))
  then step_cost problem
  else step_cost problem + banana_reward problem.

(** [child_node] reads [next_state.current_location]: on a plain tuple
    this raises. *)
Definition child_node (node : HungryMonkeyNode) (action : Action)
  : exn + HungryMonkeyNode :=
  match successor (state node) action with
  | PlainTuple _ _ => inl AttributeError
  | NamedTuple next_state =>
      inr (new_node (current_location next_state) (remaining_bananas next_state)
             (path_cost node + edge_cost (state node) action next_state)
             (Some action) (Some node)
             (heuristic_func problem
                (plain_node (current_location next_state)
                            (remaining_bananas next_state))))
  end.

(** The loop of [unwrap_solution]: the actions from [node] up to the root.
    A node with an action and no parent makes the loop read
    [None.previous_action]. *)
Fixpoint collect_actions (node : HungryMonkeyNode) : exn + list Action :=
  match node with
  | mkNode _ _ None _ _ => inr []
  | mkNode _ _ (Some a) None _ => inl AttributeError
  | mkNode _ _ (Some a) (Some p) _ =>
      match collect_actions p with
      | inr l => inr (a :: l)
      | inl e => inl e
      end
  end.

(** [unwrap_solution(node)]; [None] stands for the Python value [None]. *)
Definition unwrap_solution (node : option HungryMonkeyNode) : exn + list Action :=
  match node with
  | None => inl AttributeError
  | Some n =>
      match collect_actions n with
      | inr l => inr (rev l)
      | inl e => inl e
      end
  end.

(** [HungryMonkeyNode(problem.initial_location, problem.banana_locations)] *)
Definition initial_node : HungryMonkeyNode :=
  plain_node (initial_location problem) (PySet (banana_locations problem)).

End Problem.

(** ** [queue.PriorityQueue]

    The frontier of both cost-ordered searches is a [PriorityQueue] of
    nodes, which keeps a Python list ordered as a binary heap with [heapq],
    comparing entries with [__lt__]. *)

Module PriorityQueue.

(** [heapq._siftdown]: the loop runs at most [pos] times. *)
Fixpoint siftdown_loop (fuel : nat) (heap : list HungryMonkeyNode)
    (startpos pos : nat) (newitem : HungryMonkeyNode) : list HungryMonkeyNode :=
  match fuel with
  | O => <[pos := newitem]> heap
  | S fuel' =>
      if bool_decide (startpos < pos)%nat then
        let parentpos := ((pos - 1) / 2)%nat in
        match heap !! parentpos with
        | Some par =>
            if node_lt newitem par
            then siftdown_loop fuel' (<[pos := par]> heap) startpos parentpos newitem
            else <[pos := newitem]> heap
        | None => <[pos := newitem]> heap
        end
      else <[pos := newitem]> heap
  end.

Definition siftdown (heap : list HungryMonkeyNode) (startpos pos : nat)
  : list HungryMonkeyNode :=
  match heap !! pos with
  | Some newitem => siftdown_loop pos heap startpos pos newitem
  | None => heap
  end.

(** [heapq._siftup]: the smaller child is moved up until a leaf is
    reached; the loop runs fewer times than the heap has entries. *)
Fixpoint siftup_loop (fuel : nat) (heap : list HungryMonkeyNode) (pos : nat)
  : list HungryMonkeyNode * nat :=
  match fuel with
  | O => (heap, pos)
  | S fuel' =>
      let endpos := length heap in
      let childpos := (2 * pos + 1)%nat in
      if bool_decide (childpos < endpos)%nat then
        let rightpos := (childpos + 1)%nat in
        let childpos :=
          match heap !! childpos, heap !! rightpos with
          | Some l, Some r => if negb (node_lt l r) then rightpos else childpos
          | _, _ => childpos
          end in
        match heap !! childpos with
        | Some c => siftup_loop fuel' (<[pos := c]> heap) childpos
        | None => (heap, pos)
        end
      else (heap, pos)
  end.

Definition siftup (heap : list HungryMonkeyNode) (pos : nat)
  : list HungryMonkeyNode :=
  match heap !! pos with
  | Some newitem =>
      let '(heap', pos') := siftup_loop (length heap) heap pos in
      siftdown (<[pos' := newitem]> heap') pos pos'
  | None => heap
  end.

(** [put]: [heapq.heappush]. *)
Definition put (heap : list HungryMonkeyNode) (item : HungryMonkeyNode)
  : list HungryMonkeyNode :=
  siftdown (heap ++ [item]) 0 (length heap).

(** [get]: [heapq.heappop].  On an empty queue [get] waits for an entry
    for ever; this is [None]. *)
Definition get (heap : list HungryMonkeyNode)
  : option (HungryMonkeyNode * list HungryMonkeyNode) :=
  match last heap with
  | None => None
  | Some lastelt =>
      match removelast heap with
      | [] => Some (lastelt, [])
      | returnitem :: rest =>
          Some (returnitem, siftup (lastelt :: rest) 0)
      end
  end.

(** [empty] *)
Definition empty (heap : list HungryMonkeyNode) : bool :=
  match heap with [] => true | _ => false end.

End PriorityQueue.

(** ** Dictionaries keyed by nodes

    [reached] maps nodes to numbers.  Keys are found by hash and [==]; an
    assignment to a key that is present keeps the stored key object. *)

Definition dict := list (HungryMonkeyNode * Z).

(** [list(d)] *)
Definition keys (d : dict) : list HungryMonkeyNode := map fst d.

(** [d[k]] *)
Definition dict_get (d : dict) (k : HungryMonkeyNode) : exn + Z :=
  match find (fun kv => same_key (fst kv) k) d with
  | Some kv => inr (snd kv)
  | None => inl KeyError
  end.

(** [d[k] = v] *)
Fixpoint dict_set (d : dict) (k : HungryMonkeyNode) (v : Z) : dict :=
  match d with
  | [] => [(k, v)]
  | (k', v') :: d' =>
      if same_key k' k then (k', v) :: d' else (k', v') :: dict_set d' k v
  end.

(** ** Outcomes of a search call *)

Inductive outcome (A : Type) :=
| Returned (a : A)
| Raised (e : exn)
| OutOfFuel.
Arguments Returned {A} a.
Arguments Raised {A} e.
Arguments OutOfFuel {A}.

(** The local variables of the search loops. *)
Record search_state := mkSearch {
  frontier : list HungryMonkeyNode;
  reached : dict;
  solution : number;
  solution_node : option HungryMonkeyNode;
  counter : nat
}.

Section Search.

Variable problem : HungryMonkeyProblem.

(** [[problem.child_node(parent, action) for action in actions]] *)
Fixpoint child_nodes (node : HungryMonkeyNode) (actions : list Action)
  : exn + list HungryMonkeyNode :=
  match actions with
  | [] => inr []
  | a :: rest =>
      match child_node problem node a with
      | inl e => inl e
      | inr c =>
          match child_nodes node rest with
          | inl e => inl e
          | inr cs => inr (c :: cs)
          end
      end
  end.

(** [HungryMonkeyResult(problem.unwrap_solution(solution_node), solution)] *)
Definition unwrap_result (st : search_state)
  : outcome HungryMonkeyResult * nat :=
  match unwrap_solution (solution_node st) with
  | inr actions => (Returned (mkResult actions (solution st)), counter st)
  | inl e => (Raised e, counter st)
  end.

(** [child not in list(reached) or cost < reached[child]] *)
Definition improves (d : dict) (child : HungryMonkeyNode) (cost : Z) : exn + bool :=
  if negb (in_list child (keys d)) then inr true
  else match dict_get d child with
       | inr v => inr (cost <? v)
       | inl e => inl e
       end.

(** [for child in children: visit] *)
Fixpoint for_each (visit : search_state -> HungryMonkeyNode -> exn + search_state)
    (st : search_state) (children : list HungryMonkeyNode) : exn + search_state :=
  match children with
  | [] => inr st
  | child :: rest =>
      match visit st child with
      | inl e => inl e
      | inr st' => for_each visit st' rest
      end
  end.

End Search.

(** ** Uniform-cost search *)

Module UCPlayer.
Section UCS.

Variable problem : HungryMonkeyProblem.

(** One turn of [for child in succesors]. *)
Definition visit (st : search_state) (child : HungryMonkeyNode)
  : exn + search_state :=
  let counter' := S (counter st) in
  match improves (reached st) child (path_cost child) with
  | inl e => inl e
  | inr false =>
      inr (mkSearch (frontier st) (reached st) (solution st) (solution_node st) counter')
  | inr true =>
      let reached' := dict_set (reached st) child (path_cost child) in
      let frontier' := PriorityQueue.put (frontier st) child in
      if is_goal_state (state child) && lt_number (path_cost child) (solution st)
      then inr (mkSearch frontier' reached' (Int (path_cost child)) (Some child) counter')
      else inr (mkSearch frontier' reached' (solution st) (solution_node st) counter')
  end.

(** One turn of the [while] loop: its test, which takes the best node off
    a frontier that is not empty, and its body.  [inl] is the value the
    function returns when the loop ends, [inr] the variables after the
    turn. *)
Definition turn (st : search_state)
  : outcome HungryMonkeyResult * nat + search_state :=
  if PriorityQueue.empty (frontier st) then inl (unwrap_result st)
  else
    match PriorityQueue.get (frontier st) with
    | None => inl (OutOfFuel, counter st)
    | Some (par, frontier') =>
        let st := mkSearch frontier' (reached st) (solution st)
                           (solution_node st) (counter st) in
        if lt_number (path_cost par) (solution st) then
          match child_nodes problem par
                  (available_actions_for problem (state par)) with
          | inl e => inl (Raised e, counter st)
          | inr succesors =>
              match for_each visit st succesors with
              | inl e => inl (Raised e, counter st)
              | inr st' => inr st'
              end
          end
        else inl (unwrap_result st)
    end.

(** The [while] loop; one unit of fuel per turn. *)
Fixpoint loop (fuel : nat) (st : search_state)
  : outcome HungryMonkeyResult * nat :=
  match fuel with
  | O => (OutOfFuel, counter st)
  | S fuel' =>
      match turn st with
      | inl r => r
      | inr st' => loop fuel' st'
      end
  end.

(** [uniform_cost_search(problem)], started with [self.counter = counter0];
    the second component is [self.counter] afterwards. *)
Definition uniform_cost_search (fuel : nat) (counter0 : nat)
  : outcome HungryMonkeyResult * nat :=
  let initial_node := initial_node problem in
  let counter1 := S counter0 in
  if is_goal_state (state initial_node)
  then (Returned (mkResult [] (Int 0)), counter1)
  else
    loop fuel
      (mkSearch (PriorityQueue.put [] initial_node) [] Inf None counter1).

End UCS.
End UCPlayer.

(** ** Heuristic best-first search *)

Module AStarPlayer.
Section AStar.

Variable problem : HungryMonkeyProblem.

Definition visit (st : search_state) (child : HungryMonkeyNode)
  : exn + search_state :=
  let child_total_cost := path_cost child + heuristic_cost child in
  match improves (reached st) child child_total_cost with
  | inl e => inl e
  | inr false => inr st
  | inr true =>
      let reached' := dict_set (reached st) child child_total_cost in
      let frontier' := PriorityQueue.put (frontier st) child in
      if is_goal_state (state child) && lt_number child_total_cost (solution st)
      then inr (mkSearch frontier' reached' (Int child_total_cost) (Some child) (counter st))
      else inr (mkSearch frontier' reached' (solution st) (solution_node st) (counter st))
  end.

Definition turn (st : search_state)
  : outcome HungryMonkeyResult * nat + search_state :=
  if PriorityQueue.empty (frontier st) then inl (unwrap_result st)
  else
    match PriorityQueue.get (frontier st) with
    | None => inl (OutOfFuel, counter st)
    | Some (par, frontier') =>
        let st := mkSearch frontier' (reached st) (solution st)
                           (solution_node st) (counter st) in
        if lt_number (path_cost par + heuristic_cost par) (solution st) then
          match child_nodes problem par
                  (available_actions_for problem (state par)) with
          | inl e => inl (Raised e, counter st)
          | inr successors =>
              let st := mkSearch (frontier st) (reached st) (solution st)
                                 (solution_node st) (S (counter st)) in
              match for_each visit st successors with
              | inl e => inl (Raised e, counter st)
              | inr st' => inr st'
              end
          end
        else inl (unwrap_result st)
    end.

Fixpoint loop (fuel : nat) (st : search_state)
  : outcome HungryMonkeyResult * nat :=
  match fuel with
  | O => (OutOfFuel, counter st)
  | S fuel' =>
      match turn st with
      | inl r => r
      | inr st' => loop fuel' st'
      end
  end.

Definition astar_search (fuel : nat) (counter0 : nat)
  : outcome HungryMonkeyResult * nat :=
  let initial_node := initial_node problem in
  if is_goal_state (state initial_node)
  then (Returned (mkResult [] (Int 0)), S counter0)
  else
    loop fuel
      (mkSearch (PriorityQueue.put [] initial_node) [] Inf None counter0).

(** The heuristic defined in [start_episode]: the least Manhattan distance
    to a remaining banana, 0 when none remains. *)
Definition manhattan_distance_between (start destination : Coordinate) : Z :=
  Z.abs (x destination - x start) + Z.abs (y destination - y start).

Definition heuristic_func (node : HungryMonkeyNode) : Z :=
  match map (manhattan_distance_between (current_location (state node)))
            (iterate (remaining_bananas (state node))) with
  | [] => 0
  | d :: ds => fold_left Z.min ds d
  end.

End AStar.
End AStarPlayer.

(** ** Iterative-deepening search *)

Module IDPlayer.

(** What the search prints. *)
Inductive line :=
| LimitDepth (depth : nat)
| NodesExplored (n : nat).

(** The attributes the search updates, and what it has printed.  [calls]
    is a ghost field: the arguments [node] and [explored_nodes] of every
    call of [recursive_dls] so far, latest first; the two counters count
    these calls. *)
Record player := mkPlayer {
  counter : nat;
  total_counter : nat;
  stdout : list line;
  calls : list (HungryMonkeyNode * list HungryMonkeyNode)
}.

(** The values a depth-limited search evaluates to: a result, the cutoff
    flag [[-1]], the flag [[-2]] of no admissible solution, or an
    exception. *)
Inductive dls_value :=
| Found (r : HungryMonkeyResult)
| Cutoff
| NoSolution
| Error (e : exn).

Section IDS.

Variable problem : HungryMonkeyProblem.

(** [for child in clean_childs], with the recursive call as a parameter. *)
Fixpoint for_children
    (rec : HungryMonkeyNode -> list HungryMonkeyNode -> player -> dls_value * player)
    (new_explored_nodes : list HungryMonkeyNode)
    (clean_childs : list HungryMonkeyNode) (cutoff_occured : bool) (self : player)
  : dls_value * player :=
  match clean_childs with
  | [] => (if cutoff_occured then Cutoff else NoSolution, self)
  | child :: rest =>
      let '(result, self') := rec child new_explored_nodes self in
      match result with
      | Cutoff => for_children rec new_explored_nodes rest true self'
      | NoSolution => for_children rec new_explored_nodes rest cutoff_occured self'
      | _ => (result, self')
      end
  end.

Fixpoint recursive_dls (limit : nat) (node : HungryMonkeyNode)
    (explored_nodes : list HungryMonkeyNode) (self : player)
  : dls_value * player :=
  let self := mkPlayer (S (counter self)) (S (total_counter self)) (stdout self)
                       ((node, explored_nodes) :: calls self) in
  if is_goal_state (state node) then
    match unwrap_solution (Some node) with
    | inr actions => (Found (mkResult actions (Int (path_cost node))), self)
    | inl e => (Error e, self)
    end
  else
    match limit with
    | O => (Cutoff, self)
    | S limit' =>
        match child_nodes problem node
                (available_actions_for problem (state node)) with
        | inl e => (Error e, self)
        | inr childs =>
            let clean_childs :=
              filter (fun child => in_set child explored_nodes = false) childs in
            let new_explored_nodes := set_add node explored_nodes in
            for_children (recursive_dls limit') new_explored_nodes
                         clean_childs false self
        end
    end.

Definition depth_limited_search (depth : nat) (self : player)
  : dls_value * player :=
  let self := mkPlayer (counter self) (total_counter self)
                       (stdout self ++ [LimitDepth depth]) (calls self) in
  recursive_dls depth (initial_node problem)
                (set_add (initial_node problem) []) self.

(** The number of iterations of [for depth in range(...)]. *)
Definition depth_bound : nat :=
  Z.to_nat (x (map_size problem) * y (map_size problem)
            - Z.of_nat (length (block_locations problem))).

(** The [for] loop over the remaining depths; [result] is the variable of
    that name, unbound before the first turn. *)
Fixpoint for_depths (depths : list nat) (result : option dls_value)
    (self : player) : dls_value * player :=
  match depths with
  | [] =>
      match result with
      | Some r => (r, self)
      | None => (Error UnboundLocalError, self)
      end
  | depth :: rest =>
      let '(result, self) := depth_limited_search depth self in
      match result with
      | Error e => (Error e, self)
      | _ =>
          let self := mkPlayer 0 (total_counter self)
                               (stdout self ++ [NodesExplored (counter self)])
                               (calls self) in
          match result with
          | Cutoff => for_depths rest (Some result) self
          | _ => (result, self)
          end
      end
  end.

Definition iterative_deepening_search (self : player) : dls_value * player :=
  for_depths (seq 0 depth_bound) None self.

End IDS.
End IDPlayer.

(** ** Building a problem from a world

    [EaterWorld] belongs to the [wumpus] package; [__init__] reads its
    [size], its [objects] (of which the [Eater] and the [Food] matter) and
    its [blocks]. *)

Inductive WorldObject :=
| Eater (location : Coordinate)
| Food (location : Coordinate)
| OtherObject.

Record EaterWorld := mkWorld {
  world_size : Coordinate;
  world_objects : list WorldObject;
  world_blocks : list Coordinate
}.

(** The order of Python tuples. *)
Definition tuple_le (a b : Z * Z) : Prop :=
  fst a < fst b ∨ (fst a = fst b ∧ snd a <= snd b).

Global Instance tuple_le_dec : RelDecision tuple_le.
Proof. intros a b. unfold tuple_le. apply _. Defined.

Definition sorted (l : list (Z * Z)) : list (Z * Z) := merge_sort tuple_le l.

(** The loop over [world.objects]. *)
Definition scan_objects (objects : list WorldObject)
  : option Coordinate * list Coordinate :=
  fold_left
    (fun acc o =>
       match o with
       | Eater l => (Some (x l, y l), snd acc)
       | Food l => (fst acc, snd acc ++ [(x l, y l)])
       | OtherObject => acc
       end)
    objects (None, []).

(** The defaults of [HungryMonkeyProblem.__init__]. *)
Definition default_step_cost : Z := -1.
Definition default_banana_reward : Z := 10.
Definition default_heuristic_func : HungryMonkeyNode -> Z := fun _ => 0.

(** [HungryMonkeyProblem(world, possible_actions, step_cost, banana_reward,
    heuristic_func)].  In a world without an [Eater] the initial location
    is [None], which no search survives; such a world gives [None] here. *)
Definition HungryMonkeyProblem_init (world : EaterWorld)
    (possible_actions : list Action) (step_cost banana_reward : Z)
    (heuristic_func : HungryMonkeyNode -> Z) : option HungryMonkeyProblem :=
  match scan_objects (world_objects world) with
  | (None, _) => None
  | (Some eater_location, food_locations) =>
      Some (mkProblem (world_size world) eater_location
              (sorted (map (fun bl => (x bl, y bl)) (world_blocks world)))
              (list_to_set food_locations)
              step_cost banana_reward possible_actions heuristic_func)
  end.

(** The problems the three players build in [start_episode]; [actions]
    stands for [Eater.Actions]. *)
Definition UCPlayer_problem (world : EaterWorld) (actions : list Action) :=
  HungryMonkeyProblem_init world actions 1 (-10) default_heuristic_func.

Definition AStarPlayer_problem (world : EaterWorld) (actions : list Action) :=
  HungryMonkeyProblem_init world actions 1 (-10) AStarPlayer.heuristic_func.

Definition IDPlayer_problem (world : EaterWorld) (actions : list Action) :=
  HungryMonkeyProblem_init world actions
    default_step_cost default_banana_reward default_heuristic_func.

(** ** Notions used by the statements *)

Section Notions.

Variable problem : HungryMonkeyProblem.

(** The state of the root node. *)
Definition initial_state : HungryMonkeyState := state (initial_node problem).

(** Applying [successor] along a sequence of actions. *)
Fixpoint replay (s : HungryMonkeyState) (actions : list Action)
  : HungryMonkeyState :=
  match actions with
  | [] => s
  | a :: rest => replay (components (successor problem s a)) rest
  end.

(** The states that sequences of transitions lead to. *)
Inductive reachable : HungryMonkeyState -> Prop :=
| reachable_initial : reachable initial_state
| reachable_successor s a :
    reachable s -> reachable (components (successor problem s a)).

(** The nodes a search can build: the root, and the children
    [child_node] makes of them for available actions. *)
Inductive generated : HungryMonkeyNode -> Prop :=
| generated_root : generated (initial_node problem)
| generated_child node action child :
    generated node ->
    action ∈ available_actions_for problem (state node) ->
    child_node problem node action = inr child ->
    generated child.

(** The cells of the grid, and those without an obstacle. *)
Definition cells : list (Z * Z) :=
  list_prod (seqZ 0 (x (map_size problem))) (seqZ 0 (y (map_size problem))).

Definition free_cells : gset Coordinate :=
  list_to_set cells ∖ list_to_set (block_locations problem).

(** What the specification asks of the grid a problem is built from: the
    obstacles are distinct cells of the grid, and the agent starts on a cell
    of the grid that is not an obstacle. *)
Definition well_formed : Prop :=
  NoDup (block_locations problem)
  ∧ Forall (fun b => is_inside_grid_map problem b = true) (block_locations problem)
  ∧ is_inside_grid_map problem (initial_location problem) = true
  ∧ initial_location problem ∉ block_locations problem.

(** What the cost-ordered searches keep true of their variables: the
    frontier holds generated nodes, and the incumbent, when there is one, is
    a generated node in a goal state. *)
Definition search_inv (st : search_state) : Prop :=
  Forall generated (frontier st)
  ∧ ∀ n, solution_node st = Some n →
         generated n ∧ is_goal_state (state n) = true.

(** Where a result of depth-limited search comes from: a generated node
    in a goal state, whose way from the root and whose path cost it
    reports. *)
Definition found_from (v : IDPlayer.dls_value) : Prop :=
  match v with
  | IDPlayer.Found r =>
      ∃ n, generated n ∧ is_goal_state (state n) = true
           ∧ unwrap_solution (Some n) = inr (sequence_actions r)
           ∧ total_reward r = Int (path_cost n)
  | _ => True
  end.

End Notions.

(** The depth limits announced on the output, in order. *)
Definition depths_tried (out : list IDPlayer.line) : list nat :=
  omap (fun l => match l with
                 | IDPlayer.LimitDepth d => Some d
                 | IDPlayer.NodesExplored _ => None
                 end) out.

(** Two nodes stand for the same state: the same location and the same
    set of remaining bananas. *)
Definition same_state (n1 n2 : HungryMonkeyNode) : Prop :=
  current_location (state n1) = current_location (state n2)
  ∧ frozenset (remaining_bananas (state n1))
    = frozenset (remaining_bananas (state n2)).

Global Instance same_state_dec n1 n2 : Decision (same_state n1 n2).
Proof. unfold same_state. apply _. Defined.

(** A search hands [r] back to its caller. *)
Definition returns (p : HungryMonkeyProblem) (r : HungryMonkeyResult) : Prop :=
  (∃ fuel c0 c, UCPlayer.uniform_cost_search p fuel c0 = (Returned r, c))
  ∨ (∃ fuel c0 c, AStarPlayer.astar_search p fuel c0 = (Returned r, c))
  ∨ (∃ self self',
        IDPlayer.iterative_deepening_search p self = (IDPlayer.Found r, self')).


(** A call of [recursive_dls] made by [recursive_dls]: on a child that
    [in] did not find in the caller's [explored_nodes], with the caller
    added to them. *)
Definition filtered_call (call : HungryMonkeyNode * list HungryMonkeyNode) : Prop :=
  ∃ caller explored_nodes,
    snd call = set_add caller explored_nodes
    ∧ in_set (fst call) explored_nodes = false.

(** ** Example problems *)

Definition North : Action := mkAction "N" (0, 1).
Definition South : Action := mkAction "S" (0, -1).
Definition East : Action := mkAction "E" (1, 0).
Definition West : Action := mkAction "W" (-1, 0).

(** A corridor of four cells, the agent at [start], one banana at [goal]. *)
Definition corridor (start goal : Z) (blocks : list (Z * Z))
    (actions : list Action) (step reward : Z)
    (h : HungryMonkeyNode -> Z) : HungryMonkeyProblem :=
  mkProblem (4, 1) (start, 0) blocks {[ (goal, 0) ]} step reward actions h.

(** The agent between a wall and a banana: one step east of the start lies
    the border, the banana lies two steps west. *)
Definition detour : HungryMonkeyProblem :=
  corridor 2 0 [] [North; South; East; West]
           default_step_cost default_banana_reward default_heuristic_func.

(** The root of [detour], its child to the east, and that child's child
    back to the west, which is the root's cell again. *)
Definition detour_east : HungryMonkeyNode :=
  new_node (3, 0) (PyList [(0, 0)]) (-1) (Some East)
           (Some (initial_node detour)) 0.

Definition detour_back : HungryMonkeyNode :=
  new_node (2, 0) (PyList [(0, 0)]) (-2) (Some West) (Some detour_east) 0.

(** A single free cell where the agent stands, and no banana. *)
Definition no_bananas : HungryMonkeyProblem :=
  mkProblem (1, 1) (0, 0) [] ∅ 1 (-10) [North; South; East; West]
            default_heuristic_func.

(** The corridor with the agent at its west end and the banana at its east
    end, as [UCPlayer] sets the costs. *)
Definition east_run : HungryMonkeyProblem :=
  corridor 0 3 [] [East; West] 1 (-10) default_heuristic_func.

(** The scenario as the specification gives it: step cost -1, reward 10. *)
Definition rewarded_run : HungryMonkeyProblem :=
  corridor 0 3 [] [East; West] (-1) 10 default_heuristic_func.

(** The world of a corridor. *)
Definition corridor_world (start goal : Z) (blocks : list (Z * Z)) : EaterWorld :=
  mkWorld (4, 1) [Eater (start, 0); Food (goal, 0)] blocks.


(** The agent at x = 0, the banana at x = 3, an obstacle at x = 2. *)
Definition blocked (h : HungryMonkeyNode → Z) : HungryMonkeyProblem :=
  corridor 0 3 [(2, 0)] [North; South; East; West] 1 (-10) h.

(** The corridor of the specification as [IDPlayer] sets its costs. *)
Definition default_run : HungryMonkeyProblem :=
  corridor 0 3 [] [East; West]
           default_step_cost default_banana_reward default_heuristic_func.


(** ** The order of the frontier *)

(** [a] does not come after [b]: [b < a] is false. *)
Definition node_le (a b : HungryMonkeyNode) : Prop := node_lt b a = false.

(** The index of the parent of entry [i] of a heap. *)
Definition heap_parent (i : nat) : nat := ((i - 1) / 2)%nat.

(** The heap order: no entry comes before its parent. *)
Definition heap_ok (heap : list HungryMonkeyNode) : Prop :=
  ∀ i e par, (0 < i)%nat →
    heap !! i = Some e → heap !! heap_parent i = Some par → node_le par e.

(** The heap order around a hole: it holds between all entries other than
    the one at [hole], and the children of the hole do not come before the
    parent of the hole. *)
Definition hole_ok (heap : list HungryMonkeyNode) (hole : nat) : Prop :=
  (∀ i e par, (0 < i)%nat → i ≠ hole → heap_parent i ≠ hole →
     heap !! i = Some e → heap !! heap_parent i = Some par → node_le par e)
  ∧ (∀ c e par, (0 < hole)%nat → (0 < c)%nat → heap_parent c = hole →
       heap !! c = Some e → heap !! heap_parent hole = Some par →
       node_le par e).

(** [item] does not come after the children of entry [pos]. *)
Definition below_children (heap : list HungryMonkeyNode) (pos : nat)
    (item : HungryMonkeyNode) : Prop :=
  ∀ c e, (0 < c)%nat → heap_parent c = pos → heap !! c = Some e →
         node_le item e.

(** ** The rewarded corridor, turn by turn

    What holds of the variables of uniform-cost search on [rewarded_run]
    while it runs. *)

(** A node of the corridor: no heuristic cost, a cell of the row, and no
    banana but the one at x = 3. *)
Definition in_row (n : HungryMonkeyNode) : Prop :=
  heuristic_cost n = 0
  ∧ (∃ k, 0 <= k < 4 ∧ current_location (state n) = (k, 0))
  ∧ frozenset (remaining_bananas (state n)) ⊆ {[ (3, 0) ]}.

(** A frontier entry when no entry has a path cost below [m]: goal states
    cost more than [m]. *)
Definition entry_ok (m : Z) (n : HungryMonkeyNode) : Prop :=
  in_row n ∧ m <= path_cost n
  ∧ (is_goal_state (state n) = true → m < path_cost n).

(** The variables at the head of the loop when the best entry costs [m]:
    the frontier is a heap, no recorded cost and no incumbent is as low as
    [m]. *)
Definition descending (m : Z) (st : search_state) : Prop :=
  heap_ok (frontier st)
  ∧ (∃ top, frontier st !! 0%nat = Some top ∧ path_cost top = m)
  ∧ Forall (entry_ok m) (frontier st)
  ∧ Forall (fun kv => m <= snd kv) (reached st)
  ∧ lt_number m (solution st) = true.

(** The variables while the children of a node of path cost [m] are
    visited. *)
Definition expanding (m : Z) (st : search_state) : Prop :=
  heap_ok (frontier st)
  ∧ Forall (entry_ok (m - 1)) (frontier st)
  ∧ Forall (fun kv => m - 1 <= snd kv) (reached st)
  ∧ lt_number (m - 1) (solution st) = true.

(** A child of path cost [m - 1] is on the frontier. *)
Definition pushed (m : Z) (st : search_state) : Prop :=
  ∃ e, e ∈ frontier st ∧ path_cost e = m - 1.

(** No cost below [m] has been recorded yet. *)
Definition fresh (m : Z) (st : search_state) : Prop :=
  Forall (fun kv => m <= snd kv) (reached st).

(** A child of a node of path cost [m] that is not in a goal state: a step
    that reaches no banana costs -1 and leaves the goal unreached, the step
    onto the banana pays 9. *)
Definition child_ok (m : Z) (c : HungryMonkeyNode) : Prop :=
  in_row c
  ∧ ((path_cost c = m - 1 ∧ is_goal_state (state c) = false)
     ∨ path_cost c = m + 9).

(** ** Paths *)

(** The nodes on the chain of [parent] links of a node, nearest first. *)
Fixpoint ancestors (n : HungryMonkeyNode) : list HungryMonkeyNode :=
  match n with
  | mkNode _ _ _ None _ => []
  | mkNode _ _ _ (Some p) _ => p :: ancestors p
  end.

(** A sequence of actions each of which is available in the state where
    it is applied. *)
Fixpoint executable (p : HungryMonkeyProblem) (s : HungryMonkeyState)
    (actions : list Action) : Prop :=
  match actions with
  | [] => True
  | a :: rest =>
      a ∈ available_actions_for p s
      ∧ executable p (components (successor p s a)) rest
  end.

(** A result that reports a generated node in a goal state: the way to it
    from the root, and as total its [key]. *)
Definition from_node (p : HungryMonkeyProblem) (key : HungryMonkeyNode → Z)
    (r : HungryMonkeyResult) : Prop :=
  ∃ n, generated p n ∧ is_goal_state (state n) = true
       ∧ unwrap_solution (Some n) = inr (sequence_actions r)
       ∧ total_reward r = Int (key n).

(** What the cost-ordered searches keep true of their variables, with the
    cost of the incumbent: [solution] is the [key] of [solution_node]. *)
Definition search_inv_key (p : HungryMonkeyProblem)
    (key : HungryMonkeyNode → Z) (st : search_state) : Prop :=
  Forall (generated p) (frontier st)
  ∧ ∀ n, solution_node st = Some n →
         generated p n ∧ is_goal_state (state n) = true
         ∧ solution st = Int (key n).

(** The keys of the two cost-ordered searches. *)
Definition ucs_key (n : HungryMonkeyNode) : Z := path_cost n.
Definition astar_key (n : HungryMonkeyNode) : Z :=
  path_cost n + heuristic_cost n.

(** The corridor of [east_run] as [AStarPlayer] sets it up. *)
Definition east_run_astar : HungryMonkeyProblem :=
  corridor 0 3 [] [East; West] 1 (-10) AStarPlayer.heuristic_func.

(** The variables of heuristic search and of uniform-cost search agree,
    but for the counters, and no node of the frontier has a heuristic
    cost. *)
Definition same_search (sa su : search_state) : Prop :=
  frontier sa = frontier su ∧ reached sa = reached su
  ∧ solution sa = solution su ∧ solution_node sa = solution_node su
  ∧ Forall (fun n => heuristic_cost n = 0) (frontier sa).

(** ** Plans *)

Global Instance Collection_eq_dec : EqDecision Collection.
Proof. solve_decision. Defined.

Global Instance HungryMonkeyState_eq_dec : EqDecision HungryMonkeyState.
Proof. solve_decision. Defined.

(** The states a sequence of actions passes through, after its first
    action, after its second, and so on. *)
Fixpoint trace (p : HungryMonkeyProblem) (s : HungryMonkeyState)
    (actions : list Action) : list HungryMonkeyState :=
  match actions with
  | [] => []
  | a :: rest =>
      components (successor p s a)
      :: trace p (components (successor p s a)) rest
  end.

(** A plan that solves the problem: it can be carried out from the initial
    state and ends in a goal state. *)
Definition solves (p : HungryMonkeyProblem) (actions : list Action) : Prop :=
  executable p (initial_state p) actions
  ∧ is_goal_state (replay p (initial_state p) actions) = true.

(** A call of [recursive_dls] whose [explored_nodes] is the branch that
    leads to its node: the root and the ancestors of the node and nothing
    else; the node equals no ancestor of its parent. *)
Definition branch_call (p : HungryMonkeyProblem)
    (call : HungryMonkeyNode * list HungryMonkeyNode) : Prop :=
  generated p (fst call)
  ∧ (∀ e, e ∈ snd call → e = initial_node p ∨ e ∈ ancestors (fst call))
  ∧ in_set (initial_node p) (snd call) = true
  ∧ (∀ a, a ∈ ancestors (fst call) → in_set a (snd call) = true)
  ∧ ∀ par, parent (fst call) = Some par →
           ∀ a, a ∈ ancestors par → node_eq a (fst call) = false.


(** ** The states the cost-ordered searches record

    What is needed to see that their loops end: the states [reached] can
    ever have a key for are finitely many, and with a step cost that is
    not negative the cost recorded for a state cannot sink below a floor. *)















(** The variables with which the loop of a search ends: [st'] is reached
    from [st] by turns of the loop, and the turn in [st'] ends it. *)
Inductive ends_in
    (turn : search_state → outcome HungryMonkeyResult * nat + search_state)
  : search_state → search_state → Prop :=
| ends_now st r : turn st = inl r → ends_in turn st st
| ends_later st st' st'' :
    turn st = inr st' → ends_in turn st' st'' → ends_in turn st st''.

(** CPython's limit on the depth of the interpreter stack, which [src/]
    leaves at its default. *)
Definition recursion_limit : nat := 1000.

(** The frames set aside for all calls but those of [recursive_dls]: the
    callers of [iterative_deepening_search], the search and
    [depth_limited_search] themselves, and what [recursive_dls] calls. *)
Definition frames_reserved : nat := 100.

(** [recursive_dls] is nested as deep as the depth limit, which stays
    below the bound of the loop; within this bound no call exceeds the
    recursion limit. *)
Definition within_recursion_limit (p : HungryMonkeyProblem) : Prop :=
  (IDPlayer.depth_bound p + frames_reserved ≤ recursion_limit)%nat.

(** * Properties *)

(** ** Containers and node equality *)

Lemma list_to_set_iterate c : list_to_set (iterate c) = frozenset c.
Proof. destruct c as [s|l]; simpl; [apply list_to_set_elements_L | done]. Qed.

Lemma elem_of_iterate c b : b ∈ iterate c ↔ b ∈ frozenset c.
Proof. rewrite <- list_to_set_iterate. by rewrite elem_of_list_to_set. Qed.

Lemma contains_spec c loc : contains c loc = true ↔ loc ∈ iterate c.
Proof.
  destruct c as [s|l]; simpl; rewrite bool_decide_eq_true; [|done].
  by rewrite elem_of_elements.
Qed.

Lemma is_empty_spec c : is_empty c = true ↔ frozenset c = ∅.
Proof.
  destruct c as [s|l]; simpl.
  - by rewrite bool_decide_eq_true.
  - destruct l as [|b l]; [done|]. split; [done|]. intros H.
    assert (b ∈ (∅ : gset Coordinate)) as Hb by (rewrite <- H; set_solver).
    set_solver.
Qed.

Lemma collection_eq_spec c1 c2 : collection_eq c1 c2 = true ↔ c1 = c2.
Proof.
  destruct c1, c2; simpl; try (split; [done | congruence]);
    rewrite bool_decide_eq_true; split; congruence.
Qed.

Lemma coordinate_eta (c : Coordinate) : (x c, y c) = c.
Proof. by destruct c. Qed.

Lemma node_eq_spec n1 n2 : node_eq n1 n2 = true ↔ state n1 = state n2.
Proof.
  unfold node_eq. rewrite !andb_true_iff, !Z.eqb_eq, collection_eq_spec.
  destruct (state n1) as [[x1 y1] c1], (state n2) as [[x2 y2] c2]; simpl.
  split; [intros [[-> ->] ->] | intros [= -> -> ->]]; done.
Qed.

Lemma node_eq_refl n : node_eq n n = true.
Proof. by apply node_eq_spec. Qed.

Lemma node_eq_sym n1 n2 : node_eq n1 n2 = node_eq n2 n1.
Proof.
  destruct (node_eq n1 n2) eqn:H12, (node_eq n2 n1) eqn:H21; try done.
  - apply node_eq_spec in H12. symmetry in H12. apply node_eq_spec in H12. congruence.
  - apply node_eq_spec in H21. symmetry in H21. apply node_eq_spec in H21. congruence.
Qed.

Lemma node_eq_trans n1 n2 n3 :
  node_eq n1 n2 = true → node_eq n2 n3 = true → node_eq n1 n3 = true.
Proof. rewrite !node_eq_spec. congruence. Qed.

Lemma node_eq_hash n1 n2 : node_eq n1 n2 = true → node_hash n1 = node_hash n2.
Proof. rewrite node_eq_spec. unfold node_hash. by intros ->. Qed.

(** Looking a node up by hash and [==] is looking it up by [==]. *)
Lemma same_key_node_eq e n : same_key e n = node_eq e n.
Proof.
  unfold same_key. destruct (node_eq e n) eqn:H; [|by rewrite andb_false_r].
  rewrite andb_true_r. apply bool_decide_eq_true. by apply node_eq_hash.
Qed.

Lemma in_set_in_list n s : in_set n s = in_list n s.
Proof.
  unfold in_set, in_list. induction s as [|e s IH]; simpl; [done|].
  by rewrite same_key_node_eq, IH.
Qed.

Lemma same_state_hash n1 n2 : same_state n1 n2 ↔ node_hash n1 = node_hash n2.
Proof.
  unfold same_state, node_hash.
  destruct (current_location (state n1)) as [x1 y1],
           (current_location (state n2)) as [x2 y2]; simpl.
  split; [intros [[= -> ->] ->] | intros [= -> -> ->]]; done.
Qed.

(** [child_node] stores a list, whatever the parent stores. *)
Lemma child_node_inv p node action child :
  child_node p node action = inr child →
  action ∈ available_actions_for p (state node)
  ∧ state child
    = mkState (move (current_location (state node)) action)
        (PyList (filter (fun banana => banana ≠ move (current_location (state node)) action)
                        (iterate (remaining_bananas (state node)))))
  ∧ previous_action child = Some action
  ∧ parent child = Some node
  ∧ path_cost child
    = path_cost node
      + (if contains (remaining_bananas (state node))
                     (move (current_location (state node)) action)
         then step_cost p + banana_reward p else step_cost p).
Proof.
  unfold child_node, successor. case_bool_decide as Ha; [|done].
  intros [= <-]. split; [done|]. unfold new_node. cbn [state previous_action parent path_cost current_location remaining_bananas].
  rewrite coordinate_eta.
  split; [|split; [done|split; [done|]]].
  - f_equal. f_equal. apply list_filter_iff. intros [bx by_]. unfold x, y. simpl.
    unfold move, x, y. split; intros H.
    + intros [= -> ->]. by apply H.
    + intros [-> ->]. by apply H.
  - unfold edge_cost. simpl. by destruct (contains _ _).
Qed.

Lemma detour_back_generated : generated detour detour_back.
Proof.
  apply (generated_child detour detour_east West); [|compute_done..].
  apply (generated_child detour (initial_node detour) East); [|compute_done..].
  apply generated_root.
Qed.

(** C6, on the code: [__eq__] is reflexive, symmetric and transitive
    ([node_eq_refl], [node_eq_sym], [node_eq_trans]), it reads the state
    only ([node_eq_spec]) and equal nodes have equal hashes
    ([node_eq_hash]); but the state it reads holds the container, not the
    set of bananas.  In [detour] the search builds [detour_back], a node
    with the location and the set of remaining bananas of the root and with
    the root's hash, and [__eq__] tells the two apart. *)
Theorem node_eq_misses_root_state :
  generated detour (initial_node detour)
  ∧ generated detour detour_back
  ∧ same_state (initial_node detour) detour_back
  ∧ node_hash (initial_node detour) = node_hash detour_back
  ∧ node_eq (initial_node detour) detour_back = false.
Proof.
  split; [apply generated_root|]. split; [apply detour_back_generated|].
  assert (same_state (initial_node detour) detour_back) as H.
  { split; [done|]. simpl. set_solver. }
  split; [done|]. split; [by apply same_state_hash|done].
Qed.

(** C10: a root node (which stores a set) and a node made by [child_node]
    (which stores a list) with the same location and the same bananas have
    the same hash and are not equal, in either order; so the child is not
    found in a set, in a list, or among the keys of a dictionary that holds
    the root. *)
Theorem root_and_child_same_hash_not_equal p q node action child v :
  child_node p node action = inr child →
  same_state (initial_node q) child →
  node_hash (initial_node q) = node_hash child
  ∧ node_eq (initial_node q) child = false
  ∧ node_eq child (initial_node q) = false
  ∧ in_set child [initial_node q] = false
  ∧ in_list child (keys [(initial_node q, v)]) = false.
Proof.
  intros Hc Hs. apply child_node_inv in Hc as (_ & Hst & _).
  assert (node_eq (initial_node q) child = false) as Hne.
  { apply not_true_is_false. rewrite node_eq_spec, Hst. done. }
  split; [by apply same_state_hash|]. split; [done|].
  split; [by rewrite node_eq_sym|].
  rewrite in_set_in_list. unfold in_list. simpl. by rewrite Hne.
Qed.

Lemma root_and_child_same_hash_not_equal_witness :
  node_hash (initial_node detour) = node_hash detour_back
  ∧ node_eq (initial_node detour) detour_back = false
  ∧ node_eq detour_back (initial_node detour) = false
  ∧ in_set detour_back [initial_node detour] = false
  ∧ in_list detour_back (keys [(initial_node detour, 0)]) = false.
Proof.
  apply (root_and_child_same_hash_not_equal detour detour detour_east West).
  - vm_compute. reflexivity.
  - split; [reflexivity|]. vm_compute. reflexivity.
Defined.

(** ** Remaining bananas only shrink *)

Lemma successor_remaining p s a :
  frozenset (remaining_bananas (components (successor p s a)))
  ⊆ frozenset (remaining_bananas s).
Proof.
  unfold successor. case_bool_decide; simpl; [|done].
  intros b. rewrite elem_of_list_to_set, list_elem_of_filter, elem_of_iterate.
  tauto.
Qed.

Lemma child_node_state p node a child :
  child_node p node a = inr child →
  successor p (state node) a = NamedTuple (state child).
Proof.
  unfold child_node. destruct (successor p (state node) a) as [s|]; [|done].
  intros [= <-]. unfold new_node. simpl. rewrite coordinate_eta. by destruct s.
Qed.

Lemma reachable_remaining p s :
  reachable p s → frozenset (remaining_bananas s) ⊆ banana_locations p.
Proof.
  induction 1 as [|s a _ IH]; [done|].
  etrans; [apply successor_remaining | done].
Qed.

(** C8: the remaining bananas of a state reachable from the initial state
    are among the problem's bananas, and a transition from it, by
    [successor] or inside [child_node], adds none. *)
Theorem remaining_bananas_only_shrink p s :
  reachable p s →
  frozenset (remaining_bananas s) ⊆ banana_locations p
  ∧ (∀ a, frozenset (remaining_bananas (components (successor p s a)))
          ⊆ frozenset (remaining_bananas s))
  ∧ (∀ node a child,
        state node = s → child_node p node a = inr child →
        frozenset (remaining_bananas (state child))
        ⊆ frozenset (remaining_bananas s)).
Proof.
  intros Hs. split; [by apply reachable_remaining|].
  split; [intros a; apply successor_remaining|].
  intros node a child <- Hc. apply child_node_state in Hc.
  pose proof (successor_remaining p (state node) a) as H.
  by rewrite Hc in H.
Qed.

Lemma remaining_bananas_only_shrink_witness :
  frozenset (remaining_bananas (state detour_east)) ⊆ banana_locations detour
  ∧ (∀ a, frozenset (remaining_bananas
                       (components (successor detour (state detour_east) a)))
          ⊆ frozenset (remaining_bananas (state detour_east)))
  ∧ (∀ node a child,
        state node = state detour_east →
        child_node detour node a = inr child →
        frozenset (remaining_bananas (state child))
        ⊆ frozenset (remaining_bananas (state detour_east))).
Proof.
  apply (remaining_bananas_only_shrink detour (state detour_east)).
  replace (state detour_east)
    with (components (successor detour (initial_state detour) East))
    by (vm_compute; reflexivity).
  apply reachable_successor, reachable_initial.
Defined.

(** ** The grid *)

Lemma elem_of_cells p c : c ∈ cells p ↔ is_inside_grid_map p c = true.
Proof.
  unfold cells, is_inside_grid_map. destruct c as [cx cy].
  rewrite list_elem_of_In, in_prod_iff, <- !list_elem_of_In, !elem_of_seqZ.
  unfold x, y. simpl.
  rewrite !andb_true_iff, !Z.leb_le, !Z.ltb_lt. lia.
Qed.

Lemma length_cells p :
  length (cells p) = (Z.to_nat (x (map_size p)) * Z.to_nat (y (map_size p)))%nat.
Proof. unfold cells. by rewrite length_prod, !length_seqZ. Qed.

Lemma NoDup_list_prod {A B} (l : list A) (k : list B) :
  NoDup l → NoDup k → NoDup (list_prod l k).
Proof.
  intros Hl Hk. induction Hl as [|a l Ha Hl IH]; simpl; [constructor|].
  apply NoDup_app. split; [|split; [|done]].
  - by apply (NoDup_fmap_2 (pair a)).
  - intros [a' b] Hin Hin'. apply list_elem_of_fmap in Hin as (b' & [= -> ->] & _).
    apply list_elem_of_In, in_prod_iff in Hin' as [Hin' _].
    by apply list_elem_of_In in Hin'.
Qed.

Lemma NoDup_cells p : NoDup (cells p).
Proof. apply NoDup_list_prod; apply NoDup_seqZ. Qed.

(** A well-formed grid has a free cell, so iterative deepening runs at
    least once. *)
Lemma well_formed_depth_bound p : well_formed p → (0 < IDPlayer.depth_bound p)%nat.
Proof.
  intros (Hnd & Hin & Hstart & Hfree).
  assert (initial_location p :: block_locations p ⊆+ cells p) as Hsub.
  { apply NoDup_submseteq; [by constructor|].
    intros c [->|Hc]%elem_of_cons; apply elem_of_cells; [done|].
    by eapply Forall_forall in Hin. }
  apply submseteq_length in Hsub. rewrite length_cells in Hsub. simpl in Hsub.
  unfold IDPlayer.depth_bound.
  unfold is_inside_grid_map in Hstart.
  rewrite !andb_true_iff, !Z.leb_le, !Z.ltb_lt in Hstart.
  nia.
Qed.

Lemma size_list_to_set_le (l : list (Z * Z)) :
  (size (list_to_set l : gset (Z * Z)) ≤ length l)%nat.
Proof.
  induction l as [|a l IH]; [by rewrite list_to_set_nil, size_empty|].
  rewrite list_to_set_cons, size_union_alt, size_singleton. simpl length.
  assert (size (list_to_set l ∖ {[a]} : gset (Z * Z))
          ≤ size (list_to_set l : gset (Z * Z)))%nat as Hle
    by (apply subseteq_size; intros c; rewrite elem_of_difference; tauto).
  lia.
Qed.

(** The bound of the [for] loop never exceeds the number of cells without
    an obstacle. *)
Lemma depth_bound_free_cells p :
  0 <= x (map_size p) → 0 <= y (map_size p) →
  (IDPlayer.depth_bound p ≤ size (free_cells p))%nat.
Proof.
  intros Hx Hy. unfold IDPlayer.depth_bound, free_cells.
  rewrite size_difference_alt, size_list_to_set by apply NoDup_cells.
  rewrite length_cells.
  pose proof (size_list_to_set_le (block_locations p)) as Hb.
  assert (size (list_to_set (cells p) ∩ list_to_set (block_locations p) : gset (Z * Z))
          ≤ size (list_to_set (block_locations p) : gset (Z * Z)))%nat as Hi
    by (apply subseteq_size; intros c; rewrite elem_of_intersection; tauto).
  nia.
Qed.

(** ** A goal at the start *)

Lemma recursive_dls_goal p limit node explored self actions :
  is_goal_state (state node) = true →
  collect_actions node = inr actions →
  IDPlayer.recursive_dls p limit node explored self
  = (IDPlayer.Found (mkResult (rev actions) (Int (path_cost node))),
     IDPlayer.mkPlayer (S (IDPlayer.counter self))
                       (S (IDPlayer.total_counter self))
                       (IDPlayer.stdout self)
                       ((node, explored) :: IDPlayer.calls self)).
Proof.
  intros Hg Ha. destruct limit; simpl; rewrite Hg; unfold unwrap_solution;
    by rewrite Ha.
Qed.

(** C4: when the initial state passes the goal test, uniform-cost search
    and heuristic search return no action and the total 0 with one node
    counted, whatever the fuel; and iterative deepening, on a well-formed
    grid, returns the same result from its first depth-limited search,
    having called [recursive_dls] once, on the root. *)
Theorem goal_at_start p fuel counter0 self :
  is_goal_state (initial_state p) = true →
  UCPlayer.uniform_cost_search p fuel counter0
  = (Returned (mkResult [] (Int 0)), S counter0)
  ∧ AStarPlayer.astar_search p fuel counter0
    = (Returned (mkResult [] (Int 0)), S counter0)
  ∧ (well_formed p →
     IDPlayer.iterative_deepening_search p self
     = (IDPlayer.Found (mkResult [] (Int 0)),
        IDPlayer.mkPlayer 0
          (S (IDPlayer.total_counter self))
          (IDPlayer.stdout self
             ++ [IDPlayer.LimitDepth 0;
                 IDPlayer.NodesExplored (S (IDPlayer.counter self))])
          ((initial_node p, [initial_node p]) :: IDPlayer.calls self))).
Proof.
  intros Hg. unfold initial_state in Hg.
  split; [|split].
  - unfold UCPlayer.uniform_cost_search. by rewrite Hg.
  - unfold AStarPlayer.astar_search. by rewrite Hg.
  - intros Hwf. unfold IDPlayer.iterative_deepening_search.
    apply well_formed_depth_bound in Hwf.
    destruct (IDPlayer.depth_bound p) as [|k]; [lia|].
    cbn [seq IDPlayer.for_depths]. unfold IDPlayer.depth_limited_search.
    rewrite (recursive_dls_goal p 0 (initial_node p) _ _ []) by done.
    cbn. by rewrite <- app_assoc.
Qed.

Lemma goal_at_start_witness :
  UCPlayer.uniform_cost_search no_bananas 0 0
  = (Returned (mkResult [] (Int 0)), 1%nat)
  ∧ AStarPlayer.astar_search no_bananas 0 0
    = (Returned (mkResult [] (Int 0)), 1%nat)
  ∧ IDPlayer.iterative_deepening_search no_bananas (IDPlayer.mkPlayer 0 0 [] [])
    = (IDPlayer.Found (mkResult [] (Int 0)),
       IDPlayer.mkPlayer 0 1
         [IDPlayer.LimitDepth 0; IDPlayer.NodesExplored 1]
         [(initial_node no_bananas, [initial_node no_bananas])]).
Proof.
  destruct (goal_at_start no_bananas 0 0 (IDPlayer.mkPlayer 0 0 [] []))
    as (Hucs & Hastar & Hids).
  - vm_compute. reflexivity.
  - split; [exact Hucs|]. split; [exact Hastar|]. apply Hids.
    repeat split.
    + constructor.
    + constructor.
    + intros H. inversion H.
Defined.

(** ** The outer loop of iterative deepening *)

Lemma for_children_stdout rec new_explored cs cutoff self :
  (∀ n e s, IDPlayer.stdout (snd (rec n e s)) = IDPlayer.stdout s) →
  IDPlayer.stdout (snd (IDPlayer.for_children rec new_explored cs cutoff self))
  = IDPlayer.stdout self.
Proof.
  intros Hrec. revert cutoff self.
  induction cs as [|child cs IH]; intros cutoff self; simpl.
  - by destruct cutoff.
  - specialize (Hrec child new_explored self).
    destruct (rec child new_explored self) as [result self'].
    simpl in Hrec. destruct result; rewrite ?IH; done.
Qed.

Lemma recursive_dls_stdout p limit node explored self :
  IDPlayer.stdout (snd (IDPlayer.recursive_dls p limit node explored self))
  = IDPlayer.stdout self.
Proof.
  revert node explored self.
  induction limit as [|limit IH]; intros node explored self; simpl.
  - destruct (is_goal_state (state node)); [|done].
    by destruct (collect_actions node).
  - destruct (is_goal_state (state node)).
    { by destruct (collect_actions node). }
    destruct (child_nodes p node _); [done|].
    by rewrite for_children_stdout.
Qed.

Lemma depth_limited_search_stdout p depth self :
  IDPlayer.stdout (snd (IDPlayer.depth_limited_search p depth self))
  = IDPlayer.stdout self ++ [IDPlayer.LimitDepth depth].
Proof. unfold IDPlayer.depth_limited_search. by rewrite recursive_dls_stdout. Qed.

Lemma depths_tried_app out1 out2 :
  depths_tried (out1 ++ out2) = depths_tried out1 ++ depths_tried out2.
Proof. apply omap_app. Qed.

(** The loop announces a prefix of its depths, one per depth-limited
    search. *)
Lemma for_depths_tried p depths result self :
  ∃ n, (n ≤ length depths)%nat
       ∧ depths_tried (IDPlayer.stdout (snd (IDPlayer.for_depths p depths result self)))
         = depths_tried (IDPlayer.stdout self) ++ take n depths.
Proof.
  revert result self.
  induction depths as [|d depths IH]; intros result self.
  - exists 0%nat. split; [done|]. simpl. rewrite app_nil_r. by destruct result.
  - simpl. pose proof (depth_limited_search_stdout p d self) as Hout.
    destruct (IDPlayer.depth_limited_search p d self) as [res self1].
    simpl in Hout.
    destruct res as [r| | |e].
    + exists 1%nat. split; [lia|]. simpl.
      by rewrite Hout, !depths_tried_app, app_nil_r.
    + edestruct IH as (n & Hn & ->). exists (S n). split; [lia|].
      simpl. by rewrite Hout, !depths_tried_app, app_nil_r, <- app_assoc.
    + exists 1%nat. split; [lia|]. simpl.
      by rewrite Hout, !depths_tried_app, app_nil_r.
    + exists 1%nat. split; [lia|]. simpl. by rewrite Hout, depths_tried_app.
Qed.

(** C7: on a grid with [k] cells without an obstacle, iterative deepening
    (a total function: every call ends, with a result, a cutoff, the
    no-solution flag or an exception) runs depth-limited search [n] times
    for some [n] not above [k], with the depth limits 0 to [n - 1] in this
    order. *)
Theorem iterative_deepening_bounded p self :
  0 <= x (map_size p) → 0 <= y (map_size p) →
  ∃ n, (n ≤ size (free_cells p))%nat
       ∧ depths_tried
           (IDPlayer.stdout (snd (IDPlayer.iterative_deepening_search p self)))
         = depths_tried (IDPlayer.stdout self) ++ seq 0 n.
Proof.
  intros Hx Hy. unfold IDPlayer.iterative_deepening_search.
  destruct (for_depths_tried p (seq 0 (IDPlayer.depth_bound p)) None self)
    as (n & Hn & ->).
  rewrite length_seq in Hn. exists n. split.
  - pose proof (depth_bound_free_cells p Hx Hy). lia.
  - f_equal. rewrite take_seq. f_equal. lia.
Qed.

Lemma iterative_deepening_bounded_witness :
  ∃ n, (n ≤ size (free_cells detour))%nat
       ∧ depths_tried
           (IDPlayer.stdout
              (snd (IDPlayer.iterative_deepening_search detour
                      (IDPlayer.mkPlayer 0 0 [] []))))
         = depths_tried [] ++ seq 0 n.
Proof.
  apply (iterative_deepening_bounded detour (IDPlayer.mkPlayer 0 0 [] []));
    vm_compute; discriminate.
Defined.

(** ** The frontier keeps what is put in

    Whatever holds of all entries of the queue and of an entry put in holds
    of all entries afterwards, and of the entry taken out. *)

Section FrontierEntries.

Variable P : HungryMonkeyNode → Prop.

Lemma siftdown_loop_Forall fuel heap startpos pos newitem :
  Forall P heap → P newitem →
  Forall P (PriorityQueue.siftdown_loop fuel heap startpos pos newitem).
Proof.
  revert heap pos.
  induction fuel as [|fuel IH]; intros heap pos Hheap Hnew;
    cbn [PriorityQueue.siftdown_loop].
  { by apply Forall_insert. }
  case_bool_decide; [|by apply Forall_insert].
  destruct (heap !! ((pos - 1) / 2)%nat) as [par|] eqn:Hpar;
    [|by apply Forall_insert].
  destruct (node_lt newitem par); [|by apply Forall_insert].
  apply IH; [|done]. apply Forall_insert; [done|].
  by eapply Forall_lookup_1.
Qed.

Lemma siftdown_Forall heap startpos pos :
  Forall P heap → Forall P (PriorityQueue.siftdown heap startpos pos).
Proof.
  intros Hheap. unfold PriorityQueue.siftdown.
  destruct (heap !! pos) as [newitem|] eqn:Hpos; [|done].
  apply siftdown_loop_Forall; [done|]. by eapply Forall_lookup_1.
Qed.

Lemma siftup_loop_Forall fuel heap pos :
  Forall P heap → Forall P (fst (PriorityQueue.siftup_loop fuel heap pos)).
Proof.
  revert heap pos.
  induction fuel as [|fuel IH]; intros heap pos Hheap;
    cbn [PriorityQueue.siftup_loop]; [done|].
  repeat case_match; try done;
    apply IH, Forall_insert; try done; by eapply Forall_lookup_1.
Qed.

Lemma siftup_Forall heap pos :
  Forall P heap → Forall P (PriorityQueue.siftup heap pos).
Proof.
  intros Hheap. unfold PriorityQueue.siftup.
  destruct (heap !! pos) as [newitem|] eqn:Hpos; [|done].
  pose proof (siftup_loop_Forall (length heap) heap pos Hheap) as Hup.
  destruct (PriorityQueue.siftup_loop (length heap) heap pos) as [heap' pos'].
  simpl in Hup. apply siftdown_Forall, Forall_insert; [done|].
  by eapply (Forall_lookup_1 _ heap).
Qed.

Lemma put_Forall heap item :
  Forall P heap → P item → Forall P (PriorityQueue.put heap item).
Proof.
  intros Hheap Hitem. apply siftdown_Forall, Forall_app. split; [done|].
  by constructor.
Qed.

Lemma get_Forall heap item heap' :
  PriorityQueue.get heap = Some (item, heap') →
  Forall P heap → P item ∧ Forall P heap'.
Proof.
  unfold PriorityQueue.get.
  destruct (last heap) as [lastelt|] eqn:Hlast; [|done].
  apply last_Some in Hlast as [front ->].
  rewrite removelast_last. intros Hget [Hfront Hlast]%Forall_app.
  apply Forall_inv in Hlast.
  destruct front as [|returnitem rest]; injection Hget as <- <-.
  - by split.
  - apply Forall_cons in Hfront as [Hret Hrest]. split; [done|].
    apply siftup_Forall. by constructor.
Qed.

End FrontierEntries.

(** ** The actions of a result lead to a goal state *)

Section Replay.

Variable p : HungryMonkeyProblem.

Lemma replay_app s l1 l2 : replay p s (l1 ++ l2) = replay p (replay p s l1) l2.
Proof. revert s. induction l1 as [|a l1 IH]; intros s; simpl; [done|apply IH]. Qed.

(** The chain of parents of a generated node spells the way from the
    initial state to the node's state. *)
Lemma generated_replay n :
  generated p n →
  ∃ l, collect_actions n = inr l ∧ replay p (initial_state p) (rev l) = state n.
Proof.
  induction 1 as [|node action child _ (l & Hl & Hrep) Hin Hchild].
  - by exists [].
  - pose proof (child_node_state _ _ _ _ Hchild) as Hsucc.
    apply child_node_inv in Hchild as (_ & _ & Hprev & Hpar & _).
    exists (action :: l). split.
    + destruct child as [st c pa par h]. simpl in Hprev, Hpar. subst.
      simpl. by rewrite Hl.
    + simpl. by rewrite replay_app, Hrep; simpl; rewrite Hsucc.
Qed.

Lemma generated_goal_replay n actions :
  generated p n → is_goal_state (state n) = true →
  unwrap_solution (Some n) = inr actions →
  frozenset (remaining_bananas (replay p (initial_state p) actions)) = ∅.
Proof.
  intros (l & Hl & Hrep)%generated_replay Hgoal. unfold unwrap_solution.
  rewrite Hl. intros [= <-]. rewrite Hrep. by apply is_empty_spec.
Qed.

Lemma child_nodes_generated node actions children :
  generated p node →
  Forall (fun a => a ∈ available_actions_for p (state node)) actions →
  child_nodes p node actions = inr children →
  Forall (generated p) children.
Proof.
  intros Hnode Hact. revert children.
  induction Hact as [|a actions Ha Hact IH]; intros children; simpl.
  { intros [= <-]. constructor. }
  destruct (child_node p node a) as [|c] eqn:Hc; [done|].
  destruct (child_nodes p node actions) as [|cs]; [done|].
  intros [= <-]. constructor; [|by apply IH]. by econstructor.
Qed.

Lemma expand_generated node children :
  generated p node →
  child_nodes p node (available_actions_for p (state node)) = inr children →
  Forall (generated p) children.
Proof.
  intros Hnode. apply child_nodes_generated; [done|]. by apply Forall_forall.
Qed.

Lemma for_each_inv visit st children st' :
  (∀ st child st', search_inv p st → generated p child →
                   visit st child = inr st' → search_inv p st') →
  search_inv p st → Forall (generated p) children →
  for_each visit st children = inr st' → search_inv p st'.
Proof.
  intros Hvisit Hst Hch. revert st Hst.
  induction Hch as [|child children Hc Hch IH]; intros st Hst; simpl.
  { by intros [= <-]. }
  destruct (visit st child) as [|st1] eqn:Hv; [done|]. apply IH. eauto.
Qed.

Lemma unwrap_result_inv st r c :
  search_inv p st → unwrap_result st = (Returned r, c) →
  frozenset (remaining_bananas (replay p (initial_state p) (sequence_actions r)))
  = ∅.
Proof.
  intros [_ Hsol]. unfold unwrap_result.
  destruct (unwrap_solution (solution_node st)) as [|actions] eqn:Hu; [done|].
  intros [= <- _]. simpl.
  destruct (solution_node st) as [n|] eqn:Hn; [|done].
  destruct (Hsol n eq_refl). by eapply generated_goal_replay.
Qed.

Lemma ucs_visit_inv st child st' :
  search_inv p st → generated p child →
  UCPlayer.visit st child = inr st' → search_inv p st'.
Proof.
  intros [Hfr Hsol] Hc. unfold UCPlayer.visit.
  destruct (improves _ _ _) as [|[]]; [done| |by intros [= <-]].
  destruct (is_goal_state (state child)) eqn:Hg; simpl;
    [destruct (lt_number _ _)|]; intros [= <-]; split; simpl;
    try (by apply put_Forall); try done.
  by intros n [= <-].
Qed.

Lemma astar_visit_inv st child st' :
  search_inv p st → generated p child →
  AStarPlayer.visit st child = inr st' → search_inv p st'.
Proof.
  intros [Hfr Hsol] Hc. unfold AStarPlayer.visit.
  destruct (improves _ _ _) as [|[]]; [done| |by intros [= <-]].
  destruct (is_goal_state (state child)) eqn:Hg; simpl;
    [destruct (lt_number _ _)|]; intros [= <-]; split; simpl;
    try (by apply put_Forall); try done.
  by intros n [= <-].
Qed.

Lemma ucs_turn_inv st :
  search_inv p st →
  match UCPlayer.turn p st with
  | inr st' => search_inv p st'
  | inl (Returned r, _) =>
      frozenset (remaining_bananas
                   (replay p (initial_state p) (sequence_actions r))) = ∅
  | inl _ => True
  end.
Proof.
  intros Hst. unfold UCPlayer.turn.
  destruct (PriorityQueue.empty (frontier st)).
  { destruct (unwrap_result st) as [[r| |] c] eqn:Hu; [|done..].
    by eapply unwrap_result_inv. }
  destruct (PriorityQueue.get (frontier st)) as [[par frontier']|] eqn:Hget;
    [|done].
  - destruct Hst as [Hfr Hsol].
    destruct (get_Forall _ _ _ _ Hget Hfr) as [Hpar Hfr'].
    assert (search_inv p (mkSearch frontier' (reached st) (solution st)
                                 (solution_node st) (counter st))) as Hst'
      by done.
    simpl. destruct (lt_number _ _).
    + destruct (child_nodes p par _) as [|children] eqn:Hch; [done|].
      destruct (for_each _ _ _) as [|st1] eqn:Hfe; [done|].
      eapply for_each_inv; [apply ucs_visit_inv|exact Hst'| |exact Hfe].
      by eapply expand_generated.
    + destruct (unwrap_result _) as [[r| |] c] eqn:Hu; [|done..].
      by eapply unwrap_result_inv.
Qed.

Lemma astar_turn_inv st :
  search_inv p st →
  match AStarPlayer.turn p st with
  | inr st' => search_inv p st'
  | inl (Returned r, _) =>
      frozenset (remaining_bananas
                   (replay p (initial_state p) (sequence_actions r))) = ∅
  | inl _ => True
  end.
Proof.
  intros Hst. unfold AStarPlayer.turn.
  destruct (PriorityQueue.empty (frontier st)).
  { destruct (unwrap_result st) as [[r| |] c] eqn:Hu; [|done..].
    by eapply unwrap_result_inv. }
  destruct (PriorityQueue.get (frontier st)) as [[par frontier']|] eqn:Hget;
    [|done].
  - destruct Hst as [Hfr Hsol].
    destruct (get_Forall _ _ _ _ Hget Hfr) as [Hpar Hfr'].
    assert (search_inv p (mkSearch frontier' (reached st) (solution st)
                                 (solution_node st) (S (counter st))))
      as Hst' by done.
    simpl. destruct (lt_number _ _).
    + destruct (child_nodes p par _) as [|children] eqn:Hch; [done|].
      destruct (for_each _ _ _) as [|st1] eqn:Hfe; [done|].
      eapply for_each_inv; [apply astar_visit_inv|exact Hst'| |exact Hfe].
      by eapply expand_generated.
    + destruct (unwrap_result _) as [[r| |] c] eqn:Hu; [|done..].
      eapply (unwrap_result_inv (mkSearch frontier' _ _ _ _)); [|exact Hu].
      by split.
Qed.

Lemma ucs_loop_replay fuel st r c :
  search_inv p st → UCPlayer.loop p fuel st = (Returned r, c) →
  frozenset (remaining_bananas (replay p (initial_state p) (sequence_actions r)))
  = ∅.
Proof.
  revert st. induction fuel as [|fuel IH]; intros st Hst; simpl; [done|].
  pose proof (ucs_turn_inv st Hst) as Hturn.
  destruct (UCPlayer.turn p st) as [[o c']|st']; [|by apply IH].
  intros [= -> ->]. done.
Qed.

Lemma astar_loop_replay fuel st r c :
  search_inv p st → AStarPlayer.loop p fuel st = (Returned r, c) →
  frozenset (remaining_bananas (replay p (initial_state p) (sequence_actions r)))
  = ∅.
Proof.
  revert st. induction fuel as [|fuel IH]; intros st Hst; simpl; [done|].
  pose proof (astar_turn_inv st Hst) as Hturn.
  destruct (AStarPlayer.turn p st) as [[o c']|st']; [|by apply IH].
  intros [= -> ->]. done.
Qed.

Lemma initial_search_inv c :
  search_inv p (mkSearch (PriorityQueue.put [] (initial_node p)) [] Inf None c).
Proof.
  split; simpl; [|done]. apply put_Forall; constructor.
Qed.

Lemma uniform_cost_search_replay fuel c0 r c :
  UCPlayer.uniform_cost_search p fuel c0 = (Returned r, c) →
  frozenset (remaining_bananas (replay p (initial_state p) (sequence_actions r)))
  = ∅.
Proof.
  unfold UCPlayer.uniform_cost_search.
  destruct (is_goal_state (state (initial_node p))) eqn:Hg.
  - intros [= <- _]. by apply is_empty_spec in Hg.
  - apply ucs_loop_replay, initial_search_inv.
Qed.

Lemma astar_search_replay fuel c0 r c :
  AStarPlayer.astar_search p fuel c0 = (Returned r, c) →
  frozenset (remaining_bananas (replay p (initial_state p) (sequence_actions r)))
  = ∅.
Proof.
  unfold AStarPlayer.astar_search.
  destruct (is_goal_state (state (initial_node p))) eqn:Hg.
  - intros [= <- _]. by apply is_empty_spec in Hg.
  - apply astar_loop_replay, initial_search_inv.
Qed.

End Replay.

Section DepthLimited.

Variable p : HungryMonkeyProblem.

Lemma for_children_found rec new_explored cs cutoff self :
  (∀ child e s, generated p child → found_from p (fst (rec child e s))) →
  Forall (generated p) cs →
  found_from p (fst (IDPlayer.for_children rec new_explored cs cutoff self)).
Proof.
  intros Hrec Hcs. revert cutoff self.
  induction Hcs as [|child cs Hc Hcs IH]; intros cutoff self; simpl.
  { by destruct cutoff. }
  specialize (Hrec child new_explored self Hc).
  destruct (rec child new_explored self) as [result self'].
  by destruct result; simpl in *.
Qed.

Lemma recursive_dls_found limit node explored self :
  generated p node →
  found_from p (fst (IDPlayer.recursive_dls p limit node explored self)).
Proof.
  revert node explored self.
  assert (∀ node (P : IDPlayer.player),
             generated p node → is_goal_state (state node) = true →
             found_from p
               (fst match unwrap_solution (Some node) with
                    | inr actions =>
                        (IDPlayer.Found (mkResult actions (Int (path_cost node))), P)
                    | inl e => (IDPlayer.Error e, P)
                    end)) as Hgoal.
  { intros node P Hn Hg.
    destruct (unwrap_solution (Some node)) as [|actions] eqn:Hu; [done|].
    simpl. by exists node. }
  induction limit as [|limit IH]; intros node explored self Hn;
    cbn [IDPlayer.recursive_dls];
    destruct (is_goal_state (state node)) eqn:Hg; try by apply Hgoal.
  - done.
  - destruct (child_nodes p node _) as [|childs] eqn:Hch; [done|].
    apply for_children_found; [by intros; apply IH|].
    apply expand_generated in Hch; [|done].
    apply Forall_forall. intros c [_ Hc]%list_elem_of_filter.
    by eapply Forall_forall in Hch.
Qed.

Lemma for_depths_found depths result self :
  (∀ r, result = Some r → found_from p r) →
  found_from p (fst (IDPlayer.for_depths p depths result self)).
Proof.
  revert result self.
  induction depths as [|d depths IH]; intros result self Hres; simpl.
  { destruct result as [r|]; [by apply Hres|done]. }
  pose proof (recursive_dls_found d (initial_node p)
                (set_add (initial_node p) [])
                (IDPlayer.mkPlayer (IDPlayer.counter self)
                   (IDPlayer.total_counter self)
                   (IDPlayer.stdout self ++ [IDPlayer.LimitDepth d])
                   (IDPlayer.calls self))
                (generated_root p)) as Hd.
  fold (IDPlayer.depth_limited_search p d self) in Hd.
  destruct (IDPlayer.depth_limited_search p d self) as [res self1].
  destruct res; try done. apply IH. by intros r [= <-].
Qed.

Lemma iterative_deepening_search_found self :
  found_from p (fst (IDPlayer.iterative_deepening_search p self)).
Proof. by apply for_depths_found. Qed.

Lemma iterative_deepening_search_replay self r self' :
  IDPlayer.iterative_deepening_search p self = (IDPlayer.Found r, self') →
  frozenset (remaining_bananas (replay p (initial_state p) (sequence_actions r)))
  = ∅.
Proof.
  intros Hids. pose proof (iterative_deepening_search_found self) as Hf.
  rewrite Hids in Hf. destruct Hf as (n & Hn & Hg & Hu & _).
  by eapply generated_goal_replay.
Qed.

End DepthLimited.

(** Whatever result uniform-cost search, heuristic search or iterative
    deepening returns, applying [successor] from the initial state along
    the result's actions ends in a state with no remaining banana. *)
Lemma returned_plan_reaches_goal p r :
  returns p r →
  frozenset (remaining_bananas (replay p (initial_state p) (sequence_actions r)))
  = ∅.
Proof.
  intros [(fuel & c0 & c & H)|[(fuel & c0 & c & H)|(self & self' & H)]].
  - by eapply uniform_cost_search_replay.
  - by eapply astar_search_replay.
  - by eapply iterative_deepening_search_replay.
Qed.

(** ** Running the loops

    More fuel does not change what a loop that ended evaluates to. *)

Section Fuel.

Variable p : HungryMonkeyProblem.

Lemma ucs_loop_more_fuel fuel fuel' st o c :
  UCPlayer.loop p fuel st = (o, c) → o ≠ OutOfFuel → (fuel ≤ fuel')%nat →
  UCPlayer.loop p fuel' st = (o, c).
Proof.
  revert fuel' st. induction fuel as [|fuel IH]; intros fuel' st; simpl.
  { by intros [= <- _] ?. }
  intros Hl Ho Hle. destruct fuel' as [|fuel']; [lia|]. simpl.
  destruct (UCPlayer.turn p st) as [|st']; [done|]. apply IH; [done..|lia].
Qed.

Lemma astar_loop_more_fuel fuel fuel' st o c :
  AStarPlayer.loop p fuel st = (o, c) → o ≠ OutOfFuel → (fuel ≤ fuel')%nat →
  AStarPlayer.loop p fuel' st = (o, c).
Proof.
  revert fuel' st. induction fuel as [|fuel IH]; intros fuel' st; simpl.
  { by intros [= <- _] ?. }
  intros Hl Ho Hle. destruct fuel' as [|fuel']; [lia|]. simpl.
  destruct (AStarPlayer.turn p st) as [|st']; [done|]. apply IH; [done..|lia].
Qed.

Lemma uniform_cost_search_more_fuel fuel fuel' c0 o c :
  UCPlayer.uniform_cost_search p fuel c0 = (o, c) → o ≠ OutOfFuel →
  (fuel ≤ fuel')%nat →
  UCPlayer.uniform_cost_search p fuel' c0 = (o, c).
Proof.
  unfold UCPlayer.uniform_cost_search.
  destruct (is_goal_state _); [done|]. apply ucs_loop_more_fuel.
Qed.

Lemma astar_search_more_fuel fuel fuel' c0 o c :
  AStarPlayer.astar_search p fuel c0 = (o, c) → o ≠ OutOfFuel →
  (fuel ≤ fuel')%nat →
  AStarPlayer.astar_search p fuel' c0 = (o, c).
Proof.
  unfold AStarPlayer.astar_search.
  destruct (is_goal_state _); [done|]. apply astar_loop_more_fuel.
Qed.

End Fuel.

(** ** A corridor cut by an obstacle *)

Lemma blocked_is_UCPlayer_problem :
  UCPlayer_problem (corridor_world 0 3 [(2, 0)]) [North; South; East; West]
  = Some (blocked default_heuristic_func).
Proof. vm_compute. reflexivity. Qed.

Lemma blocked_is_AStarPlayer_problem :
  AStarPlayer_problem (corridor_world 0 3 [(2, 0)]) [North; South; East; West]
  = Some (blocked AStarPlayer.heuristic_func).
Proof. vm_compute. reflexivity. Qed.

Lemma successor_inv p s a :
  (a ∈ available_actions_for p s
   ∧ components (successor p s a)
     = mkState (move (current_location s) a)
         (PyList (filter (fun banana => banana ≠ move (current_location s) a)
                         (iterate (remaining_bananas s)))))
  ∨ ((a ∉ available_actions_for p s) ∧ components (successor p s a) = s).
Proof.
  unfold successor.
  case_bool_decide as Ha; [left|right]; (split; [done|]); simpl.
  - f_equal. f_equal. apply list_filter_iff. intros [bx by_].
    unfold move, x, y. simpl. split; intros H.
    + intros [= -> ->]. by apply H.
    + intros [-> ->]. by apply H.
  - by destruct s.
Qed.

(** Behind the obstacle the banana stays out of reach: every reachable
    state has the agent west of the obstacle and the banana left. *)
Lemma blocked_reachable h s :
  reachable (blocked h) s →
  (current_location s = (0, 0) ∨ current_location s = (1, 0))
  ∧ frozenset (remaining_bananas s) = {[ (3, 0) ]}.
Proof.
  induction 1 as [|s a _ [Hloc Hrem]].
  { split; [by left|done]. }
  destruct (successor_inv (blocked h) s a) as [[Ha ->]|[_ ->]]; [|done].
  unfold available_actions_for in Ha. simpl in Ha.
  apply list_elem_of_filter in Ha as [[Hin Hblock] Ha].
  assert (move (current_location s) a = (0, 0)
          ∨ move (current_location s) a = (1, 0)) as Hmove.
  { apply list_elem_of_In in Ha. simpl in Ha.
    destruct Hloc as [Hloc|Hloc]; rewrite Hloc in *;
      destruct Ha as [<-|[<-|[<-|[<-|[]]]]]; vm_compute in Hin; try done;
      vm_compute; auto.
    exfalso. apply Hblock. vm_compute. constructor. }
  split; [done|]. simpl.
  apply set_eq. intros b.
  rewrite elem_of_list_to_set, list_elem_of_filter, elem_of_iterate, Hrem.
  rewrite elem_of_singleton. split; [tauto|]. intros ->. split; [|done].
  destruct Hmove as [-> | ->]; done.
Qed.

Lemma replay_reachable p s actions :
  reachable p s → reachable p (replay p s actions).
Proof.
  revert s. induction actions as [|a actions IH]; intros s Hs; simpl; [done|].
  apply IH. by constructor.
Qed.

(** A search that returns a result has found a way to a goal state; so
    where no goal state can be reached no search returns a result, and the
    cost-ordered searches, which have no other value to return, run on or
    raise. *)
Lemma unsolvable_never_returns p r :
  (∀ s, reachable p s → is_goal_state s = false) → ¬ returns p r.
Proof.
  intros Hno Hr.
  assert (frozenset (remaining_bananas
                       (replay p (initial_state p) (sequence_actions r))) = ∅)
    as Hgoal.
  { destruct Hr as [(fuel & c0 & c & H)|[(fuel & c0 & c & H)|(self & self' & H)]].
    - by eapply uniform_cost_search_replay.
    - by eapply astar_search_replay.
    - by eapply iterative_deepening_search_replay. }
  apply is_empty_spec in Hgoal.
  specialize (Hno (replay p (initial_state p) (sequence_actions r))
                  (replay_reachable p _ _ (reachable_initial p))).
  unfold is_goal_state in Hno. congruence.
Qed.

(** C2, on the code: in the blocked corridor the set of bananas is not
    empty and no reachable state passes the goal test; on the problems
    [UCPlayer] and [AStarPlayer] build for it, the frontier runs empty after
    four turns and both searches then raise [AttributeError], reading
    [previous_action] of the missing solution node.  No problem without a
    reachable goal state fares better ([unsolvable_never_returns]). *)
Theorem blocked_corridor_searches_raise fuel :
  UCPlayer_problem (corridor_world 0 3 [(2, 0)]) [North; South; East; West]
  = Some (blocked default_heuristic_func)
  ∧ AStarPlayer_problem (corridor_world 0 3 [(2, 0)]) [North; South; East; West]
    = Some (blocked AStarPlayer.heuristic_func)
  ∧ banana_locations (blocked default_heuristic_func) ≠ ∅
  ∧ (¬ ∃ h s, reachable (blocked h) s ∧ is_goal_state s = true)
  ∧ UCPlayer.uniform_cost_search (blocked default_heuristic_func) (4 + fuel) 0
    = (Raised AttributeError, 4%nat)
  ∧ AStarPlayer.astar_search (blocked AStarPlayer.heuristic_func) (4 + fuel) 0
    = (Raised AttributeError, 3%nat).
Proof.
  split; [apply blocked_is_UCPlayer_problem|].
  split; [apply blocked_is_AStarPlayer_problem|].
  split; [|split; [|split]].
  - intros H. assert ((3, 0) ∈ (∅ : gset (Z * Z))) as Hin; [|set_solver].
    rewrite <- H. simpl. set_solver.
  - intros (h & s & Hs & Hg). apply blocked_reachable in Hs as [_ Hrem].
    apply is_empty_spec in Hg. rewrite Hg in Hrem.
    assert ((3, 0) ∈ (∅ : gset (Z * Z))) as Hin; [|set_solver].
    rewrite Hrem. set_solver.
  - apply (uniform_cost_search_more_fuel _ 4); [|done|lia].
    vm_compute. reflexivity.
  - apply (astar_search_more_fuel _ 4); [|done|lia].
    vm_compute. reflexivity.
Qed.

(** ** The total reward of iterative deepening *)

Lemma length_filter_ne (l : list (Z * Z)) b :
  NoDup l →
  Z.of_nat (length (filter (fun c => c ≠ b) l))
  = Z.of_nat (length l) - (if bool_decide (b ∈ l) then 1 else 0).
Proof.
  induction 1 as [|a l Ha Hl IH]; [done|].
  rewrite filter_cons. destruct (decide (a ≠ b)) as [Hne|Heq%dec_stable].
  - simpl length. rewrite !Nat2Z.inj_succ, IH.
    rewrite (bool_decide_ext (b ∈ a :: l) (b ∈ l)); [lia|].
    rewrite elem_of_cons. split; [intros [Heq|Hb]|by right]; [by subst|done].
  - subst a. rewrite IH, (bool_decide_eq_false_2 (b ∈ l)) by done.
    rewrite bool_decide_eq_true_2 by constructor. simpl length. lia.
Qed.

Lemma is_empty_iterate c : is_empty c = true → iterate c = [].
Proof.
  destruct c as [s|l]; simpl.
  - intros ->%bool_decide_eq_true. apply elements_empty.
  - by destruct l.
Qed.

(** The path cost of a generated node: the step cost for every action on
    the way, and the banana reward for every banana no longer there. *)
Lemma generated_cost p n :
  generated p n →
  NoDup (iterate (remaining_bananas (state n)))
  ∧ ∃ l, collect_actions n = inr l
         ∧ path_cost n
           = Z.of_nat (length l) * step_cost p
             + (Z.of_nat (size (banana_locations p))
                - Z.of_nat (length (iterate (remaining_bananas (state n)))))
               * banana_reward p.
Proof.
  induction 1 as [|node action child _ (Hnd & l & Hl & Hcost) Hin Hchild].
  - simpl. split; [apply NoDup_elements|]. exists []. split; [done|].
    unfold size, set_size. simpl. lia.
  - apply child_node_inv in Hchild as (_ & Hst & Hprev & Hpar & Hpc).
    rewrite Hst. simpl. split; [by apply NoDup_filter|].
    exists (action :: l). split.
    { destruct child as [st c pa par h]. simpl in Hprev, Hpar. subst.
      simpl. by rewrite Hl. }
    rewrite Hpc, Hcost, length_filter_ne by done. simpl length.
    rewrite Nat2Z.inj_succ.
    destruct (contains _ _) eqn:Hc.
    + apply contains_spec in Hc. rewrite bool_decide_eq_true_2 by done. lia.
    + rewrite bool_decide_eq_false_2; [lia|].
      intros Hc'%contains_spec. congruence.
Qed.

(** C9, as the code has it: whenever iterative deepening returns a result,
    its total is the path cost of the solution node, which is the step cost
    for every action plus the banana reward for every banana of the problem;
    and the problem [IDPlayer] builds has the step cost -1 and the banana
    reward 10 of the constructor's defaults. *)
Theorem iterative_deepening_total_reward p self r self' :
  IDPlayer.iterative_deepening_search p self = (IDPlayer.Found r, self') →
  total_reward r
  = Int (Z.of_nat (length (sequence_actions r)) * step_cost p
         + Z.of_nat (size (banana_locations p)) * banana_reward p)
  ∧ ∀ world actions,
      IDPlayer_problem world actions = Some p →
      step_cost p = -1 ∧ banana_reward p = 10.
Proof.
  intros Hids. split.
  - pose proof (iterative_deepening_search_found p self) as Hf.
    rewrite Hids in Hf. destruct Hf as (n & Hn & Hg & Hu & ->).
    apply generated_cost in Hn as (_ & l & Hl & ->).
    unfold unwrap_solution in Hu. rewrite Hl in Hu. injection Hu as <-.
    rewrite length_rev, (is_empty_iterate _ Hg). simpl length. f_equal. lia.
  - intros world actions. unfold IDPlayer_problem, HungryMonkeyProblem_init.
    destruct (scan_objects _) as [[loc|] food]; [|done]. by intros [= <-].
Qed.

Lemma default_run_is_IDPlayer_problem :
  IDPlayer_problem (corridor_world 0 3 []) [East; West] = Some default_run.
Proof. vm_compute. reflexivity. Qed.

Lemma iterative_deepening_total_reward_witness :
  total_reward (mkResult [East; East; East] (Int 7))
  = Int (Z.of_nat (length (sequence_actions (mkResult [East; East; East] (Int 7))))
         * step_cost default_run
         + Z.of_nat (size (banana_locations default_run))
           * banana_reward default_run)
  ∧ ∀ world actions,
      IDPlayer_problem world actions = Some default_run →
      step_cost default_run = -1 ∧ banana_reward default_run = 10.
Proof.
  apply (iterative_deepening_total_reward default_run
           (IDPlayer.mkPlayer 0 0 [] []) _
           (snd (IDPlayer.iterative_deepening_search default_run
                   (IDPlayer.mkPlayer 0 0 [] [])))).
  vm_compute. reflexivity.
Defined.

(** In the corridor the problem [IDPlayer] builds has the banana reward
    10, and iterative deepening returns three actions with the total 7,
    which is not three times the step cost. *)
Lemma default_run_total_includes_reward :
  ∃ p r self',
    IDPlayer_problem (corridor_world 0 3 []) [East; West] = Some p
    ∧ banana_reward p ≠ 0
    ∧ IDPlayer.iterative_deepening_search p (IDPlayer.mkPlayer 0 0 [] [])
      = (IDPlayer.Found r, self')
    ∧ sequence_actions r = [East; East; East]
    ∧ total_reward r = Int 7
    ∧ total_reward r
      ≠ Int (Z.of_nat (length (sequence_actions r)) * step_cost p).
Proof.
  exists default_run. eexists. eexists.
  split; [apply default_run_is_IDPlayer_problem|].
  split; [done|].
  split; [vm_compute; reflexivity|].
  split; [reflexivity|]. split; [reflexivity|]. simpl. discriminate.
Qed.

(** ** Depth-limited search and the root's state *)

Lemma for_children_calls rec caller explored cs cutoff self :
  (∀ child e s,
      ∃ new, IDPlayer.calls (snd (rec child e s))
             = new ++ (child, e) :: IDPlayer.calls s
             ∧ Forall filtered_call new) →
  Forall (fun child => in_set child explored = false) cs →
  ∃ new, IDPlayer.calls
           (snd (IDPlayer.for_children rec (set_add caller explored) cs cutoff self))
         = new ++ IDPlayer.calls self
         ∧ Forall filtered_call new.
Proof.
  intros Hrec Hcs. revert cutoff self.
  induction Hcs as [|child cs Hc Hcs IH]; intros cutoff self; simpl.
  { exists []. by destruct cutoff. }
  destruct (Hrec child (set_add caller explored) self) as (new1 & H1 & Hnew1).
  destruct (rec child (set_add caller explored) self) as [result self1].
  simpl in H1.
  assert (Forall filtered_call (new1 ++ [(child, set_add caller explored)]))
    as Hall.
  { apply Forall_app. split; [done|]. constructor; [|constructor].
    by exists caller, explored. }
  destruct result; simpl.
  - exists (new1 ++ [(child, set_add caller explored)]).
    by rewrite <- app_assoc.
  - destruct (IH true self1) as (new2 & -> & Hnew2).
    exists (new2 ++ new1 ++ [(child, set_add caller explored)]).
    rewrite H1, <- !app_assoc. split; [done|]. by apply Forall_app.
  - destruct (IH cutoff self1) as (new2 & -> & Hnew2).
    exists (new2 ++ new1 ++ [(child, set_add caller explored)]).
    rewrite H1, <- !app_assoc. split; [done|]. by apply Forall_app.
  - exists (new1 ++ [(child, set_add caller explored)]).
    by rewrite <- app_assoc.
Qed.

(** What does hold of the pruning: below the call it is given,
    [recursive_dls] calls itself only on children that [in] does not find
    in the explored set of the caller. *)
Lemma recursive_dls_calls p limit node explored self :
  ∃ new, IDPlayer.calls (snd (IDPlayer.recursive_dls p limit node explored self))
         = new ++ (node, explored) :: IDPlayer.calls self
         ∧ Forall filtered_call new.
Proof.
  revert node explored self.
  induction limit as [|limit IH]; intros node explored self;
    cbn [IDPlayer.recursive_dls].
  - exists []. destruct (is_goal_state (state node)); [|done].
    by destruct (unwrap_solution (Some node)).
  - destruct (is_goal_state (state node)).
    { exists []. by destruct (unwrap_solution (Some node)). }
    destruct (child_nodes p node _) as [|childs]; [by exists []|].
    apply (for_children_calls (IDPlayer.recursive_dls p limit) node explored);
      [done|].
    apply Forall_forall. by intros c [Hc _]%list_elem_of_filter.
Qed.

(** C5, on the code: [recursive_dls] drops the children it finds in
    [explored_nodes] ([recursive_dls_calls]), and finding goes by [__eq__],
    which does not know the root's state in a child.  In [detour] iterative
    deepening, at depth limit 2, goes east and back west: it calls
    [recursive_dls] on [detour_back], whose location and remaining bananas
    are the root's, with an explored set that holds the root. *)
Theorem depth_limited_search_reenters_root_state :
  let run := IDPlayer.iterative_deepening_search detour
               (IDPlayer.mkPlayer 0 0 [] []) in
  (detour_back, [initial_node detour; detour_east]) ∈ IDPlayer.calls (snd run)
  ∧ initial_node detour ∈ [initial_node detour; detour_east]
  ∧ same_state (initial_node detour) detour_back
  ∧ in_set detour_back [initial_node detour] = false.
Proof.
  split; [|split; [|split]].
  - apply list_elem_of_In. vm_compute. tauto.
  - constructor.
  - split; [done|]. simpl. set_solver.
  - done.
Qed.

(** ** The frontier is a heap *)

Lemma node_le_spec a b :
  node_le a b ↔
  path_cost a + heuristic_cost a < path_cost b + heuristic_cost b
  ∨ (path_cost a + heuristic_cost a = path_cost b + heuristic_cost b
     ∧ len (remaining_bananas (state a)) <= len (remaining_bananas (state b))).
Proof.
  unfold node_le, node_lt.
  destruct (Z.eqb_spec (path_cost b + heuristic_cost b)
                       (path_cost a + heuristic_cost a)) as [Heq|Hne].
  - rewrite Z.ltb_ge. lia.
  - rewrite Z.ltb_ge. lia.
Qed.

Lemma node_le_refl a : node_le a a.
Proof. apply node_le_spec. lia. Qed.

Lemma node_le_trans a b c : node_le a b → node_le b c → node_le a c.
Proof. rewrite !node_le_spec. lia. Qed.

Lemma node_lt_le a b : node_lt a b = true → node_le a b.
Proof.
  intros Hlt. apply node_le_spec. unfold node_lt in Hlt.
  destruct (Z.eqb_spec (path_cost a + heuristic_cost a)
                       (path_cost b + heuristic_cost b)) as [Heq|Hne].
  - apply Z.ltb_lt in Hlt. lia.
  - apply Z.ltb_lt in Hlt. lia.
Qed.

Lemma heap_parent_lt i : (0 < i)%nat → (heap_parent i < i)%nat.
Proof.
  intros Hi. unfold heap_parent.
  pose proof (Nat.div_mod_eq (i - 1) 2). lia.
Qed.

Lemma heap_parent_children c pos :
  (0 < c)%nat → heap_parent c = pos ↔ c = (2 * pos + 1)%nat ∨ c = (2 * pos + 2)%nat.
Proof.
  intros Hc. unfold heap_parent.
  pose proof (Nat.div_mod_eq (c - 1) 2) as Hdm.
  pose proof (Nat.mod_upper_bound (c - 1) 2) as Hm.
  split.
  - intros <-. lia.
  - intros [-> | ->].
    + replace (2 * pos + 1 - 1)%nat with (pos * 2)%nat by lia.
      by rewrite Nat.div_mul.
    + replace (2 * pos + 2 - 1)%nat with (1 + pos * 2)%nat by lia.
      by rewrite Nat.div_add.
Qed.

(** The first entry of a heap comes before none of the others. *)
Lemma heap_ok_top heap top :
  heap_ok heap → heap !! 0%nat = Some top →
  ∀ i e, heap !! i = Some e → node_le top e.
Proof.
  intros Hok Htop i. induction (lt_wf i) as [i _ IH]. intros e He.
  destruct (decide (i = 0%nat)) as [->|Hi].
  { rewrite Htop in He. injection He as <-. apply node_le_refl. }
  pose proof (heap_parent_lt i ltac:(lia)) as Hlt.
  destruct (heap !! heap_parent i) as [par|] eqn:Hpar.
  - eapply node_le_trans; [by apply (IH (heap_parent i))|].
    eapply Hok; [|done..]. lia.
  - apply lookup_ge_None in Hpar. apply lookup_lt_Some in He. lia.
Qed.

(** Filling the hole with an entry that fits. *)
Lemma fill_hole_ok heap pos item :
  hole_ok heap pos → below_children heap pos item →
  (pos = 0%nat ∨ ∃ par, heap !! heap_parent pos = Some par ∧ node_le par item) →
  heap_ok (<[pos := item]> heap).
Proof.
  intros [Hrest _] Hbelow Habove i e par Hi He Hpar.
  pose proof (heap_parent_lt i Hi) as Hlt.
  destruct (decide (i = pos)) as [->|Hne].
  - apply lookup_lt_Some in He as Hlen. rewrite length_insert in Hlen.
    rewrite list_lookup_insert_eq in He by done. injection He as <-.
    rewrite list_lookup_insert_ne in Hpar by lia.
    destruct Habove as [->|(par' & Hpar' & Hle)]; [lia|]. congruence.
  - rewrite list_lookup_insert_ne in He by done.
    destruct (decide (heap_parent i = pos)) as [Heq|Hnp].
    + apply lookup_lt_Some in Hpar as Hlen. rewrite length_insert in Hlen.
      rewrite Heq, list_lookup_insert_eq in Hpar by lia.
      injection Hpar as <-. by eapply Hbelow.
    + rewrite list_lookup_insert_ne in Hpar by done. by eapply Hrest.
Qed.

Lemma siftdown_loop_ok fuel heap pos newitem :
  (pos ≤ fuel)%nat → (pos < length heap)%nat →
  hole_ok heap pos → below_children heap pos newitem →
  heap_ok (PriorityQueue.siftdown_loop fuel heap 0 pos newitem).
Proof.
  revert heap pos.
  induction fuel as [|fuel IH]; intros heap pos Hfuel Hlen Hhole Hbelow;
    cbn [PriorityQueue.siftdown_loop].
  { apply fill_hole_ok; [done..|]. left. lia. }
  case_bool_decide as Hpos; [|apply fill_hole_ok; [done..|left; lia]].
  fold (heap_parent pos). pose proof (heap_parent_lt pos Hpos) as Hlt.
  destruct (heap !! heap_parent pos) as [par|] eqn:Hpar;
    [|apply lookup_ge_None in Hpar; lia].
  destruct (node_lt newitem par) eqn:Hcmp;
    [|apply fill_hole_ok; [done..|right; by exists par]].
  destruct Hhole as [Hrest Hchildren].
  assert (∀ c e, (0 < c)%nat → c ≠ pos → heap_parent c = heap_parent pos →
                 heap !! c = Some e → node_le par e) as Hsibling.
  { intros c e Hc Hcp Hpc He. eapply Hrest; [done|done|lia|done|].
    by rewrite Hpc. }
  apply IH; [lia|rewrite length_insert; lia| |].
  - split.
    + intros i e par' Hi Hne Hnp He Hpar'.
      pose proof (heap_parent_lt i Hi) as Hlti.
      destruct (decide (i = pos)) as [->|Hip]; [done|].
      rewrite list_lookup_insert_ne in He by done.
      destruct (decide (heap_parent i = pos)) as [Heq|Hnq].
      * rewrite Heq, list_lookup_insert_eq in Hpar' by done.
        injection Hpar' as <-. by eapply Hchildren.
      * rewrite list_lookup_insert_ne in Hpar' by done. by eapply Hrest.
    + intros c e gp Hpp Hc Hpc He Hgp.
      pose proof (heap_parent_lt (heap_parent pos) Hpp) as Hltp.
      rewrite list_lookup_insert_ne in Hgp by lia.
      assert (node_le gp par) as Hgpar.
      { eapply (Hrest (heap_parent pos)); [done|lia|lia|done..]. }
      destruct (decide (c = pos)) as [->|Hcp].
      * rewrite list_lookup_insert_eq in He by done. by injection He as <-.
      * rewrite list_lookup_insert_ne in He by done.
        eapply node_le_trans; [done|]. by eapply Hsibling.
  - intros c e Hc Hpc He.
    destruct (decide (c = pos)) as [->|Hcp].
    + rewrite list_lookup_insert_eq in He by done. injection He as <-.
      by apply node_lt_le.
    + rewrite list_lookup_insert_ne in He by done.
      eapply node_le_trans; [by apply node_lt_le|]. by eapply Hsibling.
Qed.

Lemma hole_ok_insert heap hole item :
  hole_ok heap hole → hole_ok (<[hole := item]> heap) hole.
Proof.
  intros [Hrest Hchildren]. split.
  - intros i e par Hi Hne Hnp He Hpar.
    rewrite list_lookup_insert_ne in He, Hpar by done. by eapply Hrest.
  - intros c e par Hh Hc Hpc He Hpar.
    pose proof (heap_parent_lt c Hc). pose proof (heap_parent_lt hole Hh).
    rewrite list_lookup_insert_ne in He, Hpar by lia. by eapply Hchildren.
Qed.

Lemma siftdown_loop_elem fuel heap pos newitem e :
  (pos < length heap)%nat → e ∈ <[pos := newitem]> heap →
  e ∈ PriorityQueue.siftdown_loop fuel heap 0 pos newitem.
Proof.
  revert heap pos.
  induction fuel as [|fuel IH]; intros heap pos Hlen He;
    cbn [PriorityQueue.siftdown_loop]; [done|].
  case_bool_decide as Hpos; [|done].
  fold (heap_parent pos). pose proof (heap_parent_lt pos Hpos) as Hlt.
  destruct (heap !! heap_parent pos) as [par|] eqn:Hpar; [|done].
  destruct (node_lt newitem par); [|done].
  apply IH; [rewrite length_insert; lia|].
  apply list_elem_of_lookup in He as [k Hk]. apply list_elem_of_lookup.
  destruct (decide (k = pos)) as [->|Hkp].
  - rewrite list_lookup_insert_eq in Hk by done. injection Hk as <-.
    exists (heap_parent pos).
    apply list_lookup_insert_eq. rewrite length_insert. lia.
  - rewrite list_lookup_insert_ne in Hk by done.
    destruct (decide (k = heap_parent pos)) as [->|Hkq].
    + exists pos. rewrite list_lookup_insert_ne by lia.
      rewrite list_lookup_insert_eq by done. congruence.
    + exists k. by rewrite !list_lookup_insert_ne by done.
Qed.

Lemma put_ok heap item : heap_ok heap → heap_ok (PriorityQueue.put heap item).
Proof.
  intros Hok. unfold PriorityQueue.put, PriorityQueue.siftdown.
  rewrite list_lookup_middle by done.
  apply siftdown_loop_ok; [done|rewrite length_app; simpl; lia| |].
  - split.
    + intros i e par Hi Hne Hnp He Hpar.
      apply lookup_lt_Some in He as Hli. apply lookup_lt_Some in Hpar as Hlp.
      rewrite length_app in Hli, Hlp. simpl in Hli, Hlp.
      rewrite lookup_app_l in He, Hpar by lia. by eapply Hok.
    + intros c e par Hh Hc Hpc He Hpar.
      apply lookup_lt_Some in He. rewrite length_app in He. simpl in He.
      apply heap_parent_children in Hpc; lia.
  - intros c e Hc Hpc He.
    apply lookup_lt_Some in He. rewrite length_app in He. simpl in He.
    apply heap_parent_children in Hpc; lia.
Qed.

Lemma put_elem heap item e :
  e ∈ item :: heap → e ∈ PriorityQueue.put heap item.
Proof.
  intros He. unfold PriorityQueue.put, PriorityQueue.siftdown.
  rewrite list_lookup_middle by done.
  apply siftdown_loop_elem; [rewrite length_app; simpl; lia|].
  rewrite list_insert_id by (by apply list_lookup_middle).
  apply elem_of_app. apply elem_of_cons in He as [->|He]; [right|by left].
  constructor.
Qed.

Lemma siftup_loop_ok fuel heap pos :
  (pos < length heap)%nat → (length heap ≤ fuel + pos)%nat → hole_ok heap pos →
  hole_ok (fst (PriorityQueue.siftup_loop fuel heap pos))
          (snd (PriorityQueue.siftup_loop fuel heap pos))
  ∧ length (fst (PriorityQueue.siftup_loop fuel heap pos)) = length heap
  ∧ (snd (PriorityQueue.siftup_loop fuel heap pos) < length heap)%nat
  ∧ (length heap ≤ 2 * snd (PriorityQueue.siftup_loop fuel heap pos) + 1)%nat.
Proof.
  revert heap pos.
  induction fuel as [|fuel IH]; intros heap pos Hlen Hfuel Hhole;
    cbn [PriorityQueue.siftup_loop].
  { simpl. repeat split; try done; try apply Hhole; lia. }
  case_bool_decide as Hchild; [|simpl; repeat split; try done; try apply Hhole; lia].
  destruct (heap !! (2 * pos + 1)%nat) as [l|] eqn:Hl;
    [|apply lookup_ge_None in Hl; lia].
  set (cp := match heap !! (2 * pos + 1 + 1)%nat with
             | Some r => if negb (node_lt l r) then (2 * pos + 1 + 1)%nat
                         else (2 * pos + 1)%nat
             | None => (2 * pos + 1)%nat
             end).
  assert (∃ c, heap !! cp = Some c
               ∧ heap_parent cp = pos ∧ (0 < cp)%nat
               ∧ ∀ s e, (0 < s)%nat → s ≠ cp → heap_parent s = pos →
                        heap !! s = Some e → node_le c e)
    as (c & Hc & Hcpar & Hcpos & Hsmall).
  { subst cp. destruct (heap !! (2 * pos + 1 + 1)%nat) as [r|] eqn:Hr.
    - destruct (node_lt l r) eqn:Hlr; cbn [negb].
      + exists l. split; [done|]. split; [apply heap_parent_children; lia|].
        split; [lia|]. intros s e Hs Hne Hps He.
        apply heap_parent_children in Hps; [|done].
        destruct Hps as [->| ->]; [done|].
        replace (2 * pos + 2)%nat with (2 * pos + 1 + 1)%nat in He by lia.
        rewrite Hr in He. injection He as <-. by apply node_lt_le.
      + exists r. split; [done|]. split; [apply heap_parent_children; lia|].
        split; [lia|]. intros s e Hs Hne Hps He.
        apply heap_parent_children in Hps; [|done].
        destruct Hps as [->| ->]; [|lia].
        rewrite Hl in He. by injection He as <-.
    - exists l. split; [done|]. split; [apply heap_parent_children; lia|].
      split; [lia|]. intros s e Hs Hne Hps He.
      apply heap_parent_children in Hps; [|done].
      destruct Hps as [->| ->]; [done|].
      replace (2 * pos + 2)%nat with (2 * pos + 1 + 1)%nat in He by lia.
      congruence. }
  rewrite Hc.
  assert (pos < cp)%nat as Hpc.
  { pose proof (heap_parent_lt cp Hcpos). lia. }
  apply lookup_lt_Some in Hc as Hcl.
  destruct Hhole as [Hrest Hchildren].
  destruct (IH (<[pos := c]> heap) cp) as (H1 & H2 & H3 & H4).
  - by rewrite length_insert.
  - rewrite length_insert. lia.
  - split.
    + intros i e par Hi Hne Hnp He Hpar.
      pose proof (heap_parent_lt i Hi) as Hlti.
      destruct (decide (i = pos)) as [->|Hip].
      * rewrite list_lookup_insert_eq in He by done. injection He as <-.
        rewrite list_lookup_insert_ne in Hpar by lia.
        by eapply (Hchildren cp).
      * rewrite list_lookup_insert_ne in He by done.
        destruct (decide (heap_parent i = pos)) as [Heq|Hnq].
        -- rewrite Heq, list_lookup_insert_eq in Hpar by done.
           injection Hpar as <-. by eapply Hsmall.
        -- rewrite list_lookup_insert_ne in Hpar by done. by eapply Hrest.
    + intros d e par _ Hd Hpd He Hpar.
      pose proof (heap_parent_lt d Hd) as Hltd.
      rewrite Hcpar, list_lookup_insert_eq in Hpar by done.
      injection Hpar as <-.
      rewrite list_lookup_insert_ne in He by lia.
      eapply (Hrest d); [done|lia|lia|done|]. by rewrite Hpd.
  - rewrite length_insert in H2, H3, H4. done.
Qed.

Lemma get_ok heap item heap' :
  heap_ok heap → PriorityQueue.get heap = Some (item, heap') → heap_ok heap'.
Proof.
  intros Hok. unfold PriorityQueue.get.
  destruct (last heap) as [lastelt|] eqn:Hlast; [|done].
  apply last_Some in Hlast as [front ->]. rewrite removelast_last.
  destruct front as [|returnitem rest]; intros [= <- <-].
  { intros i e par Hi He. done. }
  unfold PriorityQueue.siftup. simpl lookup. cbn match.
  assert (hole_ok (lastelt :: rest) 0) as Hhole.
  { split; [|intros; lia].
    intros i e par Hi _ Hnp He Hpar.
    destruct i as [|i]; [lia|].
    destruct (heap_parent (S i)) as [|q] eqn:Hq; [done|].
    simpl in He, Hpar.
    eapply (Hok (S i)); [lia| |rewrite Hq].
    - simpl. by apply lookup_app_l_Some.
    - simpl. by apply lookup_app_l_Some. }
  pose proof (siftup_loop_ok (length (lastelt :: rest)) (lastelt :: rest) 0)
    as Hup.
  destruct (PriorityQueue.siftup_loop (length (lastelt :: rest))
                                      (lastelt :: rest) 0) as [h1 p1].
  simpl fst in Hup. simpl snd in Hup.
  destruct Hup as (Hh1 & Hlen1 & Hp1 & Hleaf); [simpl; lia|lia|done|].
  unfold PriorityQueue.siftdown.
  rewrite list_lookup_insert_eq by lia.
  apply siftdown_loop_ok; [done|rewrite length_insert; lia| |].
  - by apply hole_ok_insert.
  - intros c e Hc Hpc He. apply lookup_lt_Some in He.
    rewrite length_insert in He. apply heap_parent_children in Hpc; lia.
Qed.

Lemma get_top heap top :
  heap !! 0%nat = Some top → ∃ heap', PriorityQueue.get heap = Some (top, heap').
Proof.
  intros Htop. unfold PriorityQueue.get.
  destruct (last heap) as [lastelt|] eqn:Hlast.
  - apply last_Some in Hlast as [front ->]. rewrite removelast_last.
    destruct front as [|returnitem rest]; simpl in Htop; injection Htop as <-;
      eauto.
  - apply last_None in Hlast. by subst.
Qed.

(** ** Uniform-cost search on the rewarded corridor never ends *)

Lemma improves_total d child cost :
  ∃ b, improves d child cost = inr b
       ∧ (b = false → ∃ kv, kv ∈ d ∧ snd kv <= cost).
Proof.
  unfold improves. destruct (in_list child (keys d)) eqn:Hin; simpl.
  2:{ exists true. by split. }
  unfold dict_get.
  destruct (find (fun kv => same_key (fst kv) child) d) as [kv|] eqn:Hfind.
  - apply find_some in Hfind as [Hkv _]. exists (cost <? snd kv). split; [done|].
    intros Hlt%Z.ltb_ge. exists kv. split; [by apply list_elem_of_In|done].
  - exfalso. unfold in_list, keys in Hin.
    apply existsb_exists in Hin as (k & Hk & Heq).
    apply in_map_iff in Hk as (kv & <- & Hkv).
    pose proof (find_none _ _ Hfind kv Hkv) as Hno. simpl in Hno.
    rewrite same_key_node_eq in Hno. congruence.
Qed.

Lemma dict_set_Forall (P : Z → Prop) d k v :
  Forall (fun kv => P (snd kv)) d → P v →
  Forall (fun kv => P (snd kv)) (dict_set d k v).
Proof.
  intros Hd Hv. induction Hd as [|[k' v'] d Hkv Hd IH]; simpl.
  { by repeat constructor. }
  destruct (same_key k' k); constructor; done.
Qed.

Lemma visit_expanding m st c :
  expanding m st → child_ok m c →
  ∃ st', UCPlayer.visit st c = inr st'
         ∧ expanding m st'
         ∧ (pushed m st → pushed m st')
         ∧ (fresh m st →
            (path_cost c = m - 1 → pushed m st')
            ∧ (path_cost c ≠ m - 1 → fresh m st')).
Proof.
  intros (Hheap & Hentries & Hreached & Hsol) (Hrow & Hcost).
  unfold UCPlayer.visit.
  destruct (improves_total (reached st) c (path_cost c)) as (b & -> & Hb).
  destruct b.
  - assert (entry_ok (m - 1) c) as Hentry.
    { split; [done|]. split; [lia|]. intros Hg.
      destruct Hcost as [[_ Hng]| ->]; [congruence|lia]. }
    assert (pushed m st →
            pushed m (mkSearch (PriorityQueue.put (frontier st) c)
                        (dict_set (reached st) c (path_cost c))
                        (solution st) (solution_node st)
                        (S (counter st)))) as Hkeep.
    { intros (e & He & Hec). exists e. split; [|done].
      apply put_elem. by right. }
    assert (∀ sol node,
               lt_number (m - 1) sol = true →
               let st' := mkSearch (PriorityQueue.put (frontier st) c)
                            (dict_set (reached st) c (path_cost c))
                            sol node (S (counter st)) in
               expanding m st'
               ∧ (pushed m st → pushed m st')
               ∧ (fresh m st →
                  (path_cost c = m - 1 → pushed m st')
                  ∧ (path_cost c ≠ m - 1 → fresh m st'))) as Hpost.
    { intros sol node Hlt. simpl. split; [|split].
      - split; [by apply put_ok|]. split; [by apply put_Forall|].
        split; [|done]. apply (dict_set_Forall (fun v => m - 1 <= v)); [done|lia].
      - intros (e & He & Hec). exists e. split; [|done].
        apply put_elem. by right.
      - intros Hfresh. split.
        + intros Hc. exists c. split; [|done]. apply put_elem. by left.
        + intros Hc. apply (dict_set_Forall (fun v => m <= v)); [done|lia]. }
    destruct (is_goal_state (state c) && lt_number (path_cost c) (solution st))
      eqn:Hgoal.
    + eexists. split; [done|]. apply Hpost. simpl.
      apply andb_true_iff in Hgoal as [Hg _].
      destruct Hcost as [[_ Hng]|Hc]; [congruence|]. apply Z.ltb_lt. lia.
    + eexists. split; [done|]. by apply Hpost.
  - eexists. split; [done|]. split; [done|]. split; [done|].
    intros Hfresh. split; [|done].
    intros Hc. destruct (Hb eq_refl) as (kv & Hkv & Hle).
    eapply Forall_forall in Hfresh; [|done]. simpl in Hfresh. lia.
Qed.

Lemma for_each_expanding m st cs :
  expanding m st → Forall (child_ok m) cs →
  pushed m st ∨ (fresh m st ∧ Exists (fun c => path_cost c = m - 1) cs) →
  ∃ st', for_each UCPlayer.visit st cs = inr st'
         ∧ expanding m st' ∧ pushed m st'.
Proof.
  intros Hst Hcs. revert st Hst.
  induction Hcs as [|c cs Hc Hcs IH]; intros st Hst Hprog; simpl.
  { destruct Hprog as [Hp|[_ Hex]]; [by exists st|by apply Exists_nil in Hex]. }
  destruct (visit_expanding m st c Hst Hc) as (st1 & -> & Hst1 & Hkeep & Hnew).
  apply IH; [done|].
  destruct Hprog as [Hp|[Hfresh Hex]]; [left; by apply Hkeep|].
  destruct (Hnew Hfresh) as [Hpush Hstay].
  destruct (decide (path_cost c = m - 1)) as [Heq|Hne]; [left; by apply Hpush|].
  right. split; [by apply Hstay|].
  apply Exists_cons in Hex as [Hex|Hex]; [done|done].
Qed.

Lemma child_node_available p node a :
  a ∈ available_actions_for p (state node) →
  ∃ c, child_node p node a = inr c.
Proof.
  intros Ha. unfold child_node, successor.
  rewrite bool_decide_eq_true_2 by done. eauto.
Qed.

Lemma child_node_heuristic p node a c :
  child_node p node a = inr c →
  heuristic_cost c
  = heuristic_func p (plain_node (current_location (state c))
                                 (remaining_bananas (state c))).
Proof.
  unfold child_node. destruct (successor p (state node) a) as [s|]; [|done].
  intros [= <-]. unfold new_node, plain_node. simpl. by rewrite !coordinate_eta.
Qed.

(** Expanding a node gives one child for each available action. *)
Lemma child_nodes_total p node actions :
  Forall (fun a => a ∈ available_actions_for p (state node)) actions →
  ∃ cs, child_nodes p node actions = inr cs
        ∧ Forall (fun c => ∃ a, a ∈ actions ∧ child_node p node a = inr c) cs
        ∧ ∀ a, a ∈ actions → ∃ c, c ∈ cs ∧ child_node p node a = inr c.
Proof.
  induction 1 as [|a actions Ha Hact (cs & Hcs & Hfrom & Hto)]; simpl.
  { exists []. split; [done|]. split; [constructor|]. intros a Ha.
    by apply elem_of_nil in Ha. }
  destruct (child_node_available p node a Ha) as [c Hc]. rewrite Hc, Hcs.
  exists (c :: cs). split; [done|]. split.
  - constructor.
    + exists a. split; [constructor|done].
    + eapply Forall_impl; [done|]. intros c' (a' & Ha' & Hc').
      exists a'. split; [by constructor|done].
  - intros a' [->|Ha']%elem_of_cons.
    + exists c. split; [constructor|done].
    + destruct (Hto a' Ha') as (c' & Hc' & Hcc). exists c'.
      split; [by constructor|done].
Qed.

Lemma is_empty_false_elem c : is_empty c = false → ∃ b, b ∈ iterate c.
Proof.
  destruct c as [s|l]; simpl.
  - intros Hs%bool_decide_eq_false.
    apply set_choose_L in Hs as [b Hb]. exists b. by apply elem_of_elements.
  - destruct l as [|b l]; [done|]. intros _. exists b. constructor.
Qed.

Lemma rewarded_run_available top a :
  a ∈ available_actions_for rewarded_run (state top) ↔
  (a = East ∨ a = West)
  ∧ 0 <= x (move (current_location (state top)) a) < 4
  ∧ y (move (current_location (state top)) a) = 0.
Proof.
  unfold available_actions_for. rewrite list_elem_of_filter.
  unfold is_inside_grid_map. simpl.
  rewrite !andb_true_iff, !Z.leb_le, !Z.ltb_lt.
  rewrite !elem_of_cons, elem_of_nil. unfold x, y. simpl.
  split.
  - intros [[Hin _] [->|[->|Hnil]]];
      [| |by apply elem_of_nil in Hnil]; (split; [auto|simpl in *; lia]).
  - intros [Ha Hin]. split; [split; [|tauto]|].
    + destruct Ha as [->| ->]; simpl in *; lia.
    + destruct Ha as [->| ->]; auto.
Qed.

(** The children of a frontier entry of path cost [m] that is not in a goal
    state: all are fit to be visited, and one of them costs [m - 1]. *)
Lemma rewarded_run_children m top :
  in_row top → is_goal_state (state top) = false → path_cost top = m →
  ∃ cs, child_nodes rewarded_run top
          (available_actions_for rewarded_run (state top)) = inr cs
        ∧ Forall (child_ok m) cs
        ∧ Exists (fun c => path_cost c = m - 1) cs.
Proof.
  intros (Hh & (k & Hk & Hloc) & Hrem) Hng Hm.
  destruct (child_nodes_total rewarded_run top
              (available_actions_for rewarded_run (state top)))
    as (cs & Hcs & Hfrom & Hto); [by apply Forall_forall|].
  exists cs. split; [done|].
  assert (∀ a c, child_node rewarded_run top a = inr c →
                 contains (remaining_bananas (state top))
                          (move (current_location (state top)) a) = false →
                 path_cost c = m - 1 ∧ is_goal_state (state c) = false)
    as Hplain.
  { intros a c Hc Hmiss.
    apply child_node_inv in Hc as (_ & Hst & _ & _ & Hpc).
    rewrite Hmiss in Hpc. simpl in Hpc. split; [lia|].
    rewrite Hst. unfold is_goal_state. simpl.
    destruct (is_empty_false_elem _ Hng) as [b Hb].
    assert (b ∈ filter (fun banana => banana ≠ move (current_location (state top)) a)
                       (iterate (remaining_bananas (state top)))) as Hbf.
    { apply list_elem_of_filter. split; [|done]. intros ->.
      apply contains_spec in Hb. congruence. }
    by destruct (filter _ _); [apply elem_of_nil in Hbf|]. }
  split.
  - eapply Forall_impl; [done|]. intros c (a & Ha & Hc).
    apply rewarded_run_available in Ha as (_ & Hx & Hy).
    pose proof (child_node_heuristic _ _ _ _ Hc) as Hhc.
    pose proof Hc as Hinv.
    apply child_node_inv in Hinv as (_ & Hst & _ & _ & Hpc).
    split.
    + split; [done|]. rewrite Hst. simpl. split.
      * exists (x (move (current_location (state top)) a)). split; [done|].
        destruct (move _ _) as [mx my]. unfold x, y in *. simpl in *.
        by subst.
      * intros b. rewrite elem_of_list_to_set, list_elem_of_filter,
          elem_of_iterate. intros [_ Hb]. by apply Hrem.
    + destruct (contains _ _) eqn:Hcon.
      * right. simpl in Hpc. lia.
      * left. by eapply Hplain.
  - set (a := if decide (k = 0) then East else West).
    assert (a ∈ available_actions_for rewarded_run (state top)) as Ha.
    { apply rewarded_run_available. rewrite Hloc. subst a.
      destruct (decide (k = 0)); unfold move, x, y; simpl; (split; [auto|lia]). }
    destruct (Hto a Ha) as (c & Hc & Hcc).
    apply Exists_exists. exists c. split; [done|].
    eapply Hplain; [done|].
    apply not_true_is_false. intros Hcon%contains_spec%elem_of_iterate.
    apply Hrem in Hcon. apply elem_of_singleton in Hcon.
    rewrite Hloc in Hcon. subst a.
    destruct (decide (k = 0)); unfold move, x, y in Hcon; simpl in Hcon;
      injection Hcon; lia.
Qed.

(** One turn of the loop takes the best entry, of path cost [m], off the
    frontier and leaves a best entry of path cost [m - 1]. *)
Lemma rewarded_run_turn m st :
  descending m st →
  ∃ st', UCPlayer.turn rewarded_run st = inr st' ∧ descending (m - 1) st'.
Proof.
  intros (Hheap & (top & Htop & Hm) & Hentries & Hreached & Hsol).
  destruct (get_top _ _ Htop) as [frontier' Hget].
  unfold UCPlayer.turn.
  replace (PriorityQueue.empty (frontier st)) with false
    by (by destruct (frontier st)).
  rewrite Hget. cbn [solution path_cost].
  rewrite Hm, Hsol.
  destruct (get_Forall _ _ _ _ Hget Hentries) as [(Hrow & _ & Hgoal) Hrest].
  assert (is_goal_state (state top) = false) as Hng.
  { apply not_true_is_false. intros Hg%Hgoal. lia. }
  destruct (rewarded_run_children m top Hrow Hng Hm) as (cs & -> & Hcs & Hex).
  destruct (for_each_expanding m
              (mkSearch frontier' (reached st) (solution st)
                        (solution_node st) (counter st)) cs)
    as (st' & -> & (Hheap' & Hentries' & Hreached' & Hsol') & He); [|done| |].
  - split; [by eapply get_ok|]. split; [|split]; simpl.
    + eapply Forall_impl; [done|]. intros e (? & ? & Hg).
      split; [done|]. split; [lia|]. intros ?%Hg. lia.
    + eapply Forall_impl; [done|]. simpl. lia.
    + destruct (solution st); [|done]. simpl in *.
      apply Z.ltb_lt in Hsol. apply Z.ltb_lt. lia.
  - right. split; [done|]. done.
  - exists st'. split; [done|].
    destruct He as (e & He & Hec).
    destruct (frontier st') as [|top' rest] eqn:Hfr;
      [by apply elem_of_nil in He|].
    unfold descending. rewrite Hfr.
    split; [done|]. split; [|done].
    exists top'. split; [done|].
    apply Forall_cons in Hentries' as Htop'. destruct Htop' as [(Hrt & Hge & _) _].
    eapply Forall_forall in Hentries' as (Hre & _); [|exact He].
    apply list_elem_of_lookup in He as [i Hi].
    pose proof (heap_ok_top _ top' Hheap' eq_refl i e Hi) as Hle.
    apply node_le_spec in Hle.
    destruct Hrt as (Hh1 & _). destruct Hre as (Hh2 & _). lia.
Qed.

Lemma rewarded_run_loop fuel m st :
  descending m st → fst (UCPlayer.loop rewarded_run fuel st) = OutOfFuel.
Proof.
  revert m st. induction fuel as [|fuel IH]; intros m st Hst; simpl; [done|].
  destruct (rewarded_run_turn m st Hst) as (st' & -> & Hst'). by eapply IH.
Qed.

(** With step cost -1 and reward 10 uniform-cost search on the corridor
    runs for as long as it is given fuel: the best path cost on the
    frontier drops by one with every turn of the loop and stays below the
    incumbent's. *)
Lemma rewarded_run_diverges fuel counter0 :
  fst (UCPlayer.uniform_cost_search rewarded_run fuel counter0) = OutOfFuel.
Proof.
  unfold UCPlayer.uniform_cost_search.
  change (is_goal_state (state (initial_node rewarded_run))) with false.
  cbv iota. apply (rewarded_run_loop fuel 0).
  change (PriorityQueue.put [] (initial_node rewarded_run))
    with [initial_node rewarded_run].
  split; [|split; [|split; [|split]]]; simpl.
  - intros i e par Hi He Hpar. destruct i as [|i]; [lia|done].
  - by exists (initial_node rewarded_run).
  - constructor; [|constructor]. split; [|split; [done|done]].
    split; [done|]. split; [by exists 0|]. done.
  - constructor.
  - done.
Qed.

(** ** The corridor of the specification *)

(** With the costs of the specification's scenario, step cost -1 and reward
    10, uniform-cost search does not return East, East, East with the total
    7: it returns nothing at all. *)
Lemma rewarded_run_never_returns :
  ¬ ∃ fuel counter0 c,
      UCPlayer.uniform_cost_search rewarded_run fuel counter0
      = (Returned (mkResult [East; East; East] (Int 7)), c).
Proof.
  intros (fuel & counter0 & c & H).
  pose proof (rewarded_run_diverges fuel counter0) as Hd.
  rewrite H in Hd. discriminate.
Qed.

Lemma east_run_is_UCPlayer_problem :
  UCPlayer_problem (corridor_world 0 3 []) [East; West] = Some east_run.
Proof. vm_compute. reflexivity. Qed.

(** C3, as the code has it: in the corridor of four cells with the agent at
    x = 0, the banana at x = 3 and the actions East and West, [UCPlayer]
    builds a problem with the costs 1 a step and -10 a banana, and on it
    uniform-cost search ends after four turns of its loop, whatever fuel is
    left, and returns East, East, East with the total -7, having counted
    six nodes. *)
Theorem east_run_uniform_cost_search fuel :
  UCPlayer_problem (corridor_world 0 3 []) [East; West] = Some east_run
  ∧ UCPlayer.uniform_cost_search east_run (4 + fuel) 0
    = (Returned (mkResult [East; East; East] (Int (-7))), 6%nat).
Proof.
  split; [apply east_run_is_UCPlayer_problem|].
  apply (uniform_cost_search_more_fuel east_run 4); [|done|lia].
  vm_compute. reflexivity.
Qed.

(** * Further properties *)

(** ** The order and the equality of nodes *)

(** X1: [__lt__] is a strict weak order: no node is less than itself, two
    nodes are never less than each other, and both being less and not
    being less are transitive.  The order goes by the pair of
    [path_cost + heuristic_cost] and the number of remaining bananas. *)
Theorem node_lt_strict_weak_order :
  (∀ a, node_lt a a = false)
  ∧ (∀ a b, node_lt a b = true → node_lt b a = false)
  ∧ (∀ a b c, node_lt a b = true → node_lt b c = true → node_lt a c = true)
  ∧ (∀ a b c, node_lt a b = false → node_lt b c = false → node_lt a c = false)
  ∧ (∀ a b, node_lt a b = true ↔
            path_cost a + heuristic_cost a < path_cost b + heuristic_cost b
            ∨ (path_cost a + heuristic_cost a = path_cost b + heuristic_cost b
               ∧ len (remaining_bananas (state a))
                 < len (remaining_bananas (state b)))).
Proof.
  assert (∀ a b, node_lt a b = true ↔
            path_cost a + heuristic_cost a < path_cost b + heuristic_cost b
            ∨ (path_cost a + heuristic_cost a = path_cost b + heuristic_cost b
               ∧ len (remaining_bananas (state a))
                 < len (remaining_bananas (state b)))) as Hspec.
  { intros a b. unfold node_lt.
    destruct (Z.eqb_spec (path_cost a + heuristic_cost a)
                         (path_cost b + heuristic_cost b));
      rewrite Z.ltb_lt; lia. }
  assert (∀ a b, node_lt a b = false ↔
            ¬ (path_cost a + heuristic_cost a < path_cost b + heuristic_cost b
               ∨ (path_cost a + heuristic_cost a = path_cost b + heuristic_cost b
                  ∧ len (remaining_bananas (state a))
                    < len (remaining_bananas (state b))))) as Hneg.
  { intros a b. rewrite <- Hspec. by destruct (node_lt a b). }
  split; [|split; [|split; [|split]]]; [| | | |done].
  - intros a. apply Hneg. lia.
  - intros a b. rewrite Hspec, Hneg. lia.
  - intros a b c. rewrite !Hspec. lia.
  - intros a b c. rewrite !Hneg. lia.
Qed.

(** X2: [__eq__] is an equivalence of nodes that reads nothing but the
    stored state (location and container of bananas): nodes with the same
    state are equal whatever their cost, action and parent, and equal nodes
    have equal hashes, as a key of a set or dictionary must. *)
Theorem node_eq_equivalence :
  (∀ n, node_eq n n = true)
  ∧ (∀ a b, node_eq a b = node_eq b a)
  ∧ (∀ a b c, node_eq a b = true → node_eq b c = true → node_eq a c = true)
  ∧ (∀ a b, node_eq a b = true ↔ state a = state b)
  ∧ (∀ a b, node_eq a b = true → node_hash a = node_hash b).
Proof.
  split; [apply node_eq_refl|]. split; [apply node_eq_sym|].
  split; [apply node_eq_trans|]. split; [apply node_eq_spec|].
  apply node_eq_hash.
Qed.

(** ** Transitions *)

(** X3: [child_node] builds a child exactly for the available actions.  For
    an available action the child points back to the node with that action;
    for any other action [successor] hands back the unchanged location and
    bananas as a plain tuple, and [child_node] raises [AttributeError]. *)
Theorem child_node_defined_iff_available p node a :
  (a ∈ available_actions_for p (state node) →
   ∃ child, child_node p node a = inr child
            ∧ parent child = Some node ∧ previous_action child = Some a)
  ∧ (a ∉ available_actions_for p (state node) →
     child_node p node a = inl AttributeError
     ∧ components (successor p (state node) a) = state node).
Proof.
  split.
  - intros Ha. destruct (child_node_available p node a Ha) as [child Hc].
    exists child. split; [done|].
    by apply child_node_inv in Hc as (_ & _ & ? & ? & _).
  - intros Ha. unfold child_node, successor.
    rewrite bool_decide_eq_false_2 by done. split; [done|]. simpl.
    by destruct (state node).
Qed.

Lemma successor_available_spec p s a :
  a ∈ available_actions_for p s →
  current_location (components (successor p s a)) = move (current_location s) a
  ∧ frozenset (remaining_bananas (components (successor p s a)))
    = frozenset (remaining_bananas s) ∖ {[ move (current_location s) a ]}
  ∧ is_inside_grid_map p (move (current_location s) a) = true
  ∧ move (current_location s) a ∉ block_locations p.
Proof.
  intros Ha. destruct (successor_inv p s a) as [[_ ->]|[Hna _]]; [|done].
  simpl. split; [done|]. split.
  - apply set_eq. intros b.
    rewrite elem_of_list_to_set, list_elem_of_filter, elem_of_iterate.
    rewrite elem_of_difference, elem_of_singleton. tauto.
  - unfold available_actions_for in Ha.
    by apply list_elem_of_filter in Ha as [[? ?] _].
Qed.

(** X4: for an available action [successor] moves the agent by the action's
    delta to a cell of the grid that is no obstacle, and takes exactly the
    banana of that cell, if there is one, out of the remaining bananas. *)
Theorem successor_available p s a :
  a ∈ available_actions_for p s →
  current_location (components (successor p s a)) = move (current_location s) a
  ∧ frozenset (remaining_bananas (components (successor p s a)))
    = frozenset (remaining_bananas s) ∖ {[ move (current_location s) a ]}
  ∧ is_inside_grid_map p (move (current_location s) a) = true
  ∧ move (current_location s) a ∉ block_locations p.
Proof. apply successor_available_spec. Qed.

Lemma successor_available_witness :
  current_location (components (successor detour (initial_state detour) West))
  = move (current_location (initial_state detour)) West
  ∧ frozenset (remaining_bananas
                 (components (successor detour (initial_state detour) West)))
    = frozenset (remaining_bananas (initial_state detour))
      ∖ {[ move (current_location (initial_state detour)) West ]}
  ∧ is_inside_grid_map detour
      (move (current_location (initial_state detour)) West) = true
  ∧ move (current_location (initial_state detour)) West
    ∉ block_locations detour.
Proof.
  apply (successor_available detour (initial_state detour) West).
  compute_done.
Defined.

Lemma reachable_position p s :
  is_inside_grid_map p (initial_location p) = true →
  initial_location p ∉ block_locations p →
  reachable p s →
  is_inside_grid_map p (current_location s) = true
  ∧ current_location s ∉ block_locations p.
Proof.
  intros Hin Hfree. induction 1 as [|s a _ IH].
  { simpl. by rewrite coordinate_eta. }
  destruct (successor_inv p s a) as [[Ha _]|[_ ->]]; [|done].
  destruct (successor_available_spec p s a Ha) as (-> & _ & ? & ?). done.
Qed.

(** X5: when the agent starts on a cell of the grid that is no obstacle,
    no sequence of transitions, of available or unavailable actions, takes
    it off the grid or onto an obstacle. *)
Theorem agent_stays_on_free_cells p s :
  is_inside_grid_map p (initial_location p) = true →
  initial_location p ∉ block_locations p →
  reachable p s →
  is_inside_grid_map p (current_location s) = true
  ∧ current_location s ∉ block_locations p.
Proof. apply reachable_position. Qed.

Lemma agent_stays_on_free_cells_witness :
  is_inside_grid_map detour (current_location (state detour_east)) = true
  ∧ current_location (state detour_east) ∉ block_locations detour.
Proof.
  apply (agent_stays_on_free_cells detour (state detour_east)).
  - reflexivity.
  - compute_done.
  - replace (state detour_east)
      with (components (successor detour (initial_state detour) East))
      by (vm_compute; reflexivity).
    apply reachable_successor, reachable_initial.
Defined.

(** X6: once the agent has moved, it never stands on a remaining banana:
    a reachable state is the initial state, or its location is none of its
    remaining bananas. *)
Theorem agent_never_on_remaining_banana p s :
  reachable p s →
  s = initial_state p
  ∨ current_location s ∉ frozenset (remaining_bananas s).
Proof.
  induction 1 as [|s a _ IH]; [by left|].
  destruct (successor_inv p s a) as [[Ha _]|[_ ->]]; [|done].
  right. destruct (successor_available_spec p s a Ha) as (-> & -> & _).
  rewrite elem_of_difference, elem_of_singleton. tauto.
Qed.

Lemma agent_never_on_remaining_banana_witness :
  state detour_east = initial_state detour
  ∨ current_location (state detour_east)
    ∉ frozenset (remaining_bananas (state detour_east)).
Proof.
  apply (agent_never_on_remaining_banana detour (state detour_east)).
  replace (state detour_east)
    with (components (successor detour (initial_state detour) East))
    by (vm_compute; reflexivity).
  apply reachable_successor, reachable_initial.
Defined.

(** ** Generated nodes and their paths *)

Lemma len_iterate c : len c = Z.of_nat (length (iterate c)).
Proof. by destruct c. Qed.

Lemma child_node_shape p node a child :
  child_node p node a = inr child →
  ∃ st c h, child = mkNode st c (Some a) (Some node) h.
Proof.
  intros (_ & _ & Hprev & Hpar & _)%child_node_inv.
  destruct child as [st c pa par h]. simpl in *. subst. eauto.
Qed.

Lemma generated_depth p n :
  generated p n →
  ∃ l, collect_actions n = inr l ∧ length l = length (ancestors n).
Proof.
  induction 1 as [|node a child _ (l & Hl & Hlen) _ Hchild].
  - by exists [].
  - apply child_node_shape in Hchild as (st & c & h & ->).
    exists (a :: l). simpl. rewrite Hl. split; [done|]. by rewrite Hlen.
Qed.

(** X7: the path cost of every node a search builds is the step cost for
    each step from the root plus the banana reward for each banana no
    longer remaining; no banana is counted twice. *)
Theorem generated_path_cost p n :
  generated p n →
  path_cost n
  = Z.of_nat (length (ancestors n)) * step_cost p
    + (Z.of_nat (size (banana_locations p)) - len (remaining_bananas (state n)))
      * banana_reward p.
Proof.
  intros Hn. destruct (generated_depth p n Hn) as (l & Hl & <-).
  apply generated_cost in Hn as (_ & l' & Hl' & ->).
  rewrite len_iterate. congruence.
Qed.

Lemma generated_path_cost_witness :
  path_cost detour_back
  = Z.of_nat (length (ancestors detour_back)) * step_cost detour
    + (Z.of_nat (size (banana_locations detour))
       - len (remaining_bananas (state detour_back)))
      * banana_reward detour.
Proof.
  apply (generated_path_cost detour detour_back).
  apply (generated_child detour detour_east West); [|compute_done..].
  apply (generated_child detour (initial_node detour) East); [|compute_done..].
  apply generated_root.
Defined.

(** X8: [unwrap_solution] of a child is [unwrap_solution] of its parent
    followed by the child's action; so the actions come out in the order in
    which they are taken from the root, whose own list is empty. *)
Theorem unwrap_solution_child p node a child l :
  child_node p node a = inr child →
  unwrap_solution (Some node) = inr l →
  unwrap_solution (Some child) = inr (l ++ [a])
  ∧ unwrap_solution (Some (initial_node p)) = inr [].
Proof.
  intros Hc Hl. split; [|done].
  apply child_node_shape in Hc as (st & c & h & ->).
  unfold unwrap_solution in *. simpl.
  destruct (collect_actions node) as [|l']; [done|]. injection Hl as <-.
  done.
Qed.

Lemma unwrap_solution_child_witness :
  unwrap_solution (Some detour_back) = inr ([East] ++ [West])
  ∧ unwrap_solution (Some (initial_node detour)) = inr [].
Proof.
  apply (unwrap_solution_child detour detour_east West detour_back [East]).
  - vm_compute. reflexivity.
  - reflexivity.
Defined.

Lemma executable_app p s l1 l2 :
  executable p s (l1 ++ l2)
  ↔ executable p s l1 ∧ executable p (replay p s l1) l2.
Proof.
  revert s. induction l1 as [|a l1 IH]; intros s; simpl; [tauto|].
  rewrite IH. tauto.
Qed.

Lemma generated_executable p n :
  generated p n →
  ∃ l, collect_actions n = inr l ∧ executable p (initial_state p) (rev l).
Proof.
  induction 1 as [|node a child Hnode (l & Hl & Hex) Ha Hchild].
  - by exists [].
  - apply child_node_shape in Hchild as (st & c & h & ->).
    exists (a :: l). simpl. rewrite Hl. split; [done|].
    apply executable_app. split; [done|]. simpl. split; [|done].
    destruct (generated_replay p node Hnode) as (l' & Hl' & Hrep).
    assert (l' = l) as -> by congruence. by rewrite Hrep.
Qed.

(** ** What the cost-ordered searches return and raise *)

Lemma get_None heap : PriorityQueue.get heap = None → heap = [].
Proof.
  unfold PriorityQueue.get. destruct (last heap) as [lastelt|] eqn:Hlast.
  - by destruct (removelast heap).
  - intros _. by apply last_None.
Qed.

Lemma ucs_visit_total st child : ∃ st', UCPlayer.visit st child = inr st'.
Proof.
  unfold UCPlayer.visit.
  destruct (improves_total (reached st) child (path_cost child)) as (b & -> & _).
  destruct b; [|eauto]. destruct (_ && _); eauto.
Qed.

Lemma astar_visit_total st child : ∃ st', AStarPlayer.visit st child = inr st'.
Proof.
  unfold AStarPlayer.visit.
  destruct (improves_total (reached st) child
              (path_cost child + heuristic_cost child)) as (b & -> & _).
  destruct b; [|eauto]. destruct (_ && _); eauto.
Qed.

Lemma for_each_total visit st children :
  (∀ st child, ∃ st', visit st child = inr st') →
  ∃ st', for_each visit st children = inr st'.
Proof.
  intros Hvisit. revert st.
  induction children as [|child children IH]; intros st; simpl; [eauto|].
  destruct (Hvisit st child) as [st1 ->]. apply IH.
Qed.

Section SearchKey.

Variable p : HungryMonkeyProblem.

Lemma for_each_inv_key key visit st children st' :
  (∀ st child st', search_inv_key p key st → generated p child →
                   visit st child = inr st' → search_inv_key p key st') →
  search_inv_key p key st → Forall (generated p) children →
  for_each visit st children = inr st' → search_inv_key p key st'.
Proof.
  intros Hvisit Hst Hch. revert st Hst.
  induction Hch as [|child children Hc Hch IH]; intros st Hst; simpl.
  { by intros [= <-]. }
  destruct (visit st child) as [|st1] eqn:Hv; [done|]. apply IH. eauto.
Qed.

Lemma unwrap_result_key key st :
  search_inv_key p key st →
  match unwrap_result st with
  | (Returned r, _) => from_node p key r
  | (Raised e, _) => e = AttributeError ∧ solution_node st = None
  | (OutOfFuel, _) => False
  end.
Proof.
  intros [_ Hsol]. unfold unwrap_result.
  destruct (solution_node st) as [n|] eqn:Hn; [|done].
  destruct (Hsol n eq_refl) as (Hgen & Hgoal & Hkey).
  destruct (generated_depth p n Hgen) as (l & Hl & _).
  unfold unwrap_solution. rewrite Hl. exists n. simpl.
  unfold unwrap_solution. by rewrite Hl.
Qed.

Lemma ucs_visit_inv_key st child st' :
  search_inv_key p ucs_key st → generated p child →
  UCPlayer.visit st child = inr st' → search_inv_key p ucs_key st'.
Proof.
  intros [Hfr Hsol] Hc. unfold UCPlayer.visit.
  destruct (improves _ _ _) as [|[]]; [done| |by intros [= <-]].
  destruct (is_goal_state (state child)) eqn:Hg; simpl;
    [destruct (lt_number _ _)|]; intros [= <-]; split; simpl;
    try (by apply put_Forall); try done.
  by intros n [= <-].
Qed.

Lemma astar_visit_inv_key st child st' :
  search_inv_key p astar_key st → generated p child →
  AStarPlayer.visit st child = inr st' → search_inv_key p astar_key st'.
Proof.
  intros [Hfr Hsol] Hc. unfold AStarPlayer.visit.
  destruct (improves _ _ _) as [|[]]; [done| |by intros [= <-]].
  destruct (is_goal_state (state child)) eqn:Hg; simpl;
    [destruct (lt_number _ _)|]; intros [= <-]; split; simpl;
    try (by apply put_Forall); try done.
  by intros n [= <-].
Qed.

Lemma ucs_turn_key st :
  search_inv_key p ucs_key st →
  match UCPlayer.turn p st with
  | inr st' => search_inv_key p ucs_key st'
  | inl (Returned r, _) => from_node p ucs_key r
  | inl (Raised e, _) => e = AttributeError
  | inl (OutOfFuel, _) => False
  end.
Proof.
  intros Hst. unfold UCPlayer.turn.
  destruct (PriorityQueue.empty (frontier st)) eqn:Hempty.
  { pose proof (unwrap_result_key ucs_key st Hst) as Hu.
    destruct (unwrap_result st) as [[r|e|] c]; [done|by destruct Hu|done]. }
  destruct (PriorityQueue.get (frontier st)) as [[par frontier']|] eqn:Hget.
  2:{ apply get_None in Hget. by rewrite Hget in Hempty. }
  destruct Hst as [Hfr Hsol].
  destruct (get_Forall _ _ _ _ Hget Hfr) as [Hpar Hfr'].
  assert (search_inv_key p ucs_key
            (mkSearch frontier' (reached st) (solution st)
                      (solution_node st) (counter st))) as Hst' by done.
  simpl. destruct (lt_number _ _).
  - destruct (child_nodes_total p par (available_actions_for p (state par)))
      as (cs & Hcs & _); [by apply Forall_forall|].
    rewrite Hcs.
    destruct (for_each_total UCPlayer.visit
                (mkSearch frontier' (reached st) (solution st)
                          (solution_node st) (counter st)) cs ucs_visit_total)
      as [st1 Hfe].
    rewrite Hfe.
    eapply for_each_inv_key; [apply ucs_visit_inv_key|exact Hst'| |exact Hfe].
    by eapply expand_generated.
  - pose proof (unwrap_result_key ucs_key _ Hst') as Hu.
    destruct (unwrap_result _) as [[r|e|] c]; [done|by destruct Hu|done].
Qed.

Lemma astar_turn_key st :
  search_inv_key p astar_key st →
  match AStarPlayer.turn p st with
  | inr st' => search_inv_key p astar_key st'
  | inl (Returned r, _) => from_node p astar_key r
  | inl (Raised e, _) => e = AttributeError
  | inl (OutOfFuel, _) => False
  end.
Proof.
  intros Hst. unfold AStarPlayer.turn.
  destruct (PriorityQueue.empty (frontier st)) eqn:Hempty.
  { pose proof (unwrap_result_key astar_key st Hst) as Hu.
    destruct (unwrap_result st) as [[r|e|] c]; [done|by destruct Hu|done]. }
  destruct (PriorityQueue.get (frontier st)) as [[par frontier']|] eqn:Hget.
  2:{ apply get_None in Hget. by rewrite Hget in Hempty. }
  destruct Hst as [Hfr Hsol].
  destruct (get_Forall _ _ _ _ Hget Hfr) as [Hpar Hfr'].
  assert (∀ c', search_inv_key p astar_key
            (mkSearch frontier' (reached st) (solution st)
                      (solution_node st) c')) as Hst' by done.
  simpl. destruct (lt_number _ _).
  - destruct (child_nodes_total p par (available_actions_for p (state par)))
      as (cs & Hcs & _); [by apply Forall_forall|].
    rewrite Hcs.
    destruct (for_each_total AStarPlayer.visit
                (mkSearch frontier' (reached st) (solution st)
                          (solution_node st) (S (counter st))) cs
                astar_visit_total) as [st1 Hfe].
    rewrite Hfe.
    eapply for_each_inv_key; [apply astar_visit_inv_key|apply Hst'| |exact Hfe].
    by eapply expand_generated.
  - pose proof (unwrap_result_key astar_key _ (Hst' (counter st))) as Hu.
    destruct (unwrap_result _) as [[r|e|] c]; [done|by destruct Hu|done].
Qed.

Lemma ucs_loop_key fuel st :
  search_inv_key p ucs_key st →
  match UCPlayer.loop p fuel st with
  | (Returned r, _) => from_node p ucs_key r
  | (Raised e, _) => e = AttributeError
  | (OutOfFuel, _) => True
  end.
Proof.
  revert st. induction fuel as [|fuel IH]; intros st Hst; simpl; [done|].
  pose proof (ucs_turn_key st Hst) as Hturn.
  destruct (UCPlayer.turn p st) as [[[r|e|] c]|st']; try done. by apply IH.
Qed.

Lemma astar_loop_key fuel st :
  search_inv_key p astar_key st →
  match AStarPlayer.loop p fuel st with
  | (Returned r, _) => from_node p astar_key r
  | (Raised e, _) => e = AttributeError
  | (OutOfFuel, _) => True
  end.
Proof.
  revert st. induction fuel as [|fuel IH]; intros st Hst; simpl; [done|].
  pose proof (astar_turn_key st Hst) as Hturn.
  destruct (AStarPlayer.turn p st) as [[[r|e|] c]|st']; try done. by apply IH.
Qed.

Lemma initial_search_inv_key key c :
  search_inv_key p key
    (mkSearch (PriorityQueue.put [] (initial_node p)) [] Inf None c).
Proof. split; simpl; [|done]. apply put_Forall; constructor. Qed.

Lemma uniform_cost_search_key fuel c0 :
  match UCPlayer.uniform_cost_search p fuel c0 with
  | (Returned r, _) => from_node p ucs_key r
  | (Raised e, _) => e = AttributeError
  | (OutOfFuel, _) => True
  end.
Proof.
  unfold UCPlayer.uniform_cost_search.
  destruct (is_goal_state (state (initial_node p))) eqn:Hg.
  - exists (initial_node p). split; [constructor|]. by split.
  - apply ucs_loop_key, initial_search_inv_key.
Qed.

Lemma astar_search_key fuel c0 :
  match AStarPlayer.astar_search p fuel c0 with
  | (Returned r, _) => from_node p astar_key r
  | (Raised e, _) => e = AttributeError
  | (OutOfFuel, _) => True
  end.
Proof.
  unfold AStarPlayer.astar_search.
  destruct (is_goal_state (state (initial_node p))) eqn:Hg.
  - exists (initial_node p). split; [constructor|]. by split.
  - apply astar_loop_key, initial_search_inv_key.
Qed.

(** Every result a search returns reports a generated node in a goal
    state. *)
Lemma returns_from_node r :
  returns p r →
  ∃ n, generated p n ∧ is_goal_state (state n) = true
       ∧ unwrap_solution (Some n) = inr (sequence_actions r).
Proof.
  intros [(fuel & c0 & c & H)|[(fuel & c0 & c & H)|(self & self' & H)]].
  - pose proof (uniform_cost_search_key fuel c0) as Hk. rewrite H in Hk.
    destruct Hk as (n & ? & ? & ? & _). eauto.
  - pose proof (astar_search_key fuel c0) as Hk. rewrite H in Hk.
    destruct Hk as (n & ? & ? & ? & _). eauto.
  - pose proof (iterative_deepening_search_found p self) as Hf.
    rewrite H in Hf. destruct Hf as (n & ? & ? & ? & _). eauto.
Qed.

End SearchKey.

(** X9: the plan of every result a search returns can be carried out:
    each of its actions is available in the state the actions before it
    lead to from the initial state. *)
Theorem returned_plan_executable p r :
  returns p r → executable p (initial_state p) (sequence_actions r).
Proof.
  intros (n & Hn & _ & Hu)%returns_from_node.
  destruct (generated_executable p n Hn) as (l & Hl & Hex).
  unfold unwrap_solution in Hu. rewrite Hl in Hu. by injection Hu as <-.
Qed.

Lemma returned_plan_executable_witness :
  executable east_run (initial_state east_run) [East; East; East].
Proof.
  apply (returned_plan_executable east_run
           (mkResult [East; East; East] (Int (-7)))).
  left. exists 20%nat, 0%nat, 6%nat. vm_compute. reflexivity.
Defined.

Lemma generated_remaining_count p n :
  generated p n →
  ∃ l, collect_actions n = inr l
       ∧ (size (banana_locations p)
          ≤ length (iterate (remaining_bananas (state n))) + length l)%nat.
Proof.
  induction 1 as [|node a child Hnode (l & Hl & Hcount) _ Hchild].
  - exists []. split; [done|]. simpl. unfold size, set_size. simpl. lia.
  - pose proof Hchild as Hshape.
    apply child_node_shape in Hshape as (st & c & h & ->).
    apply child_node_inv in Hchild as (_ & Hst & _).
    simpl in Hst. subst st. exists (a :: l). simpl. rewrite Hl.
    split; [done|].
    apply generated_cost in Hnode as [Hnd _].
    pose proof (length_filter_ne (iterate (remaining_bananas (state node)))
                  (move (current_location (state node)) a) Hnd) as Hlen.
    destruct (bool_decide _); lia.
Qed.

(** X10: a step takes at most one banana, so the plan of every result a
    search returns has at least as many actions as the problem has
    bananas. *)
Theorem returned_plan_length p r :
  returns p r →
  (size (banana_locations p) ≤ length (sequence_actions r))%nat.
Proof.
  intros (n & Hn & Hg & Hu)%returns_from_node.
  destruct (generated_remaining_count p n Hn) as (l & Hl & Hcount).
  unfold unwrap_solution in Hu. rewrite Hl in Hu. injection Hu as <-.
  rewrite (is_empty_iterate _ Hg) in Hcount. rewrite length_rev.
  simpl in Hcount. lia.
Qed.

Lemma returned_plan_length_witness :
  (size (banana_locations east_run)
   ≤ length (sequence_actions (mkResult [East; East; East] (Int (-7)))))%nat.
Proof.
  apply (returned_plan_length east_run
           (mkResult [East; East; East] (Int (-7)))).
  left. exists 20%nat, 0%nat, 6%nat. vm_compute. reflexivity.
Defined.

Lemma goal_node_cost p n l :
  generated p n → is_goal_state (state n) = true →
  unwrap_solution (Some n) = inr l →
  path_cost n
  = Z.of_nat (length l) * step_cost p
    + Z.of_nat (size (banana_locations p)) * banana_reward p.
Proof.
  intros Hn Hg Hu. apply generated_cost in Hn as (_ & l' & Hl' & ->).
  unfold unwrap_solution in Hu. rewrite Hl' in Hu. injection Hu as <-.
  rewrite length_rev, (is_empty_iterate _ Hg). simpl length. lia.
Qed.

(** X11: the total of a result of uniform-cost search is the cost of its
    own plan: the step cost for each action plus the banana reward for each
    banana of the problem. *)
Theorem uniform_cost_search_total p fuel c0 r c :
  UCPlayer.uniform_cost_search p fuel c0 = (Returned r, c) →
  total_reward r
  = Int (Z.of_nat (length (sequence_actions r)) * step_cost p
         + Z.of_nat (size (banana_locations p)) * banana_reward p).
Proof.
  intros H. pose proof (uniform_cost_search_key p fuel c0) as Hk.
  rewrite H in Hk. destruct Hk as (n & Hn & Hg & Hu & ->). f_equal.
  by apply goal_node_cost.
Qed.

Lemma uniform_cost_search_total_witness :
  total_reward (mkResult [East; East; East] (Int (-7)))
  = Int (Z.of_nat (length (sequence_actions
                             (mkResult [East; East; East] (Int (-7)))))
         * step_cost east_run
         + Z.of_nat (size (banana_locations east_run))
           * banana_reward east_run).
Proof.
  apply (uniform_cost_search_total east_run 20 0 _ 6%nat).
  vm_compute. reflexivity.
Defined.

Lemma generated_heuristic p n :
  generated p n →
  n = initial_node p
  ∨ heuristic_cost n
    = heuristic_func p (plain_node (current_location (state n))
                                   (remaining_bananas (state n))).
Proof.
  destruct 1 as [|node a child _ _ Hchild]; [by left|right].
  by eapply child_node_heuristic.
Qed.

(** X12: heuristic search reports as total the path cost plus the
    heuristic cost of the solution node; when the heuristic is 0 on every
    node in a goal state, this is the cost of the plan, as for uniform-cost
    search. *)
Theorem astar_search_total p fuel c0 r c :
  (∀ n, is_goal_state (state n) = true → heuristic_func p n = 0) →
  AStarPlayer.astar_search p fuel c0 = (Returned r, c) →
  total_reward r
  = Int (Z.of_nat (length (sequence_actions r)) * step_cost p
         + Z.of_nat (size (banana_locations p)) * banana_reward p).
Proof.
  intros Hh H. pose proof (astar_search_key p fuel c0) as Hk.
  rewrite H in Hk. destruct Hk as (n & Hn & Hg & Hu & ->). f_equal.
  unfold astar_key. rewrite (goal_node_cost p n _ Hn Hg Hu).
  destruct (generated_heuristic p n Hn) as [-> | ->]; [simpl; lia|].
  rewrite Hh; [lia|]. unfold plain_node, new_node. simpl.
  by rewrite coordinate_eta.
Qed.

(** ** The Manhattan heuristic *)

Lemma fold_left_min_spec ds d :
  fold_left Z.min ds d <= d
  ∧ Forall (fun v => fold_left Z.min ds d <= v) ds
  ∧ (fold_left Z.min ds d = d ∨ fold_left Z.min ds d ∈ ds).
Proof.
  revert d. induction ds as [|v ds IH]; intros d; simpl.
  { split; [lia|]. split; [constructor|by left]. }
  destruct (IH (Z.min d v)) as (Hle & Hall & Hin).
  split; [lia|]. split.
  - constructor; [lia|done].
  - destruct Hin as [Heq|Hin]; [|right; by constructor].
    destruct (Z.min_spec d v) as [[_ Hm]|[_ Hm]]; rewrite Hm in *.
    + by left.
    + right. rewrite Heq. constructor.
Qed.

Lemma manhattan_spec node :
  0 <= AStarPlayer.heuristic_func node
  ∧ (∀ b, b ∈ frozenset (remaining_bananas (state node)) →
          AStarPlayer.heuristic_func node
          <= AStarPlayer.manhattan_distance_between
               (current_location (state node)) b)
  ∧ (is_goal_state (state node) = false →
     ∃ b, b ∈ frozenset (remaining_bananas (state node))
          ∧ AStarPlayer.heuristic_func node
            = AStarPlayer.manhattan_distance_between
                (current_location (state node)) b)
  ∧ (is_goal_state (state node) = true → AStarPlayer.heuristic_func node = 0).
Proof.
  unfold AStarPlayer.heuristic_func, is_goal_state.
  set (dist := AStarPlayer.manhattan_distance_between
                 (current_location (state node))).
  assert (∀ b, 0 <= dist b) as Hpos.
  { intros b. unfold dist, AStarPlayer.manhattan_distance_between. lia. }
  setoid_rewrite <- elem_of_iterate.
  destruct (iterate (remaining_bananas (state node))) as [|b0 bs] eqn:Hit.
  { simpl. split; [done|]. split; [by intros b ?%elem_of_nil|].
    split; [|done]. intros Hne. apply is_empty_false_elem in Hne as [b Hb].
    rewrite Hit in Hb. by apply elem_of_nil in Hb. }
  simpl map. cbv iota.
  destruct (fold_left_min_spec (map dist bs) (dist b0)) as (Hle & Hall & Hin).
  assert (∃ b, b ∈ b0 :: bs ∧ fold_left Z.min (map dist bs) (dist b0) = dist b)
    as (bm & Hbm & Hmin).
  { destruct Hin as [Heq|Hin].
    - exists b0. split; [constructor|done].
    - apply list_elem_of_fmap in Hin as (b & Hb & Hbin).
      exists b. split; [by constructor|done]. }
  split; [rewrite Hmin; apply Hpos|]. split; [|split].
  - intros b [->|Hb]%elem_of_cons; [done|].
    eapply Forall_forall in Hall; [exact Hall|].
    by apply list_elem_of_fmap_2.
  - intros _. by exists bm.
  - intros Hg. apply is_empty_iterate in Hg. congruence.
Qed.

(** X13: the heuristic [AStarPlayer] passes is the least Manhattan distance
    from the node's location to a remaining banana: it is no greater than
    the distance to any of them and is the distance to one of them; it is
    never negative, and it is 0 in a goal state. *)
Theorem manhattan_heuristic_is_least_distance node :
  0 <= AStarPlayer.heuristic_func node
  ∧ (∀ b, b ∈ frozenset (remaining_bananas (state node)) →
          AStarPlayer.heuristic_func node
          <= AStarPlayer.manhattan_distance_between
               (current_location (state node)) b)
  ∧ (is_goal_state (state node) = false →
     ∃ b, b ∈ frozenset (remaining_bananas (state node))
          ∧ AStarPlayer.heuristic_func node
            = AStarPlayer.manhattan_distance_between
                (current_location (state node)) b)
  ∧ (is_goal_state (state node) = true → AStarPlayer.heuristic_func node = 0).
Proof. apply manhattan_spec. Qed.

Lemma astar_search_total_witness :
  total_reward (mkResult [East; East; East] (Int (-7)))
  = Int (Z.of_nat (length (sequence_actions
                             (mkResult [East; East; East] (Int (-7)))))
         * step_cost east_run_astar
         + Z.of_nat (size (banana_locations east_run_astar))
           * banana_reward east_run_astar).
Proof.
  apply (astar_search_total east_run_astar 20 0 _ 3%nat).
  - intros n Hg. by apply manhattan_spec.
  - vm_compute. reflexivity.
Defined.

(** ** Exceptions of the cost-ordered searches *)

(** X14: the test [child not in list(reached) or cost < reached[child]]
    never raises [KeyError]: a key that [in] finds in the list of keys by
    [==] has the hash of the child, so the dictionary finds it too.  The
    test holds exactly when no key equals the child or the recorded cost is
    higher. *)
Theorem improves_never_raises d child cost :
  ∃ b, improves d child cost = inr b
       ∧ (b = true ↔
          in_list child (keys d) = false
          ∨ ∃ v, dict_get d child = inr v ∧ cost < v).
Proof.
  unfold improves. destruct (in_list child (keys d)) eqn:Hin; simpl.
  2:{ exists true. split; [done|]. split; [by left|done]. }
  destruct (improves_total d child cost) as (b & Hb & _).
  unfold improves in Hb. rewrite Hin in Hb. simpl in Hb.
  destruct (dict_get d child) as [|v]; [done|].
  exists (cost <? v). split; [done|]. rewrite Z.ltb_lt. split.
  - intros ?. right. by exists v.
  - intros [?|(v' & [= <-] & ?)]; done.
Qed.

(** ** Heuristic search without a heuristic *)

Section ZeroHeuristic.

Variable p : HungryMonkeyProblem.
Hypothesis Hzero : ∀ n, heuristic_func p n = 0.

Lemma visit_same sa su child :
  same_search sa su → heuristic_cost child = 0 →
  ∃ sa' su', AStarPlayer.visit sa child = inr sa'
             ∧ UCPlayer.visit su child = inr su'
             ∧ same_search sa' su'.
Proof.
  intros (Hf & Hr & Hs & Hn & Hh) Hc.
  unfold AStarPlayer.visit, UCPlayer.visit.
  rewrite Hc, Z.add_0_r, Hr, Hs, Hf.
  destruct (improves_total (reached su) child (path_cost child)) as (b & -> & _).
  destruct b.
  - destruct (_ && _); eexists _, _; (split; [done|]); (split; [done|]);
      repeat split; simpl; try done; apply put_Forall; try done;
      by rewrite <- Hf.
  - eexists _, _. split; [done|]. split; [done|]. by repeat split.
Qed.

Lemma for_each_same sa su children :
  same_search sa su → Forall (fun c => heuristic_cost c = 0) children →
  ∃ sa' su', for_each AStarPlayer.visit sa children = inr sa'
             ∧ for_each UCPlayer.visit su children = inr su'
             ∧ same_search sa' su'.
Proof.
  intros Hs Hch. revert sa su Hs.
  induction Hch as [|child children Hc Hch IH]; intros sa su Hs; simpl.
  { by exists sa, su. }
  destruct (visit_same sa su child Hs Hc) as (sa1 & su1 & -> & -> & Hs1).
  by apply IH.
Qed.

Lemma turn_same sa su :
  same_search sa su →
  match AStarPlayer.turn p sa, UCPlayer.turn p su with
  | inr sa', inr su' => same_search sa' su'
  | inl ra, inl ru => fst ra = fst ru
  | _, _ => False
  end.
Proof.
  intros (Hf & Hr & Hs & Hn & Hh).
  unfold AStarPlayer.turn, UCPlayer.turn, unwrap_result. rewrite Hf, Hn, Hs.
  destruct (PriorityQueue.empty (frontier su)).
  { by destruct (unwrap_solution (solution_node su)). }
  destruct (PriorityQueue.get (frontier su)) as [[par frontier']|] eqn:Hget;
    [|done].
  rewrite Hf in Hh. destruct (get_Forall _ _ _ _ Hget Hh) as [Hpar Hrest].
  simpl. rewrite Hpar, Z.add_0_r.
  destruct (lt_number (path_cost par) (solution su));
    [|by destruct (unwrap_solution (solution_node su))].
  destruct (child_nodes_total p par (available_actions_for p (state par)))
    as (cs & -> & Hfrom & _); [by apply Forall_forall|].
  destruct (for_each_same
              (mkSearch frontier' (reached sa) (solution su)
                        (solution_node su) (S (counter sa)))
              (mkSearch frontier' (reached su) (solution su)
                        (solution_node su) (counter su)) cs)
    as (sa' & su' & -> & -> & Hs'); [by repeat split| |done].
  eapply Forall_impl; [done|]. intros c (a & _ & Hc).
  by rewrite (child_node_heuristic _ _ _ _ Hc).
Qed.

Lemma loop_same fuel sa su :
  same_search sa su →
  fst (AStarPlayer.loop p fuel sa) = fst (UCPlayer.loop p fuel su).
Proof.
  revert sa su. induction fuel as [|fuel IH]; intros sa su Hs; simpl; [done|].
  pose proof (turn_same sa su Hs) as Hturn.
  destruct (AStarPlayer.turn p sa) as [ra|sa'],
           (UCPlayer.turn p su) as [ru|su']; try done.
  by apply IH.
Qed.

Lemma astar_search_same fuel ca cu :
  fst (AStarPlayer.astar_search p fuel ca)
  = fst (UCPlayer.uniform_cost_search p fuel cu).
Proof.
  unfold AStarPlayer.astar_search, UCPlayer.uniform_cost_search.
  destruct (is_goal_state (state (initial_node p))); [done|].
  apply loop_same. repeat split; simpl.
  apply put_Forall; by constructor.
Qed.

End ZeroHeuristic.

(** X16: with a heuristic that is 0 everywhere, as the default one,
    heuristic search is uniform-cost search: for the same fuel both return
    the same result, raise alike or are both still running; only their node
    counters differ. *)
Theorem astar_without_heuristic_is_uniform_cost p fuel ca cu :
  (∀ n, heuristic_func p n = 0) →
  fst (AStarPlayer.astar_search p fuel ca)
  = fst (UCPlayer.uniform_cost_search p fuel cu).
Proof. intros Hzero. by apply astar_search_same. Qed.

Lemma astar_without_heuristic_is_uniform_cost_witness :
  fst (AStarPlayer.astar_search east_run 20 0)
  = fst (UCPlayer.uniform_cost_search east_run 20 0).
Proof.
  apply (astar_without_heuristic_is_uniform_cost east_run 20 0 0).
  intros n. reflexivity.
Defined.

(** ** The frontier as a priority queue *)

Lemma get_Some_top heap top heap' :
  PriorityQueue.get heap = Some (top, heap') → heap !! 0%nat = Some top.
Proof.
  intros Hget. destruct heap as [|e heap]; [done|].
  destruct (get_top (e :: heap) e eq_refl) as [heap'' Hget'']. simpl. congruence.
Qed.

(** X17: the frontier is kept as a heap under [__lt__]: the empty queue is
    one, [put] and [get] keep it one, and the node [get] takes off a heap
    is a least one: no node of the frontier is less than it. *)
Theorem frontier_get_is_least heap :
  heap_ok [] ∧
  (heap_ok heap →
   (∀ item, heap_ok (PriorityQueue.put heap item))
   ∧ ∀ top heap',
       PriorityQueue.get heap = Some (top, heap') →
       heap_ok heap' ∧ ∀ e, e ∈ heap → node_lt e top = false).
Proof.
  split; [by intros i e par Hi He|]. intros Hok. split.
  - intros item. by apply put_ok.
  - intros top heap' Hget. split; [by eapply get_ok|].
    intros e [i Hi]%list_elem_of_lookup.
    apply get_Some_top in Hget. by apply (heap_ok_top heap top Hok Hget i e).
Qed.

Lemma delete_insert_same {A} (l : list A) i v :
  delete i (<[i := v]> l) = delete i l.
Proof.
  revert i. induction l as [|a l IH]; intros [|i]; simpl; try done.
  by rewrite IH.
Qed.

Lemma insert_swap_perm {A} (l : list A) i j a b :
  i ≠ j → l !! i = Some a → (j < length l)%nat →
  <[i := b]> (<[j := a]> l) ≡ₚ <[j := b]> l.
Proof.
  intros Hij Hi Hj. apply lookup_lt_Some in Hi as Hil.
  assert (delete i (<[j := a]> l) ≡ₚ delete j l) as Hdel.
  { apply (Permutation_cons_inv (a := a)).
    rewrite <- (delete_Permutation (<[j := a]> l) i a)
      by (by rewrite list_lookup_insert_ne).
    rewrite (delete_Permutation (<[j := a]> l) j a)
      by (by apply list_lookup_insert_eq).
    by rewrite delete_insert_same. }
  rewrite (delete_Permutation (<[i := b]> (<[j := a]> l)) i b)
    by (apply list_lookup_insert_eq; by rewrite length_insert).
  rewrite delete_insert_same, Hdel.
  rewrite (delete_Permutation (<[j := b]> l) j b)
    by (by apply list_lookup_insert_eq).
  by rewrite delete_insert_same.
Qed.

Lemma siftdown_loop_perm fuel heap startpos pos newitem :
  (pos < length heap)%nat →
  PriorityQueue.siftdown_loop fuel heap startpos pos newitem
  ≡ₚ <[pos := newitem]> heap.
Proof.
  revert heap pos.
  induction fuel as [|fuel IH]; intros heap pos Hlen;
    cbn [PriorityQueue.siftdown_loop]; [done|].
  case_bool_decide as Hpos; [|done].
  fold (heap_parent pos).
  pose proof (heap_parent_lt pos ltac:(lia)) as Hlt.
  destruct (heap !! heap_parent pos) as [par|] eqn:Hpar; [|done].
  destruct (node_lt newitem par); [|done].
  rewrite IH by (rewrite length_insert; lia).
  apply insert_swap_perm; [lia|done|done].
Qed.

Lemma siftup_loop_perm fuel heap pos item :
  (pos < length heap)%nat →
  <[snd (PriorityQueue.siftup_loop fuel heap pos) := item]>
    (fst (PriorityQueue.siftup_loop fuel heap pos))
  ≡ₚ <[pos := item]> heap
  ∧ (snd (PriorityQueue.siftup_loop fuel heap pos)
     < length (fst (PriorityQueue.siftup_loop fuel heap pos)))%nat.
Proof.
  revert heap pos.
  induction fuel as [|fuel IH]; intros heap pos Hlen;
    cbn [PriorityQueue.siftup_loop]; [done|].
  case_bool_decide as Hchild; [|done].
  assert (∀ cp c, heap !! cp = Some c → cp ≠ pos →
            <[snd (PriorityQueue.siftup_loop fuel (<[pos := c]> heap) cp) := item]>
              (fst (PriorityQueue.siftup_loop fuel (<[pos := c]> heap) cp))
            ≡ₚ <[pos := item]> heap
            ∧ (snd (PriorityQueue.siftup_loop fuel (<[pos := c]> heap) cp)
               < length (fst (PriorityQueue.siftup_loop fuel
                                (<[pos := c]> heap) cp)))%nat) as Hstep.
  { intros cp c Hc Hne. apply lookup_lt_Some in Hc as Hcl.
    destruct (IH (<[pos := c]> heap) cp) as [Hperm Hlt];
      [by rewrite length_insert|].
    split; [|done]. rewrite Hperm. by apply insert_swap_perm. }
  repeat case_match; simplify_eq; try done; apply Hstep; try done; lia.
Qed.

Lemma put_perm heap item : PriorityQueue.put heap item ≡ₚ item :: heap.
Proof.
  unfold PriorityQueue.put, PriorityQueue.siftdown.
  rewrite list_lookup_middle by done.
  rewrite siftdown_loop_perm by (rewrite length_app; simpl; lia).
  rewrite list_insert_id by (by apply list_lookup_middle).
  by rewrite Permutation_app_comm.
Qed.

Lemma get_perm heap top heap' :
  PriorityQueue.get heap = Some (top, heap') → heap ≡ₚ top :: heap'.
Proof.
  unfold PriorityQueue.get.
  destruct (last heap) as [lastelt|] eqn:Hlast; [|done].
  apply last_Some in Hlast as [front ->]. rewrite removelast_last.
  destruct front as [|returnitem rest]; intros [= <- <-]; [done|].
  unfold PriorityQueue.siftup. simpl lookup. cbn match.
  destruct (siftup_loop_perm (length (lastelt :: rest)) (lastelt :: rest) 0
              lastelt) as [Hperm Hlt]; [simpl; lia|].
  destruct (PriorityQueue.siftup_loop (length (lastelt :: rest))
                                      (lastelt :: rest) 0) as [h1 p1].
  simpl fst in *. simpl snd in *.
  unfold PriorityQueue.siftdown.
  rewrite list_lookup_insert_eq by done.
  rewrite siftdown_loop_perm by (by rewrite length_insert).
  rewrite list_insert_insert_eq, Hperm. simpl.
  apply perm_skip. symmetry. apply Permutation_cons_append.
Qed.

(** X18: the frontier neither loses nor doubles a node: after [put] it
    holds the node put in and the nodes it held, [get] hands out one node
    and leaves the others, and [get] has nothing to hand out only when the
    queue is empty. *)
Theorem frontier_keeps_its_nodes heap :
  (∀ item, PriorityQueue.put heap item ≡ₚ item :: heap)
  ∧ (∀ top heap',
       PriorityQueue.get heap = Some (top, heap') → heap ≡ₚ top :: heap')
  ∧ (PriorityQueue.get heap = None ↔ PriorityQueue.empty heap = true).
Proof.
  split; [apply put_perm|]. split; [apply get_perm|]. split.
  - intros ->%get_None. done.
  - by destruct heap.
Qed.

(** ** What iterative deepening finds *)

Lemma expand_node p node :
  generated p node →
  ∃ cs, child_nodes p node (available_actions_for p (state node)) = inr cs
        ∧ (∀ c, c ∈ cs →
                ∃ a, a ∈ available_actions_for p (state node)
                     ∧ child_node p node a = inr c)
        ∧ (∀ a, a ∈ available_actions_for p (state node) →
                ∃ c, c ∈ cs ∧ child_node p node a = inr c).
Proof.
  intros Hnode.
  destruct (child_nodes_total p node (available_actions_for p (state node)))
    as (cs & Hcs & Hfrom & Hto); [by apply Forall_forall|].
  exists cs. split; [done|]. split; [|done].
  by apply Forall_forall.
Qed.

Lemma generated_unwrap p node :
  generated p node →
  ∃ l, unwrap_solution (Some node) = inr (rev l)
       ∧ length l = length (ancestors node).
Proof.
  intros (l & Hl & Hlen)%generated_depth. exists l.
  unfold unwrap_solution. by rewrite Hl.
Qed.

(** What the loop over the children evaluates to, by what the calls on
    the children evaluate to. *)
Lemma for_children_outcome rec e cs cutoff self :
  match fst (IDPlayer.for_children rec e cs cutoff self) with
  | IDPlayer.Cutoff =>
      ∀ c, c ∈ cs →
           ∃ s, fst (rec c e s) = IDPlayer.Cutoff
                ∨ fst (rec c e s) = IDPlayer.NoSolution
  | IDPlayer.NoSolution =>
      cutoff = false
      ∧ ∀ c, c ∈ cs → ∃ s, fst (rec c e s) = IDPlayer.NoSolution
  | v => ∃ c s, c ∈ cs ∧ fst (rec c e s) = v
  end.
Proof.
  revert cutoff self.
  induction cs as [|child rest IH]; intros cutoff self; simpl.
  { destruct cutoff; simpl; [|split; [done|]]; by intros c ?%elem_of_nil. }
  destruct (rec child e self) as [v self1] eqn:Hrec.
  assert (fst (rec child e self) = v) as Hv by by rewrite Hrec.
  destruct v as [r| | |err]; simpl.
  - exists child, self. split; [constructor|done].
  - specialize (IH true self1).
    destruct (fst (IDPlayer.for_children rec e rest true self1)).
    + destruct IH as (c & s & Hc & Hs). exists c, s. split; [by constructor|done].
    + intros c [->|Hc]%elem_of_cons; [eauto|]. by apply IH.
    + by destruct IH.
    + destruct IH as (c & s & Hc & Hs). exists c, s. split; [by constructor|done].
  - specialize (IH cutoff self1).
    destruct (fst (IDPlayer.for_children rec e rest cutoff self1)).
    + destruct IH as (c & s & Hc & Hs). exists c, s. split; [by constructor|done].
    + intros c [->|Hc]%elem_of_cons; [eauto|]. by apply IH.
    + destruct IH as [-> IH]. split; [done|].
      intros c [->|Hc]%elem_of_cons; [eauto|]. by apply IH.
    + destruct IH as (c & s & Hc & Hs). exists c, s. split; [by constructor|done].
  - exists child, self. split; [constructor|done].
Qed.

Lemma recursive_dls_no_error p limit node explored self e :
  generated p node →
  fst (IDPlayer.recursive_dls p limit node explored self) ≠ IDPlayer.Error e.
Proof.
  revert node explored self.
  induction limit as [|limit IH]; intros node explored self Hnode;
    cbn [IDPlayer.recursive_dls];
    destruct (generated_unwrap p node Hnode) as (l & Hl & _); rewrite Hl.
  { by destruct (is_goal_state (state node)). }
  destruct (is_goal_state (state node)); [done|].
  destruct (expand_node p node Hnode) as (cs & -> & Hfrom & _).
  match goal with
  | |- fst (IDPlayer.for_children ?rec ?ex ?cl ?b ?s) ≠ _ =>
      pose proof (for_children_outcome rec ex cl b s) as Hout;
      destruct (fst (IDPlayer.for_children rec ex cl b s)) as [r| | |err];
      try done
  end.
  destruct Hout as (c & s & [_ Hc]%list_elem_of_filter & Hs).
  destruct (Hfrom c Hc) as (a & Ha & Hchild).
  intros [= ->]. eapply (IH c); [by econstructor|done].
Qed.

Lemma recursive_dls_within p limit node explored self r :
  generated p node →
  fst (IDPlayer.recursive_dls p limit node explored self) = IDPlayer.Found r →
  (length (sequence_actions r) ≤ length (ancestors node) + limit)%nat.
Proof.
  revert node explored self.
  induction limit as [|limit IH]; intros node explored self Hnode;
    cbn [IDPlayer.recursive_dls];
    destruct (generated_unwrap p node Hnode) as (l & Hl & Hlen); rewrite Hl.
  { destruct (is_goal_state (state node)); [|done].
    intros [= <-]. simpl. rewrite length_rev. lia. }
  destruct (is_goal_state (state node)).
  { intros [= <-]. simpl. rewrite length_rev. lia. }
  destruct (expand_node p node Hnode) as (cs & -> & Hfrom & _).
  intros Hfound.
  match type of Hfound with
  | fst (IDPlayer.for_children ?rec ?ex ?cl ?b ?s) = _ =>
      pose proof (for_children_outcome rec ex cl b s) as Hout;
      rewrite Hfound in Hout
  end.
  destruct Hout as (c & s & [_ Hc]%list_elem_of_filter & Hs).
  destruct (Hfrom c Hc) as (a & Ha & Hchild).
  apply IH in Hs; [|by econstructor].
  apply child_node_shape in Hchild as (st & pc & h & ->). simpl in Hs. lia.
Qed.

Lemma depth_limited_search_within p depth self r :
  fst (IDPlayer.depth_limited_search p depth self) = IDPlayer.Found r →
  (length (sequence_actions r) ≤ depth)%nat.
Proof.
  unfold IDPlayer.depth_limited_search. intros H.
  apply recursive_dls_within in H; [done|constructor].
Qed.

Lemma for_depths_within p bound depths result self r :
  Forall (fun d => (d < bound)%nat) depths →
  (∀ r, result = Some (IDPlayer.Found r) →
        (length (sequence_actions r) < bound)%nat) →
  fst (IDPlayer.for_depths p depths result self) = IDPlayer.Found r →
  (length (sequence_actions r) < bound)%nat.
Proof.
  intros Hd. revert result self.
  induction Hd as [|d depths Hlt Hd IH]; intros result self Hres; simpl.
  { destruct result as [v|]; [|done]. simpl. intros ->. by apply Hres. }
  destruct (IDPlayer.depth_limited_search p d self) as [v self1] eqn:Hdls.
  pose proof (depth_limited_search_within p d self) as Hw.
  rewrite Hdls in Hw. simpl in Hw.
  destruct v as [r'| | |err]; simpl; try done.
  - intros [= <-]. specialize (Hw r' eq_refl). lia.
  - apply IH. by intros r0 [=].
Qed.

(** X19: a plan that [depth_limited_search] returns has no more actions
    than the depth limit, and a plan that [iterative_deepening_search]
    returns has fewer actions than the number of cells of the grid minus
    the number of obstacles, the bound of its loop. *)
Theorem iterative_deepening_plan_within_bound p depth self r :
  (fst (IDPlayer.depth_limited_search p depth self) = IDPlayer.Found r →
   (length (sequence_actions r) ≤ depth)%nat)
  ∧ (fst (IDPlayer.iterative_deepening_search p self) = IDPlayer.Found r →
     (length (sequence_actions r) < IDPlayer.depth_bound p)%nat).
Proof.
  split; [apply depth_limited_search_within|].
  apply for_depths_within; [|done].
  apply Forall_forall. intros d Hd%elem_of_seq. lia.
Qed.

Lemma iterative_deepening_plan_within_bound_witness :
  (length [East; East; East] ≤ 3)%nat
  ∧ (length [East; East; East] < IDPlayer.depth_bound rewarded_run)%nat.
Proof.
  destruct (iterative_deepening_plan_within_bound rewarded_run 3
              (IDPlayer.mkPlayer 0 0 [] [])
              (mkResult [East; East; East] (Int 7))) as [Hdepth Hbound].
  split; [apply Hdepth|apply Hbound]; reflexivity.
Defined.

Lemma for_depths_error p depths result self e :
  (∀ e, result ≠ Some (IDPlayer.Error e)) →
  fst (IDPlayer.for_depths p depths result self) = IDPlayer.Error e →
  depths = [] ∧ result = None ∧ e = UnboundLocalError.
Proof.
  revert result self.
  induction depths as [|d depths IH]; intros result self Hres; simpl.
  { destruct result as [v|]; simpl; [|by intros [= <-]].
    intros ->. by destruct (Hres e). }
  destruct (IDPlayer.depth_limited_search p d self) as [v self1] eqn:Hdls.
  assert (fst (IDPlayer.depth_limited_search p d self) = v) as Hv
    by by rewrite Hdls.
  destruct v as [r'| | |err]; simpl; try done.
  - intros H. apply IH in H as (_ & [=] & _). done.
  - exfalso. unfold IDPlayer.depth_limited_search in Hv.
    eapply recursive_dls_no_error; [|done]. constructor.
Qed.

(** X20: on a problem built of a world with an [Eater], and within the
    recursion limit, [iterative_deepening_search] raises in one case only:
    when the grid has no more cells than obstacles its loop runs not once,
    and [return result] reads a variable that was never bound
    ([UnboundLocalError]).  No call of [child_node] or [unwrap_solution]
    in it raises. *)
Theorem iterative_deepening_raises_iff world actions sc br h p self e :
  HungryMonkeyProblem_init world actions sc br h = Some p →
  within_recursion_limit p →
  fst (IDPlayer.iterative_deepening_search p self) = IDPlayer.Error e
  ↔ IDPlayer.depth_bound p = 0%nat ∧ e = UnboundLocalError.
Proof.
  intros _ _. unfold IDPlayer.iterative_deepening_search. split.
  - intros (Hseq & _ & ->)%for_depths_error; [|done]. split; [|done].
    by destruct (IDPlayer.depth_bound p).
  - by intros [-> ->].
Qed.

Lemma iterative_deepening_raises_iff_witness :
  fst (IDPlayer.iterative_deepening_search
         (corridor 0 3 [(0, 0); (1, 0); (2, 0); (3, 0)] [East; West]
                   default_step_cost default_banana_reward
                   default_heuristic_func)
         (IDPlayer.mkPlayer 0 0 [] []))
  = IDPlayer.Error UnboundLocalError
  ↔ IDPlayer.depth_bound
      (corridor 0 3 [(0, 0); (1, 0); (2, 0); (3, 0)] [East; West]
                default_step_cost default_banana_reward default_heuristic_func)
    = 0%nat
    ∧ UnboundLocalError = UnboundLocalError.
Proof.
  apply (iterative_deepening_raises_iff
           (corridor_world 0 3 [(0, 0); (1, 0); (2, 0); (3, 0)]) [East; West]
           default_step_cost default_banana_reward default_heuristic_func).
  - vm_compute. reflexivity.
  - apply Nat.leb_le. vm_compute. reflexivity.
Defined.

Lemma in_set_true n s :
  in_set n s = true ↔ ∃ e, e ∈ s ∧ state e = state n.
Proof.
  unfold in_set. rewrite existsb_exists. split.
  - intros (e & He%list_elem_of_In & Hk). exists e. split; [done|].
    rewrite same_key_node_eq in Hk. by apply node_eq_spec.
  - intros (e & He & Hst). exists e. split; [by apply list_elem_of_In|].
    rewrite same_key_node_eq. by apply node_eq_spec.
Qed.

Lemma elem_of_set_add e n s : e ∈ set_add n s ↔ e ∈ s ∨ (e = n ∧ in_set n s = false).
Proof.
  unfold set_add. destruct (in_set n s).
  - split; [by left|]. by intros [?|[_ ?]].
  - rewrite elem_of_app, list_elem_of_singleton. tauto.
Qed.

Lemma in_set_set_add n s : in_set n (set_add n s) = true.
Proof.
  unfold set_add. destruct (in_set n s) eqn:Hin; [done|].
  apply in_set_true. exists n. split; [|done].
  apply elem_of_app. right. constructor.
Qed.

Lemma in_set_set_add_mono a n s : in_set a s = true → in_set a (set_add n s) = true.
Proof.
  rewrite !in_set_true. intros (e & He & Hst). exists e. split; [|done].
  apply elem_of_set_add. by left.
Qed.

Lemma trace_app p s l1 l2 :
  trace p s (l1 ++ l2) = trace p s l1 ++ trace p (replay p s l1) l2.
Proof.
  revert s. induction l1 as [|a l1 IH]; intros s; simpl; [done|].
  by rewrite IH.
Qed.

(** After an available action the bananas are kept in a list. *)
Lemma trace_lists p s l :
  executable p s l →
  ∀ s', s' ∈ trace p s l → ∃ bananas, remaining_bananas s' = PyList bananas.
Proof.
  revert s. induction l as [|a l IH]; intros s; simpl.
  { by intros _ s' ?%elem_of_nil. }
  intros [Ha Hex] s' [->|Hs']%elem_of_cons; [|by eapply IH].
  destruct (successor_inv p s a) as [[_ ->]|[Hna _]]; [|done]. simpl. eauto.
Qed.

(** A plan that comes by a state can start from there. *)
Lemma trace_elem p s0 s l :
  s ∈ trace p s0 l →
  ∃ l2 t, trace p s0 l = t ++ s :: trace p s l2
          ∧ replay p s0 l = replay p s l2
          ∧ (executable p s0 l → executable p s l2)
          ∧ (length l2 < length l)%nat.
Proof.
  revert s0. induction l as [|a l IH]; intros s0; simpl.
  { by intros ?%elem_of_nil. }
  intros Hs.
  destruct (decide (s = components (successor p s0 a))) as [->|Hne].
  { exists l, []. split; [done|]. split; [done|]. split; [tauto|lia]. }
  apply elem_of_cons in Hs as [?|Hs]; [done|].
  destruct (IH _ Hs) as (l2 & t & Ht & Hrep & Hex & Hlen).
  exists l2, (components (successor p s0 a) :: t).
  rewrite Ht. split; [done|]. split; [done|]. split; [tauto|lia].
Qed.

(** Cutting the rounds out of a plan: a plan that passes through no state
    twice, is no longer and leads to the same state. *)
Lemma plan_without_rounds p s l :
  executable p s l →
  ∃ l', executable p s l' ∧ replay p s l' = replay p s l
        ∧ (length l' ≤ length l)%nat ∧ NoDup (s :: trace p s l').
Proof.
  revert s. induction l as [|a l IH]; intros s; simpl.
  { intros _. exists []. simpl. repeat split; [lia|].
    apply NoDup_singleton. }
  intros [Ha Hex].
  destruct (IH _ Hex) as (l1 & Hex1 & Hrep1 & Hlen1 & Hnd1).
  destruct (decide (s ∈ trace p s (a :: l1))) as [Hin|Hnin].
  - destruct (trace_elem p s s (a :: l1) Hin) as (l2 & t & Ht & Hrep & Hex2 & Hlen).
    exists l2. split; [by apply Hex2|]. split.
    { rewrite <- Hrep. simpl. done. }
    split; [simpl in Hlen; lia|].
    simpl in Ht. rewrite Ht in Hnd1. by apply NoDup_app in Hnd1 as (_ & _ & ?).
  - exists (a :: l1). simpl. split; [done|]. split; [done|]. split; [lia|].
    by constructor.
Qed.

(** A call on a node from which a plan without rounds leads to a goal,
    by no state of [explored_nodes], finds a solution within the plan's
    length, and reports a cutoff below it. *)
Lemma recursive_dls_follows p l :
  ∀ limit node explored self,
    generated p node →
    executable p (state node) l →
    is_goal_state (replay p (state node) l) = true →
    NoDup (trace p (state node) l) →
    (∀ e, e ∈ node :: explored → state e ∉ trace p (state node) l) →
    match fst (IDPlayer.recursive_dls p limit node explored self) with
    | IDPlayer.Found _ => True
    | IDPlayer.Cutoff => (limit < length l)%nat
    | _ => False
    end.
Proof.
  induction l as [|a l IH]; intros limit node explored self Hnode Hex Hgoal Hnd Hexpl;
    destruct (generated_unwrap p node Hnode) as (l0 & Hl0 & _).
  { simpl in Hgoal.
    destruct limit; cbn [IDPlayer.recursive_dls]; by rewrite Hgoal, Hl0. }
  destruct limit as [|limit]; cbn [IDPlayer.recursive_dls]; rewrite Hl0;
    destruct (is_goal_state (state node)); simpl; try done; [lia|].
  destruct (expand_node p node Hnode) as (cs & -> & Hfrom & Hto).
  simpl in Hex, Hgoal, Hnd, Hexpl. destruct Hex as [Ha Hex].
  destruct (Hto a Ha) as (c & Hc & Hchild).
  pose proof (child_node_state _ _ _ _ Hchild) as Hsucc.
  rewrite Hsucc in Hex, Hgoal, Hnd, Hexpl. simpl in Hex, Hgoal, Hnd, Hexpl.
  apply NoDup_cons in Hnd as [Hfirst Hnd].
  assert (generated p c) as Hgen by by econstructor.
  assert (in_set c explored = false) as Hclean.
  { destruct (in_set c explored) eqn:Hin; [|done].
    apply in_set_true in Hin as (e & He & Hst).
    destruct (Hexpl e); [by constructor|]. rewrite Hst. constructor. }
  assert (∀ s, match fst (IDPlayer.recursive_dls p limit c
                            (set_add node explored) s) with
               | IDPlayer.Found _ => True
               | IDPlayer.Cutoff => (limit < length l)%nat
               | _ => False
               end) as Hrec.
  { intros s. apply IH; try done.
    intros e [->|[He|[-> _]]%elem_of_set_add]%elem_of_cons; [done| |].
    - intros Hin. destruct (Hexpl e); by constructor.
    - intros Hin. destruct (Hexpl node); by constructor. }
  assert (c ∈ filter (λ child, in_set child explored = false) cs) as Hcc
    by by apply list_elem_of_filter.
  match goal with
  | |- match fst (IDPlayer.for_children ?rec ?ex ?cl ?b ?s) with _ => _ end =>
      pose proof (for_children_outcome rec ex cl b s) as Hout;
      destruct (fst (IDPlayer.for_children rec ex cl b s)) as [r| | |err]
  end.
  - done.
  - destruct (Hout c Hcc) as [s Hs]. specialize (Hrec s).
    destruct Hs as [Hs|Hs]; rewrite Hs in Hrec; [lia|done].
  - destruct Hout as [_ Hout]. destruct (Hout c Hcc) as [s Hs].
    specialize (Hrec s). by rewrite Hs in Hrec.
  - destruct Hout as (c' & s & [_ Hc']%list_elem_of_filter & Hs).
    destruct (Hfrom c' Hc') as (a' & Ha' & Hchild').
    destruct (recursive_dls_no_error p limit c' (set_add node explored) s err);
      [by apply (generated_child p node a' c')|done].
Qed.

Lemma depth_limited_search_follows p l depth self :
  solves p l → NoDup (trace p (initial_state p) l) →
  match fst (IDPlayer.depth_limited_search p depth self) with
  | IDPlayer.Found _ => True
  | IDPlayer.Cutoff => (depth < length l)%nat
  | _ => False
  end.
Proof.
  intros [Hex Hgoal] Hnd. unfold IDPlayer.depth_limited_search.
  apply recursive_dls_follows; try done; [constructor|].
  intros e He Hin.
  assert (e = initial_node p) as ->.
  { apply elem_of_cons in He as [->|He]; [done|].
    by apply list_elem_of_singleton in He. }
  by destruct (trace_lists p _ l Hex _ Hin) as [bananas Hb].
Qed.

Lemma for_depths_finds p l :
  solves p l → NoDup (trace p (initial_state p) l) →
  ∀ n d result self,
    (d ≤ length l < d + n)%nat →
    ∃ r self',
      IDPlayer.for_depths p (seq d n) result self = (IDPlayer.Found r, self')
      ∧ (length (sequence_actions r) ≤ length l)%nat.
Proof.
  intros Hsol Hnd.
  induction n as [|n IH]; intros d result self Hd; [lia|].
  cbn [seq IDPlayer.for_depths].
  pose proof (depth_limited_search_follows p l d self Hsol Hnd) as Hf.
  pose proof (depth_limited_search_within p d self) as Hw.
  destruct (IDPlayer.depth_limited_search p d self) as [v self1].
  simpl in Hf, Hw. destruct v as [r| | |err]; try done.
  - eexists _, _. split; [done|]. specialize (Hw r eq_refl). lia.
  - apply IH. lia.
Qed.

Lemma found_solves p v r :
  found_from p v → v = IDPlayer.Found r → solves p (sequence_actions r).
Proof.
  intros Hf ->. destruct Hf as (n & Hn & Hg & Hu & _).
  destruct (generated_executable p n Hn) as (l & Hl & Hex).
  destruct (generated_replay p n Hn) as (l' & Hl' & Hrep).
  assert (l' = l) as -> by congruence.
  unfold unwrap_solution in Hu. rewrite Hl in Hu. injection Hu as <-.
  split; [done|]. by rewrite Hrep.
Qed.

Lemma iterative_deepening_search_finds p self l :
  solves p l →
  (length l < IDPlayer.depth_bound p)%nat →
  ∃ r self',
    IDPlayer.iterative_deepening_search p self = (IDPlayer.Found r, self')
    ∧ (length (sequence_actions r) ≤ length l)%nat.
Proof.
  intros [Hex Hgoal] Hlen.
  destruct (plan_without_rounds p _ l Hex) as (l1 & Hex1 & Hrep1 & Hlen1 & Hnd1).
  apply NoDup_cons in Hnd1 as [_ Hnd1].
  destruct (for_depths_finds p l1) with (n := IDPlayer.depth_bound p)
    (d := 0%nat) (result := @None IDPlayer.dls_value) (self := self)
    as (r & self' & Hids & Hle); [by split; [|rewrite Hrep1]|done|lia|].
  exists r, self'. split; [done|lia].
Qed.

(** X21: within the recursion limit, iterative deepening is complete up
    to its bound and returns a shortest plan: when some plan with fewer
    actions than the bound of the loop solves the problem,
    [iterative_deepening_search] returns a plan that solves the problem,
    and no plan that solves it has fewer actions. *)
Theorem iterative_deepening_finds_shortest_plan p self l :
  within_recursion_limit p →
  solves p l →
  (length l < IDPlayer.depth_bound p)%nat →
  ∃ r self',
    IDPlayer.iterative_deepening_search p self = (IDPlayer.Found r, self')
    ∧ solves p (sequence_actions r)
    ∧ ∀ l', solves p l' → (length (sequence_actions r) ≤ length l')%nat.
Proof.
  intros _ Hsol Hlen.
  destruct (iterative_deepening_search_finds p self l Hsol Hlen)
    as (r & self' & Hids & Hle).
  exists r, self'. split; [done|]. split.
  { eapply found_solves; [apply (iterative_deepening_search_found p self)|].
    by rewrite Hids. }
  intros l' Hsol'.
  destruct (decide (length l' < IDPlayer.depth_bound p)%nat) as [Hlt|Hge]; [|lia].
  destruct (iterative_deepening_search_finds p self l' Hsol' Hlt)
    as (r' & self'' & Hids' & Hle').
  rewrite Hids in Hids'. by injection Hids' as <- _.
Qed.

Lemma iterative_deepening_finds_shortest_plan_witness :
  ∃ r self',
    IDPlayer.iterative_deepening_search rewarded_run
      (IDPlayer.mkPlayer 0 0 [] []) = (IDPlayer.Found r, self')
    ∧ solves rewarded_run (sequence_actions r)
    ∧ ∀ l', solves rewarded_run l' → (length (sequence_actions r) ≤ length l')%nat.
Proof.
  apply (iterative_deepening_finds_shortest_plan rewarded_run
           (IDPlayer.mkPlayer 0 0 [] []) [East; East; East]).
  - apply Nat.leb_le. vm_compute. reflexivity.
  - split; [|reflexivity]. simpl. repeat split; compute_done.
  - vm_compute. lia.
Defined.

(** ** The calls of the depth-limited search *)

Lemma for_children_calls_inv
    (Q : HungryMonkeyNode * list HungryMonkeyNode → Prop) rec e cs cutoff self :
  (∀ child s, child ∈ cs →
      ∃ new, IDPlayer.calls (snd (rec child e s)) = new ++ IDPlayer.calls s
             ∧ Forall Q new) →
  ∃ new, IDPlayer.calls (snd (IDPlayer.for_children rec e cs cutoff self))
         = new ++ IDPlayer.calls self
         ∧ Forall Q new.
Proof.
  revert cutoff self.
  induction cs as [|child rest IH]; intros cutoff self Hrec; simpl.
  { exists []. by destruct cutoff. }
  destruct (Hrec child self) as (new1 & H1 & Hnew1); [constructor|].
  destruct (rec child e self) as [v self1]. simpl in H1.
  assert (∀ b, ∃ new,
             IDPlayer.calls (snd (IDPlayer.for_children rec e rest b self1))
             = new ++ IDPlayer.calls self ∧ Forall Q new) as Hrest.
  { intros b. destruct (IH b self1) as (new2 & H2 & Hnew2).
    { intros c s Hc. apply Hrec. by constructor. }
    exists (new2 ++ new1). rewrite H2, H1, app_assoc. split; [done|].
    by apply Forall_app. }
  destruct v; try apply Hrest; by exists new1.
Qed.

Lemma recursive_dls_calls_inv p
    (Q : HungryMonkeyNode * list HungryMonkeyNode → Prop) :
  (∀ node explored a child,
      Q (node, explored) →
      a ∈ available_actions_for p (state node) →
      child_node p node a = inr child →
      in_set child explored = false →
      Q (child, set_add node explored)) →
  ∀ limit node explored self,
    generated p node → Q (node, explored) →
    ∃ new, IDPlayer.calls (snd (IDPlayer.recursive_dls p limit node explored self))
           = new ++ IDPlayer.calls self
           ∧ Forall Q new.
Proof.
  intros Hstep.
  induction limit as [|limit IH]; intros node explored self Hnode HQ;
    cbn [IDPlayer.recursive_dls].
  { exists [(node, explored)]. split; [|by repeat constructor].
    destruct (is_goal_state (state node)); [|done].
    by destruct (unwrap_solution (Some node)). }
  destruct (is_goal_state (state node)).
  { exists [(node, explored)]. split; [|by repeat constructor].
    by destruct (unwrap_solution (Some node)). }
  destruct (expand_node p node Hnode) as (cs & -> & Hfrom & _).
  match goal with
  | |- ∃ new, IDPlayer.calls (snd (IDPlayer.for_children ?rec ?ex ?cl ?b ?s)) = _ ∧ _ =>
      destruct (for_children_calls_inv Q rec ex cl b s) as (new & Hnew & HQnew)
  end.
  { intros child s [Hclean Hchild]%list_elem_of_filter.
    destruct (Hfrom child Hchild) as (a & Ha & Hc).
    apply IH; [by apply (generated_child p node a child)|by eapply Hstep]. }
  exists (new ++ [(node, explored)]). rewrite Hnew. simpl.
  rewrite <- app_assoc. split; [done|].
  apply Forall_app. split; [done|]. by repeat constructor.
Qed.

Lemma branch_call_child p node explored a child :
  branch_call p (node, explored) →
  a ∈ available_actions_for p (state node) →
  child_node p node a = inr child →
  in_set child explored = false →
  branch_call p (child, set_add node explored).
Proof.
  intros (Hgen & Hfrom & Hroot & Hanc & _) Ha Hchild Hclean.
  pose proof (child_node_shape _ _ _ _ Hchild) as (st & pc & h & ->).
  simpl in *. unfold branch_call. simpl.
  split; [by apply (generated_child p node a _)|].
  split.
  { intros e [He|[-> _]]%elem_of_set_add.
    - destruct (Hfrom e He) as [->|?]; [by left|]. right. by constructor.
    - right. constructor. }
  split; [by apply in_set_set_add_mono|].
  split.
  { intros b [->|Hb]%elem_of_cons; [apply in_set_set_add|].
    apply in_set_set_add_mono. by apply Hanc. }
  intros par [= <-] b Hb.
  destruct (node_eq b (mkNode st pc (Some a) (Some node) h)) eqn:Heq; [|done].
  apply node_eq_spec in Heq.
  apply Hanc, in_set_true in Hb as (e & He & Hst).
  assert (in_set (mkNode st pc (Some a) (Some node) h) explored = true) as Hin.
  { apply in_set_true. exists e. split; [done|]. congruence. }
  congruence.
Qed.

Lemma branch_call_root p :
  branch_call p (initial_node p, set_add (initial_node p) []).
Proof.
  split; [constructor|]. split.
  { intros e [He|[-> _]]%elem_of_set_add; [by apply elem_of_nil in He|by left]. }
  split; [apply in_set_set_add|]. split; [by intros a ?%elem_of_nil|done].
Qed.

Lemma for_depths_calls p depths result self :
  ∃ new, IDPlayer.calls (snd (IDPlayer.for_depths p depths result self))
         = new ++ IDPlayer.calls self
         ∧ Forall (branch_call p) new.
Proof.
  revert result self.
  induction depths as [|d depths IH]; intros result self; simpl.
  { exists []. by destruct result. }
  unfold IDPlayer.depth_limited_search.
  match goal with
  | |- context [IDPlayer.recursive_dls p d ?n ?ex ?s] =>
      destruct (recursive_dls_calls_inv p (branch_call p)
                  (branch_call_child p) d n ex s)
        as (new1 & H1 & Hnew1); [constructor|apply branch_call_root|];
      destruct (IDPlayer.recursive_dls p d n ex s) as [v self1]
  end.
  simpl in H1.
  destruct v as [r| | |err]; simpl; try by exists new1.
  match goal with
  | |- context [IDPlayer.for_depths p depths ?res ?s] =>
      destruct (IH res s) as (new2 & H2 & Hnew2)
  end.
  simpl in H2. exists (new2 ++ new1). rewrite H2, H1, app_assoc.
  split; [done|]. by apply Forall_app.
Qed.

(** X22: the depth-limited search checks paths, not the whole of what it
    has seen: at every call of [recursive_dls] that
    [iterative_deepening_search] makes, [explored_nodes] holds the root and
    the ancestors of the node and nothing from any other branch, and the
    node equals no ancestor of its parent. *)
Theorem explored_nodes_is_the_branch p self :
  ∃ new,
    IDPlayer.calls (snd (IDPlayer.iterative_deepening_search p self))
    = new ++ IDPlayer.calls self
    ∧ Forall (branch_call p) new.
Proof. apply for_depths_calls. Qed.

(** ** The counters of the depth-limited search *)







(** ** The problem of a world *)

Lemma scan_objects_spec objects :
  fst (scan_objects objects)
  = last (omap (fun o => match o with Eater l => Some l | _ => None end) objects)
  ∧ snd (scan_objects objects)
    = omap (fun o => match o with Food l => Some l | _ => None end) objects.
Proof.
  unfold scan_objects.
  induction objects as [|o objects [IHe IHf]] using rev_ind; [done|].
  rewrite fold_left_app, !omap_app. simpl.
  destruct o as [l|l|]; simpl; rewrite ?coordinate_eta, ?app_nil_r.
  - split; [|done]. by rewrite last_snoc.
  - split; [done|]. by rewrite IHf.
  - done.
Qed.

Lemma tuple_le_total : Total tuple_le.
Proof. intros a b. unfold tuple_le. lia. Qed.

Lemma last_omap_split {A B} (f : A → option B) l e :
  last (omap f l) = Some e →
  ∃ before o after,
    l = before ++ o :: after ∧ f o = Some e ∧ omap f after = [].
Proof.
  induction l as [|o l IH] using rev_ind; [done|].
  rewrite omap_app. simpl. destruct (f o) as [y|] eqn:Hfo; simpl.
  - rewrite last_snoc. intros [= ->]. by exists l, o, [].
  - rewrite app_nil_r. intros (before & o' & after & -> & Ho' & Hafter)%IH.
    exists before, o', (after ++ [o]). rewrite <- app_assoc. simpl.
    split; [done|]. split; [done|]. rewrite omap_app, Hafter. simpl.
    by rewrite Hfo.
Qed.

(** X24: the problem [__init__] builds of a world starts at the last
    [Eater] listed among the objects of the world, has as bananas exactly
    the locations of the [Food] objects, and as obstacles the blocks of the
    world in ascending order; a world without an [Eater] gives no initial
    location. *)
Theorem problem_of_world world actions sc br h :
  match HungryMonkeyProblem_init world actions sc br h with
  | Some p =>
      (∃ before after,
          world_objects world = before ++ Eater (initial_location p) :: after
          ∧ ∀ l, Eater l ∉ after)
      ∧ (∀ b, b ∈ banana_locations p ↔ Food b ∈ world_objects world)
      ∧ block_locations p ≡ₚ world_blocks world
      ∧ Sorted tuple_le (block_locations p)
      ∧ map_size p = world_size world
      ∧ possible_actions p = actions
  | None => ∀ l, Eater l ∉ world_objects world
  end.
Proof.
  unfold HungryMonkeyProblem_init.
  destruct (scan_objects_spec (world_objects world)) as [He Hf].
  destruct (scan_objects (world_objects world)) as [[e|] foods];
    simpl in He, Hf; simpl.
  - split.
    { symmetry in He.
      apply last_omap_split in He as (before & o & after & Hobjs & Ho & Hafter).
      exists before, after. split.
      - rewrite Hobjs. by destruct o; simplify_eq.
      - intros l Hl.
        assert (l ∈ omap (fun o => match o with Eater l => Some l | _ => None end)
                         after) as Hin.
        { apply list_elem_of_omap. by exists (Eater l). }
        rewrite Hafter in Hin. by apply elem_of_nil in Hin. }
    split.
    { intros b. rewrite elem_of_list_to_set, Hf, list_elem_of_omap. split.
      - intros (o & Ho & Hob). destruct o; by simplify_eq.
      - intros Hb. by exists (Food b). }
    assert (map (fun bl => (x bl, y bl)) (world_blocks world) = world_blocks world)
      as ->.
    { rewrite <- (map_id (world_blocks world)) at 2. apply map_ext.
      intros bl. apply coordinate_eta. }
    split; [apply merge_sort_Permutation|].
    split; [apply (@Sorted_merge_sort _ tuple_le _ tuple_le_total)|done].
  - intros l Hl. symmetry in He. apply last_None in He.
    assert (l ∈ omap (fun o => match o with Eater l => Some l | _ => None end)
                     (world_objects world)) as Hin.
    { apply list_elem_of_omap. by exists (Eater l). }
    rewrite He in Hin. by apply elem_of_nil in Hin.
Qed.

(** ** What the flags of iterative deepening mean *)

Lemma for_depths_no_solution p depths result self :
  result ≠ Some IDPlayer.NoSolution →
  fst (IDPlayer.for_depths p depths result self) = IDPlayer.NoSolution →
  ∃ d self0,
    fst (IDPlayer.depth_limited_search p d self0) = IDPlayer.NoSolution.
Proof.
  revert result self.
  induction depths as [|d depths IH]; intros result self Hres; simpl.
  { destruct result as [v|]; simpl; [|done]. intros ->. done. }
  destruct (IDPlayer.depth_limited_search p d self) as [v self1] eqn:Hdls.
  destruct v as [r| | |err]; simpl; try done.
  - by apply IH.
  - intros _. exists d, self. by rewrite Hdls.
Qed.

(** X25: the two flags of iterative deepening say what they stand for.
    When some plan solves the problem, the search does not answer that
    there is no solution ([[-2]]); and when it answers with the cutoff
    flag ([[-1]]), every plan that solves the problem has at least as many
    actions as the bound of the loop. *)
Theorem iterative_deepening_flags p self l :
  solves p l →
  fst (IDPlayer.iterative_deepening_search p self) ≠ IDPlayer.NoSolution
  ∧ (fst (IDPlayer.iterative_deepening_search p self) = IDPlayer.Cutoff →
     (IDPlayer.depth_bound p ≤ length l)%nat).
Proof.
  intros Hsol. split.
  - intros (d & self0 & Hd)%for_depths_no_solution; [|done].
    destruct Hsol as [Hex Hgoal].
    destruct (plan_without_rounds p _ l Hex) as (l1 & Hex1 & Hrep1 & _ & Hnd1).
    apply NoDup_cons in Hnd1 as [_ Hnd1].
    pose proof (depth_limited_search_follows p l1 d self0) as Hf.
    rewrite Hd in Hf. apply Hf; [|done]. split; [done|]. by rewrite Hrep1.
  - intros Hcut.
    destruct (decide (length l < IDPlayer.depth_bound p)%nat) as [Hlt|]; [|lia].
    destruct (iterative_deepening_search_finds p self l Hsol Hlt)
      as (r & self' & Hids & _).
    by rewrite Hids in Hcut.
Qed.

Lemma iterative_deepening_flags_witness :
  fst (IDPlayer.iterative_deepening_search rewarded_run
         (IDPlayer.mkPlayer 0 0 [] [])) ≠ IDPlayer.NoSolution
  ∧ (fst (IDPlayer.iterative_deepening_search rewarded_run
            (IDPlayer.mkPlayer 0 0 [] [])) = IDPlayer.Cutoff →
     (IDPlayer.depth_bound rewarded_run ≤ length [East; East; East])%nat).
Proof.
  apply (iterative_deepening_flags rewarded_run
           (IDPlayer.mkPlayer 0 0 [] []) [East; East; East]).
  split; [|reflexivity]. simpl. repeat split; compute_done.
Defined.

(** ** The cost-ordered searches come to an end *)


















Section CostSearch.

Variable p : HungryMonkeyProblem.
Variable key : HungryMonkeyNode → Z.
Variable h : HungryMonkeyState → Z.
Variable visit : search_state → HungryMonkeyNode → exn + search_state.
Variable turn : search_state → outcome HungryMonkeyResult * nat + search_state.
Variable loop : nat → search_state → outcome HungryMonkeyResult * nat.

(** What the two searches have in common: the cost [key] they order and
    compare nodes by, and the shape of their loops, but for the counters. *)
Hypothesis key_child :
  ∀ node a child,
    child_node p node a = inr child →
    key child = path_cost child + h (state child).

Hypothesis visit_eq :
  ∀ st child, ∃ c,
    visit st child
    = match improves (reached st) child (key child) with
      | inl e => inl e
      | inr false =>
          inr (mkSearch (frontier st) (reached st) (solution st)
                        (solution_node st) c)
      | inr true =>
          if is_goal_state (state child) && lt_number (key child) (solution st)
          then inr (mkSearch (PriorityQueue.put (frontier st) child)
                      (dict_set (reached st) child (key child))
                      (Int (key child)) (Some child) c)
          else inr (mkSearch (PriorityQueue.put (frontier st) child)
                      (dict_set (reached st) child (key child))
                      (solution st) (solution_node st) c)
      end.

Hypothesis turn_empty :
  ∀ st, frontier st = [] → turn st = inl (unwrap_result st).

Hypothesis turn_get :
  ∀ st par frontier',
    PriorityQueue.get (frontier st) = Some (par, frontier') →
    ∃ c1 c2 c3,
      turn st
      = if lt_number (key par) (solution st) then
          match child_nodes p par (available_actions_for p (state par)) with
          | inl e => inl (Raised e, c2)
          | inr cs =>
              match for_each visit
                      (mkSearch frontier' (reached st) (solution st)
                                (solution_node st) c1) cs with
              | inl e => inl (Raised e, c3)
              | inr st' => inr st'
              end
          end
        else inl (unwrap_result
                    (mkSearch frontier' (reached st) (solution st)
                              (solution_node st) (counter st))).

Hypothesis loop_S :
  ∀ fuel st,
    loop (S fuel) st
    = match turn st with
      | inl r => r
      | inr st' => loop fuel st'
      end.


Hypothesis step_cost_nonneg : 0 <= step_cost p.



Hypothesis root_no_goal : is_goal_state (initial_state p) = false.
Hypothesis goal_reachable : ∃ s, reachable p s ∧ is_goal_state s = true.








End CostSearch.

Lemma ucs_visit_eq st child :
  ∃ c,
    UCPlayer.visit st child
    = match improves (reached st) child (ucs_key child) with
      | inl e => inl e
      | inr false =>
          inr (mkSearch (frontier st) (reached st) (solution st)
                        (solution_node st) c)
      | inr true =>
          if is_goal_state (state child)
             && lt_number (ucs_key child) (solution st)
          then inr (mkSearch (PriorityQueue.put (frontier st) child)
                      (dict_set (reached st) child (ucs_key child))
                      (Int (ucs_key child)) (Some child) c)
          else inr (mkSearch (PriorityQueue.put (frontier st) child)
                      (dict_set (reached st) child (ucs_key child))
                      (solution st) (solution_node st) c)
      end.
Proof.
  exists (S (counter st)). unfold UCPlayer.visit, ucs_key.
  by destruct (improves _ _ _) as [|[]].
Qed.

Lemma astar_visit_eq st child :
  ∃ c,
    AStarPlayer.visit st child
    = match improves (reached st) child (astar_key child) with
      | inl e => inl e
      | inr false =>
          inr (mkSearch (frontier st) (reached st) (solution st)
                        (solution_node st) c)
      | inr true =>
          if is_goal_state (state child)
             && lt_number (astar_key child) (solution st)
          then inr (mkSearch (PriorityQueue.put (frontier st) child)
                      (dict_set (reached st) child (astar_key child))
                      (Int (astar_key child)) (Some child) c)
          else inr (mkSearch (PriorityQueue.put (frontier st) child)
                      (dict_set (reached st) child (astar_key child))
                      (solution st) (solution_node st) c)
      end.
Proof.
  exists (counter st). unfold AStarPlayer.visit, astar_key.
  destruct (improves _ _ _) as [|[]]; [done|done|]. by destruct st.
Qed.

Lemma ucs_turn_get p st par frontier' :
  PriorityQueue.get (frontier st) = Some (par, frontier') →
  ∃ c1 c2 c3,
    UCPlayer.turn p st
    = if lt_number (ucs_key par) (solution st) then
        match child_nodes p par (available_actions_for p (state par)) with
        | inl e => inl (Raised e, c2)
        | inr cs =>
            match for_each UCPlayer.visit
                    (mkSearch frontier' (reached st) (solution st)
                              (solution_node st) c1) cs with
            | inl e => inl (Raised e, c3)
            | inr st' => inr st'
            end
        end
      else inl (unwrap_result
                  (mkSearch frontier' (reached st) (solution st)
                            (solution_node st) (counter st))).
Proof.
  intros Hget. exists (counter st), (counter st), (counter st).
  unfold UCPlayer.turn, ucs_key. rewrite Hget.
  destruct (frontier st); [done|]. reflexivity.
Qed.

Lemma astar_turn_get p st par frontier' :
  PriorityQueue.get (frontier st) = Some (par, frontier') →
  ∃ c1 c2 c3,
    AStarPlayer.turn p st
    = if lt_number (astar_key par) (solution st) then
        match child_nodes p par (available_actions_for p (state par)) with
        | inl e => inl (Raised e, c2)
        | inr cs =>
            match for_each AStarPlayer.visit
                    (mkSearch frontier' (reached st) (solution st)
                              (solution_node st) c1) cs with
            | inl e => inl (Raised e, c3)
            | inr st' => inr st'
            end
        end
      else inl (unwrap_result
                  (mkSearch frontier' (reached st) (solution st)
                            (solution_node st) (counter st))).
Proof.
  intros Hget. exists (S (counter st)), (counter st), (S (counter st)).
  unfold AStarPlayer.turn, astar_key. rewrite Hget.
  destruct (frontier st); [done|]. reflexivity.
Qed.

Lemma ucs_turn_empty p st :
  frontier st = [] → UCPlayer.turn p st = inl (unwrap_result st).
Proof. intros Hempty. unfold UCPlayer.turn. by rewrite Hempty. Qed.

Lemma astar_turn_empty p st :
  frontier st = [] → AStarPlayer.turn p st = inl (unwrap_result st).
Proof. intros Hempty. unfold AStarPlayer.turn. by rewrite Hempty. Qed.









(** ** Where the cost-ordered searches raise *)

Section RaisingSearch.

Variable p : HungryMonkeyProblem.
Variable key : HungryMonkeyNode → Z.
Variable visit : search_state → HungryMonkeyNode → exn + search_state.
Variable turn : search_state → outcome HungryMonkeyResult * nat + search_state.
Variable loop : nat → search_state → outcome HungryMonkeyResult * nat.

Hypothesis visit_eq :
  ∀ st child, ∃ c,
    visit st child
    = match improves (reached st) child (key child) with
      | inl e => inl e
      | inr false =>
          inr (mkSearch (frontier st) (reached st) (solution st)
                        (solution_node st) c)
      | inr true =>
          if is_goal_state (state child) && lt_number (key child) (solution st)
          then inr (mkSearch (PriorityQueue.put (frontier st) child)
                      (dict_set (reached st) child (key child))
                      (Int (key child)) (Some child) c)
          else inr (mkSearch (PriorityQueue.put (frontier st) child)
                      (dict_set (reached st) child (key child))
                      (solution st) (solution_node st) c)
      end.

Hypothesis turn_empty :
  ∀ st, frontier st = [] → turn st = inl (unwrap_result st).

Hypothesis turn_get :
  ∀ st par frontier',
    PriorityQueue.get (frontier st) = Some (par, frontier') →
    ∃ c1 c2 c3,
      turn st
      = if lt_number (key par) (solution st) then
          match child_nodes p par (available_actions_for p (state par)) with
          | inl e => inl (Raised e, c2)
          | inr cs =>
              match for_each visit
                      (mkSearch frontier' (reached st) (solution st)
                                (solution_node st) c1) cs with
              | inl e => inl (Raised e, c3)
              | inr st' => inr st'
              end
          end
        else inl (unwrap_result
                    (mkSearch frontier' (reached st) (solution st)
                              (solution_node st) (counter st))).

Hypothesis turn_key :
  ∀ st,
    search_inv_key p key st →
    match turn st with
    | inr st' => search_inv_key p key st'
    | inl (Returned r, _) => from_node p key r
    | inl (Raised e, _) => e = AttributeError
    | inl (OutOfFuel, _) => False
    end.

Hypothesis loop_O : ∀ st, fst (loop 0 st) = OutOfFuel.

Hypothesis loop_S :
  ∀ fuel st,
    loop (S fuel) st
    = match turn st with
      | inl r => r
      | inr st' => loop fuel st'
      end.

Lemma visit_total st child : ∃ st', visit st child = inr st'.
Proof.
  destruct (visit_eq st child) as [c ->].
  destruct (improves_total (reached st) child (key child)) as (b & -> & _).
  destruct b; [|eauto]. destruct (_ && _); eauto.
Qed.

(** Without an incumbent the bound is infinite. *)
Lemma visit_bound st child st' :
  (solution_node st = None → solution st = Inf) →
  visit st child = inr st' →
  solution_node st' = None → solution st' = Inf.
Proof.
  intros Hb. destruct (visit_eq st child) as [c ->].
  destruct (improves _ _ _) as [|[]]; [done| |by intros [= <-]].
  destruct (_ && _); by intros [= <-].
Qed.

Lemma for_each_bound cs :
  ∀ st st',
    (solution_node st = None → solution st = Inf) →
    for_each visit st cs = inr st' →
    solution_node st' = None → solution st' = Inf.
Proof.
  induction cs as [|c cs IH]; intros st st' Hb; simpl.
  { by intros [= <-]. }
  destruct (visit st c) as [|st1] eqn:Hv; [done|].
  apply IH. by eapply visit_bound.
Qed.

Lemma turn_raises st :
  search_inv_key p key st →
  (solution_node st = None → solution st = Inf) →
  match turn st with
  | inl (Raised e, _) =>
      e = AttributeError ∧ frontier st = [] ∧ solution_node st = None
  | inr st' =>
      search_inv_key p key st'
      ∧ (solution_node st' = None → solution st' = Inf)
  | _ => True
  end.
Proof.
  intros Hkey Hb. pose proof (turn_key st Hkey) as Hturn.
  destruct (PriorityQueue.get (frontier st)) as [[par frontier']|] eqn:Hget.
  2:{ apply get_None in Hget. rewrite (turn_empty st Hget).
      pose proof (unwrap_result_key p key st Hkey) as Hu.
      destruct (unwrap_result st) as [[r|e|] c]; [done| |done].
      by destruct Hu. }
  destruct (turn_get st par frontier' Hget) as (c1 & c2 & c3 & Heq).
  rewrite Heq in Hturn |- *. clear Heq.
  destruct Hkey as [Hfr Hsol].
  destruct (get_Forall _ _ _ _ Hget Hfr) as [Hpar Hfr'].
  destruct (lt_number (key par) (solution st)) eqn:Hlt.
  - destruct (expand_node p par Hpar) as (cs & Hcs & _).
    rewrite Hcs in Hturn |- *.
    destruct (for_each_total visit
                (mkSearch frontier' (reached st) (solution st)
                          (solution_node st) c1) cs visit_total)
      as [st' Hfe].
    rewrite Hfe in Hturn |- *. split; [done|].
    eapply for_each_bound; [|exact Hfe]. exact Hb.
  - assert (search_inv_key p key
              (mkSearch frontier' (reached st) (solution st)
                        (solution_node st) (counter st))) as Hkey1 by by split.
    pose proof (unwrap_result_key p key _ Hkey1) as Hu.
    destruct (unwrap_result _) as [[r|e|] c]; [done| |done].
    destruct Hu as [_ Hnone]. simpl in Hnone.
    rewrite (Hb Hnone) in Hlt. done.
Qed.

Lemma loop_raises fuel :
  ∀ st e c,
    search_inv_key p key st →
    (solution_node st = None → solution st = Inf) →
    loop fuel st = (Raised e, c) →
    e = AttributeError
    ∧ ∃ st', ends_in turn st st'
             ∧ frontier st' = [] ∧ solution_node st' = None.
Proof.
  induction fuel as [|fuel IH]; intros st e c Hkey Hb.
  { intros H. pose proof (loop_O st) as H0. by rewrite H in H0. }
  rewrite loop_S. pose proof (turn_raises st Hkey Hb) as Hturn.
  destruct (turn st) as [r|st1] eqn:Ht.
  - intros ->. destruct Hturn as (-> & Hempty & Hnone). split; [done|].
    exists st. split; [by eapply ends_now|done].
  - intros Hloop. destruct Hturn as [Hkey1 Hb1].
    destruct (IH st1 e c Hkey1 Hb1 Hloop) as (-> & st' & Hends & Hst').
    split; [done|]. exists st'. split; [by eapply ends_later|done].
Qed.

End RaisingSearch.

(** X15: on a problem built of a world with an [Eater], uniform-cost
    search and heuristic search raise no exception but the
    [AttributeError] of their last line: they raise only after their loop
    has ended on an empty frontier with the solution node still [None],
    whose actions [unwrap_solution] then reads. *)
Theorem cost_searches_raise_only_AttributeError
    world actions sc br h p fuel c0 e c :
  HungryMonkeyProblem_init world actions sc br h = Some p →
  (UCPlayer.uniform_cost_search p fuel c0 = (Raised e, c) →
   e = AttributeError
   ∧ unwrap_solution None = inl e
   ∧ ∃ st,
       ends_in (UCPlayer.turn p)
         (mkSearch (PriorityQueue.put [] (initial_node p)) [] Inf None (S c0)) st
       ∧ frontier st = [] ∧ solution_node st = None)
  ∧ (AStarPlayer.astar_search p fuel c0 = (Raised e, c) →
     e = AttributeError
     ∧ unwrap_solution None = inl e
     ∧ ∃ st,
         ends_in (AStarPlayer.turn p)
           (mkSearch (PriorityQueue.put [] (initial_node p)) [] Inf None c0) st
         ∧ frontier st = [] ∧ solution_node st = None).
Proof.
  intros _. split.
  - unfold UCPlayer.uniform_cost_search.
    destruct (is_goal_state (state (initial_node p))); [done|].
    intros Hloop.
    destruct (loop_raises p ucs_key UCPlayer.visit (UCPlayer.turn p)
                (UCPlayer.loop p) ucs_visit_eq (ucs_turn_empty p)
                (ucs_turn_get p) (ucs_turn_key p) (fun _ => eq_refl)
                (fun _ _ => eq_refl) fuel _ e c
                (initial_search_inv_key p ucs_key (S c0)) (fun _ => eq_refl) Hloop)
      as (-> & Hends).
    done.
  - unfold AStarPlayer.astar_search.
    destruct (is_goal_state (state (initial_node p))); [done|].
    intros Hloop.
    destruct (loop_raises p astar_key AStarPlayer.visit (AStarPlayer.turn p)
                (AStarPlayer.loop p) astar_visit_eq (astar_turn_empty p)
                (astar_turn_get p) (astar_turn_key p) (fun _ => eq_refl)
                (fun _ _ => eq_refl) fuel _ e c
                (initial_search_inv_key p astar_key c0) (fun _ => eq_refl) Hloop)
      as (-> & Hends).
    done.
Qed.

Lemma cost_searches_raise_only_AttributeError_witness :
  AttributeError = AttributeError
  ∧ unwrap_solution None = inl AttributeError
  ∧ ∃ st,
      ends_in (UCPlayer.turn (blocked default_heuristic_func))
        (mkSearch
           (PriorityQueue.put [] (initial_node (blocked default_heuristic_func)))
           [] Inf None 1) st
      ∧ frontier st = [] ∧ solution_node st = None.
Proof.
  apply (cost_searches_raise_only_AttributeError
           (corridor_world 0 3 [(2, 0)]) [North; South; East; West] 1 (-10)
           default_heuristic_func (blocked default_heuristic_func)
           4 0 AttributeError 4%nat).
  - vm_compute. reflexivity.
  - vm_compute. reflexivity.
Defined.

(** ** How deep the depth-limited search recurses *)

Lemma child_nodes_inv p node actions cs :
  child_nodes p node actions = inr cs →
  ∀ c, c ∈ cs → ∃ a, child_node p node a = inr c.
Proof.
  revert cs. induction actions as [|a actions IH]; intros cs; simpl.
  { intros [= <-] c Hc. by apply elem_of_nil in Hc. }
  destruct (child_node p node a) as [|c0] eqn:Hc0; [done|].
  destruct (child_nodes p node actions) as [|cs0]; [done|].
  intros [= <-] c [->|Hc]%elem_of_cons; [by exists a|by eapply IH].
Qed.

Lemma recursive_dls_nesting p limit :
  ∀ node explored self,
    ∃ new,
      IDPlayer.calls (snd (IDPlayer.recursive_dls p limit node explored self))
      = new ++ IDPlayer.calls self
      ∧ Forall (fun call =>
                  (length (ancestors (fst call))
                   ≤ length (ancestors node) + limit)%nat) new.
Proof.
  induction limit as [|limit IH]; intros node explored self;
    cbn [IDPlayer.recursive_dls].
  { exists [(node, explored)]. split.
    - destruct (is_goal_state (state node)); [|done].
      by destruct (unwrap_solution (Some node)).
    - constructor; [simpl; lia|constructor]. }
  destruct (is_goal_state (state node)).
  { exists [(node, explored)]. split.
    - by destruct (unwrap_solution (Some node)).
    - constructor; [simpl; lia|constructor]. }
  destruct (child_nodes p node _) as [|cs] eqn:Hcs.
  { exists [(node, explored)]. split; [done|].
    constructor; [simpl; lia|constructor]. }
  match goal with
  | |- ∃ new, IDPlayer.calls (snd (IDPlayer.for_children ?rec ?ex ?cl ?b ?s)) = _ ∧ _ =>
      destruct (for_children_calls_inv
                  (fun call => (length (ancestors (fst call))
                                ≤ length (ancestors node) + S limit)%nat)
                  rec ex cl b s) as (new & Hnew & Hall)
  end.
  { intros child s [_ Hchild]%list_elem_of_filter.
    destruct (child_nodes_inv _ _ _ _ Hcs child Hchild) as (a & Ha).
    apply child_node_shape in Ha as (st & pc & hc & ->).
    destruct (IH (mkNode st pc (Some a) (Some node) hc)
                 (set_add node explored) s) as (new & Hnew & Hall).
    exists new. split; [done|].
    eapply Forall_impl; [done|]. simpl. intros call Hcall. lia. }
  exists (new ++ [(node, explored)]). rewrite Hnew. simpl.
  rewrite <- app_assoc. split; [done|].
  apply Forall_app. split; [done|]. constructor; [simpl; lia|constructor].
Qed.

Lemma for_depths_nesting p bound depths :
  Forall (fun d => (d < bound)%nat) depths →
  ∀ result self,
    ∃ new,
      IDPlayer.calls (snd (IDPlayer.for_depths p depths result self))
      = new ++ IDPlayer.calls self
      ∧ Forall (fun call => (length (ancestors (fst call)) < bound)%nat) new.
Proof.
  induction 1 as [|d depths Hd _ IH]; intros result self; simpl.
  { exists []. by destruct result. }
  unfold IDPlayer.depth_limited_search.
  match goal with
  | |- context [IDPlayer.recursive_dls p d ?n ?ex ?s] =>
      destruct (recursive_dls_nesting p d n ex s) as (new1 & H1 & Hnew1);
      destruct (IDPlayer.recursive_dls p d n ex s) as [v self1]
  end.
  simpl in H1, Hnew1.
  assert (Forall (fun call => (length (ancestors (fst call)) < bound)%nat) new1)
    as Hnew1'.
  { eapply Forall_impl; [done|]. simpl. intros call Hcall. lia. }
  destruct v as [r| | |err]; simpl; try by exists new1.
  match goal with
  | |- context [IDPlayer.for_depths p depths ?res ?s] =>
      destruct (IH res s) as (new2 & H2 & Hnew2)
  end.
  simpl in H2. exists (new2 ++ new1). rewrite H2, H1, app_assoc.
  split; [done|]. by apply Forall_app.
Qed.

(** X26: the recursion of [recursive_dls] is no deeper than the bound of
    the loop of [iterative_deepening_search]: every call is on a node with
    fewer ancestors than the grid has cells that are no obstacles, and,
    each call being on a child of its caller's node, the calls are nested
    no deeper than that; within the recursion limit this leaves the frames
    set aside for the other calls. *)
Theorem recursive_dls_nesting_within_bound p self :
  ∃ new,
    IDPlayer.calls (snd (IDPlayer.iterative_deepening_search p self))
    = new ++ IDPlayer.calls self
    ∧ Forall (fun call =>
                (length (ancestors (fst call)) < IDPlayer.depth_bound p)%nat
                ∧ (within_recursion_limit p →
                   (length (ancestors (fst call)) + frames_reserved
                    < recursion_limit)%nat)) new.
Proof.
  destruct (for_depths_nesting p (IDPlayer.depth_bound p)
              (seq 0 (IDPlayer.depth_bound p))) with
    (result := @None IDPlayer.dls_value) (self := self)
    as (new & Hnew & Hall).
  { apply Forall_forall. intros d Hd%elem_of_seq. lia. }
  exists new. split; [done|].
  eapply Forall_impl; [done|]. simpl. intros call Hcall.
  split; [done|]. unfold within_recursion_limit. lia.
Qed.
